(** * Smart Image Resizer: a shallow embedding of [script.js]

    The development follows the order of the script: JavaScript values
    (strings, numbers), the application state and the document fields the
    script reads and writes, then the upload, control, resize, statistics and
    download functions, the presets, the quality slider, the theme and the
    listeners of the service worker, and finally the properties proved about
    them.

    Conventions of the embedding:
    - the global [state] object, the two dimension inputs, the savings text,
      the toasts, the downloads and the table of object URLs form one record,
      [World], which every function takes and returns;
    - a handler runs to its end before the next event is handled, so an
      [async] function is one step from world to world;
    - what the browser and Pica do inside [resizeImage] (decoding, resampling,
      encoding) is an argument of the run, an [Attempt];
    - a function returns [option World] where it prints a Number this model
      has no rendering for, and [completion] where the script can throw;
    - a listener of the service worker takes the cache storage and the
      network, a function from URLs to responses, and returns the storage;
      the [cache.put] a [fetch] event starts is done when the event is. *)

From Stdlib Require Import ZArith NArith Lia List String Ascii Bool.
From Stdlib Require Import Floats.SpecFloat.
From stdpp Require Import base option list gmap.

Local Open Scope Z_scope.

(** ** JavaScript strings

    A string is its sequence of UTF-16 code units. *)

Definition jsstring := list N.

Definition js (s : string) : jsstring :=
  map N_of_ascii (list_ascii_of_string s).

Module Ch.
Definition dot : N := 46.
Definition plus : N := 43.
Definition minus : N := 45.
Definition zero : N := 48.
Definition x : N := 120.
Definition X : N := 88.
End Ch.

(** ** Numbers

    Numbers are IEEE 754 binary64 values, [spec_float] with a 53 bit mantissa
    and exponents below 1024. *)

Definition prec : Z := 53.
Definition emax : Z := 1024.

Definition Number := spec_float.

Definition NaN : Number := S754_nan.
Definition of_Z (z : Z) : Number := binary_normalize prec emax z 0 false.
Definition fdiv : Number -> Number -> Number := SFdiv prec emax.
Definition fmul : Number -> Number -> Number := SFmul prec emax.

(** *** [parseInt(string)] without a radix

    The result is [PNaN] or [PInt z], [z] the integer the digits denote.  The
    script only tests such a result for truthiness and compares it with [1] and
    [10000]; rounding [z] to the nearest double changes neither, so [z] is kept
    exact here and rounded by [to_Number] where arithmetic is done on it. *)

Inductive jsint := PNaN | PInt (z : Z).

Definition to_Number (n : jsint) : Number :=
  match n with PNaN => NaN | PInt z => of_Z z end.

(** WhiteSpace and LineTerminator code units. *)
Definition isWhiteSpace (c : N) : bool :=
  ((9 <=? c) && (c <=? 13) || (c =? 32) || (c =? 160) || (c =? 5760)
   || ((8192 <=? c) && (c <=? 8202)) || (c =? 8232) || (c =? 8233)
   || (c =? 8239) || (c =? 8287) || (c =? 12288) || (c =? 65279))%N.

Fixpoint trimStart (s : jsstring) : jsstring :=
  match s with
  | c :: s' => if isWhiteSpace c then trimStart s' else s
  | [] => []
  end.

(** The value of a code unit as a digit in radix [R], if it is one. *)
Definition digitValue (R : Z) (c : N) : option Z :=
  let v :=
    if ((48 <=? c) && (c <=? 57))%N then Some (Z.of_N c - 48)
    else if ((97 <=? c) && (c <=? 122))%N then Some (Z.of_N c - 87)
    else if ((65 <=? c) && (c <=? 90))%N then Some (Z.of_N c - 55)
    else None in
  match v with
  | Some d => if d <? R then Some d else None
  | None => None
  end.

(** The longest prefix of radix-[R] digits, read most significant first;
    [None] when that prefix is empty. *)
Fixpoint digitsValue (R : Z) (acc : option Z) (s : jsstring) : option Z :=
  match s with
  | c :: s' =>
      match digitValue R c with
      | Some d => digitsValue R (Some (R * default 0 acc + d)) s'
      | None => acc
      end
  | [] => acc
  end.

(** Steps 3 and 4: the sign and the string after it. *)
Definition stripSign (s : jsstring) : bool * jsstring :=
  match s with
  | c :: s' =>
      if (c =? Ch.minus)%N then (true, s')
      else if (c =? Ch.plus)%N then (false, s')
      else (false, s)
  | [] => (false, s)
  end.

(** Step 6: a leading [0x] or [0X] selects radix 16, otherwise radix 10. *)
Definition stripPrefix (s : jsstring) : Z * jsstring :=
  match s with
  | c0 :: c1 :: s' =>
      if ((c0 =? Ch.zero) && ((c1 =? Ch.x) || (c1 =? Ch.X)))%N
      then (16, s') else (10, s)
  | _ => (10, s)
  end.

Definition parseDigits (s : jsstring) : jsint :=
  let '(negative, s1) := stripSign s in
  let '(R, s2) := stripPrefix s1 in
  match digitsValue R None s2 with
  | None => PNaN
  | Some m => PInt (if negative then - m else m)
  end.

Definition parseInt (input : jsstring) : jsint :=
  parseDigits (trimStart input).

(** [!n], [n < k] and [n > k] on a [parseInt] result; a comparison with
    [NaN] is false. *)
Definition falsy (n : jsint) : bool :=
  match n with PNaN => true | PInt z => z =? 0 end.

Definition below (n : jsint) (k : Z) : bool :=
  match n with PNaN => false | PInt z => z <? k end.

Definition above (n : jsint) (k : Z) : bool :=
  match n with PNaN => false | PInt z => z >? k end.

Definition isNaN (n : jsint) : bool :=
  match n with PNaN => true | PInt _ => false end.

(** *** Rendering numbers

    [decimal z] is the decimal numeral of an integer.  It is what
    [Number::toString] prints for an integral Number of magnitude at most
    [2^53]; above that JavaScript prints the shortest digits that identify the
    double, which this model leaves out. *)

Fixpoint decimal_digits (fuel : nat) (n : Z) (acc : jsstring) : jsstring :=
  match fuel with
  | O => acc
  | S fuel' =>
      let acc' := Z.to_N (48 + n mod 10) :: acc in
      if n <? 10 then acc' else decimal_digits fuel' (n / 10) acc'
  end.

Definition decimal (z : Z) : jsstring :=
  let n := Z.abs z in
  let ds := decimal_digits (S (Z.to_nat (Z.log2 n))) n [] in
  if z <? 0 then Ch.minus :: ds else ds.

(** The integers a Number holds exactly and prints digit for digit. *)
Definition safe_integer (z : Z) : Prop := Z.abs z <= 2 ^ 53.

(** [Number::toString], on the values the script renders: integral Numbers up
    to [2^53], zeros, infinities and NaN.  [None] elsewhere. *)
Definition Number_toString (x : Number) : option jsstring :=
  match x with
  | S754_nan => Some (js "NaN")
  | S754_infinity false => Some (js "Infinity")
  | S754_infinity true => Some (js "-Infinity")
  | S754_zero _ => Some (js "0")
  | S754_finite s m e =>
      if 0 <=? e then
        let z := Z.pos m * 2 ^ e in
        if z <=? 2 ^ 53 then Some (decimal (cond_Zopp s z)) else None
      else if Z.pos m mod 2 ^ (- e) =? 0 then
        Some (decimal (cond_Zopp s (Z.pos m / 2 ^ (- e))))
      else None
  end.

(** [Math.round]: the integral Number closest to [x], the one toward
    [+Infinity] on a tie, i.e. [floor (x + 1/2)] computed exactly; [-0] for
    [-0.5 <= x <= -0]. *)
Definition Math_round (x : Number) : Number :=
  match x with
  | S754_finite s m e =>
      if 0 <=? e then x
      else
        let n := (2 * cond_Zopp s (Z.pos m) + 2 ^ (- e)) / 2 ^ (1 - e) in
        if n =? 0 then S754_zero s else of_Z n
  | _ => x
  end.

(** [x.toFixed(1)]: the integer [n] with [n / 10] closest to [|x|] (the larger
    one on a tie), printed with one fractional digit.  [None] where JavaScript
    switches to [Number::toString] in exponent notation ([|x| >= 10^21]) and
    on [-0]. *)
Definition toFixed1 (x : Number) : option jsstring :=
  match x with
  | S754_nan => Some (js "NaN")
  | S754_infinity false => Some (js "Infinity")
  | S754_infinity true => Some (js "-Infinity")
  | S754_zero false => Some (js "0.0")
  | S754_zero true => None
  | S754_finite s m e =>
      if (0 <=? e) && (10 ^ 21 <=? Z.pos m * 2 ^ e) then None
      else
        let n :=
          if 0 <=? e then 10 * (Z.pos m * 2 ^ e)
          else (20 * Z.pos m + 2 ^ (- e)) / 2 ^ (1 - e) in
        let ds := decimal (n / 10) ++ [Ch.dot] ++ decimal (n mod 10) in
        Some (if s then Ch.minus :: ds else ds)
  end.

(** ** Data model *)

(** Object URLs handed out by [URL.createObjectURL], by serial number. *)
Definition url := nat.

(** What the browser decodes from a file: the orientation-fixed picture drawn
    by [fixOrientation], as a data URL with its natural size. *)
Module Image.
Record t := { dataUrl : jsstring; width : Z; height : Z }.
End Image.

(** A [File] of the submission.  [content] is the picture [FileReader] and
    [Image] produce from its bytes, [None] when either reports an error. *)
Module File.
Record t := {
  name : jsstring;
  type : jsstring;
  size : Z;
  content : option Image.t
}.
End File.

Module Blob.
Record t := { size : Z; type : jsstring }.
End Blob.

(** An entry of [state.files] (the [img] element it also keeps is never read
    again). *)
Module Item.
Record t := {
  file : File.t;
  originalUrl : jsstring;
  naturalWidth : Z;
  naturalHeight : Z;
  originalSize : Z;
  resizedBlob : option Blob.t;
  resizedUrl : option url
}.

Definition with_resized (b : option Blob.t) (u : option url) (i : t) : t :=
  {| file := file i; originalUrl := originalUrl i;
     naturalWidth := naturalWidth i; naturalHeight := naturalHeight i;
     originalSize := originalSize i; resizedBlob := b; resizedUrl := u |}.

Definition with_resizedBlob (b : option Blob.t) (i : t) : t :=
  with_resized b (resizedUrl i) i.

Definition with_resizedUrl (u : option url) (i : t) : t :=
  with_resized (resizedBlob i) u i.
End Item.

(** Values a rejected promise or a [throw] carries to a [catch]. *)
Inductive thrown :=
  | ImageErrorEvent                     (* img.onerror *)
  | ResizeError (message : jsstring)    (* picaInstance.resize / the 2d context *)
  | ToBlobError (message : jsstring)    (* picaInstance.toBlob *)
  | CanvasToBlobFailed                  (* new Error('Canvas toBlob failed') *)
  | TypeError.                          (* URL.createObjectURL(null), undefined.prop *)

(** The calls of [showToast], one constructor per call site. *)
Inductive Toast :=
  | UnsupportedFormat (name : jsstring)
  | FileTooLarge (name : jsstring)
  | FailedToLoad (name : jsstring)
  | ImagesLoaded (count : nat)
  | AllImagesCleared
  | ImageReset
  | InvalidDimensions
  | MaximumDimension
  | ResizedSuccessfully
  | ErrorResizing (err : thrown)
  | AllResized (completed : nat)
  | ErrorDuringBatch (err : thrown)
  | NoResizedImage
  | DownloadStarted
  | NoResizedImages
  | ImagesDownloaded (count : nat)
  | AspectRatio (locked : bool)
  | PresetApplied (name : jsstring) (w h : jsint).

Inductive UrlEvent := Created (u : url) | Revoked (u : url).

(** The text and colour of [#savedPercent]. *)
Inductive Colour := green | red.

(** The [state] object, the document fields the script reads back, and the
    effects it has on the page: toasts, downloads and object URLs.  Of the
    document only the two dimension inputs and the savings text are kept;
    [zoomLevel], [isComparing], [isDraggingSlider], the preview, the file list
    and the progress overlay belong to the presentation. *)
Record World := {
  files : list Item.t;
  activeIndex : nat;
  aspectLocked : bool;
  aspectRatio : Number;
  originalWidth : Z;
  originalHeight : Z;
  outputFormat : jsstring;
  outputExt : jsstring;
  quality : Number;
  widthInput : jsstring;
  heightInput : jsstring;
  savedPercent : option jsstring;
  savedPercentColour : option Colour;
  toasts : list Toast;
  downloads : list (option url * jsstring);
  liveUrls : gset url;
  nextUrl : url;
  urlEvents : list UrlEvent
}.

Definition initial : World := {|
  files := []; activeIndex := 0%nat; aspectLocked := true;
  aspectRatio := of_Z 1; originalWidth := 0; originalHeight := 0;
  outputFormat := js "image/jpeg"; outputExt := js "jpg";
  quality := fdiv (of_Z 9) (of_Z 10);
  widthInput := []; heightInput := [];
  savedPercent := None; savedPercentColour := None;
  toasts := []; downloads := [];
  liveUrls := ∅; nextUrl := 0%nat; urlEvents := []
|}.

(** Assignments to one field. *)
Definition set_files (v : list Item.t) (w : World) : World :=
  {| files := v; activeIndex := activeIndex w;
     aspectLocked := aspectLocked w; aspectRatio := aspectRatio w;
     originalWidth := originalWidth w; originalHeight := originalHeight w;
     outputFormat := outputFormat w; outputExt := outputExt w;
     quality := quality w; widthInput := widthInput w;
     heightInput := heightInput w; savedPercent := savedPercent w;
     savedPercentColour := savedPercentColour w; toasts := toasts w;
     downloads := downloads w; liveUrls := liveUrls w; nextUrl := nextUrl w;
     urlEvents := urlEvents w |}.
Definition set_activeIndex (v : nat) (w : World) : World :=
  {| files := files w; activeIndex := v; aspectLocked := aspectLocked w;
     aspectRatio := aspectRatio w; originalWidth := originalWidth w;
     originalHeight := originalHeight w; outputFormat := outputFormat w;
     outputExt := outputExt w; quality := quality w;
     widthInput := widthInput w; heightInput := heightInput w;
     savedPercent := savedPercent w;
     savedPercentColour := savedPercentColour w; toasts := toasts w;
     downloads := downloads w; liveUrls := liveUrls w; nextUrl := nextUrl w;
     urlEvents := urlEvents w |}.
Definition set_aspectLocked (v : bool) (w : World) : World :=
  {| files := files w; activeIndex := activeIndex w; aspectLocked := v;
     aspectRatio := aspectRatio w; originalWidth := originalWidth w;
     originalHeight := originalHeight w; outputFormat := outputFormat w;
     outputExt := outputExt w; quality := quality w;
     widthInput := widthInput w; heightInput := heightInput w;
     savedPercent := savedPercent w;
     savedPercentColour := savedPercentColour w; toasts := toasts w;
     downloads := downloads w; liveUrls := liveUrls w; nextUrl := nextUrl w;
     urlEvents := urlEvents w |}.
Definition set_aspectRatio (v : Number) (w : World) : World :=
  {| files := files w; activeIndex := activeIndex w;
     aspectLocked := aspectLocked w; aspectRatio := v;
     originalWidth := originalWidth w; originalHeight := originalHeight w;
     outputFormat := outputFormat w; outputExt := outputExt w;
     quality := quality w; widthInput := widthInput w;
     heightInput := heightInput w; savedPercent := savedPercent w;
     savedPercentColour := savedPercentColour w; toasts := toasts w;
     downloads := downloads w; liveUrls := liveUrls w; nextUrl := nextUrl w;
     urlEvents := urlEvents w |}.
Definition set_originalWidth (v : Z) (w : World) : World :=
  {| files := files w; activeIndex := activeIndex w;
     aspectLocked := aspectLocked w; aspectRatio := aspectRatio w;
     originalWidth := v; originalHeight := originalHeight w;
     outputFormat := outputFormat w; outputExt := outputExt w;
     quality := quality w; widthInput := widthInput w;
     heightInput := heightInput w; savedPercent := savedPercent w;
     savedPercentColour := savedPercentColour w; toasts := toasts w;
     downloads := downloads w; liveUrls := liveUrls w; nextUrl := nextUrl w;
     urlEvents := urlEvents w |}.
Definition set_originalHeight (v : Z) (w : World) : World :=
  {| files := files w; activeIndex := activeIndex w;
     aspectLocked := aspectLocked w; aspectRatio := aspectRatio w;
     originalWidth := originalWidth w; originalHeight := v;
     outputFormat := outputFormat w; outputExt := outputExt w;
     quality := quality w; widthInput := widthInput w;
     heightInput := heightInput w; savedPercent := savedPercent w;
     savedPercentColour := savedPercentColour w; toasts := toasts w;
     downloads := downloads w; liveUrls := liveUrls w; nextUrl := nextUrl w;
     urlEvents := urlEvents w |}.
Definition set_outputFormat (v : jsstring) (w : World) : World :=
  {| files := files w; activeIndex := activeIndex w;
     aspectLocked := aspectLocked w; aspectRatio := aspectRatio w;
     originalWidth := originalWidth w; originalHeight := originalHeight w;
     outputFormat := v; outputExt := outputExt w; quality := quality w;
     widthInput := widthInput w; heightInput := heightInput w;
     savedPercent := savedPercent w;
     savedPercentColour := savedPercentColour w; toasts := toasts w;
     downloads := downloads w; liveUrls := liveUrls w; nextUrl := nextUrl w;
     urlEvents := urlEvents w |}.
Definition set_outputExt (v : jsstring) (w : World) : World :=
  {| files := files w; activeIndex := activeIndex w;
     aspectLocked := aspectLocked w; aspectRatio := aspectRatio w;
     originalWidth := originalWidth w; originalHeight := originalHeight w;
     outputFormat := outputFormat w; outputExt := v; quality := quality w;
     widthInput := widthInput w; heightInput := heightInput w;
     savedPercent := savedPercent w;
     savedPercentColour := savedPercentColour w; toasts := toasts w;
     downloads := downloads w; liveUrls := liveUrls w; nextUrl := nextUrl w;
     urlEvents := urlEvents w |}.
Definition set_quality (v : Number) (w : World) : World :=
  {| files := files w; activeIndex := activeIndex w;
     aspectLocked := aspectLocked w; aspectRatio := aspectRatio w;
     originalWidth := originalWidth w; originalHeight := originalHeight w;
     outputFormat := outputFormat w; outputExt := outputExt w; quality := v;
     widthInput := widthInput w; heightInput := heightInput w;
     savedPercent := savedPercent w;
     savedPercentColour := savedPercentColour w; toasts := toasts w;
     downloads := downloads w; liveUrls := liveUrls w; nextUrl := nextUrl w;
     urlEvents := urlEvents w |}.
Definition set_widthInput (v : jsstring) (w : World) : World :=
  {| files := files w; activeIndex := activeIndex w;
     aspectLocked := aspectLocked w; aspectRatio := aspectRatio w;
     originalWidth := originalWidth w; originalHeight := originalHeight w;
     outputFormat := outputFormat w; outputExt := outputExt w;
     quality := quality w; widthInput := v; heightInput := heightInput w;
     savedPercent := savedPercent w;
     savedPercentColour := savedPercentColour w; toasts := toasts w;
     downloads := downloads w; liveUrls := liveUrls w; nextUrl := nextUrl w;
     urlEvents := urlEvents w |}.
Definition set_heightInput (v : jsstring) (w : World) : World :=
  {| files := files w; activeIndex := activeIndex w;
     aspectLocked := aspectLocked w; aspectRatio := aspectRatio w;
     originalWidth := originalWidth w; originalHeight := originalHeight w;
     outputFormat := outputFormat w; outputExt := outputExt w;
     quality := quality w; widthInput := widthInput w; heightInput := v;
     savedPercent := savedPercent w;
     savedPercentColour := savedPercentColour w; toasts := toasts w;
     downloads := downloads w; liveUrls := liveUrls w; nextUrl := nextUrl w;
     urlEvents := urlEvents w |}.
Definition set_savedPercent (v : option jsstring) (w : World) : World :=
  {| files := files w; activeIndex := activeIndex w;
     aspectLocked := aspectLocked w; aspectRatio := aspectRatio w;
     originalWidth := originalWidth w; originalHeight := originalHeight w;
     outputFormat := outputFormat w; outputExt := outputExt w;
     quality := quality w; widthInput := widthInput w;
     heightInput := heightInput w; savedPercent := v;
     savedPercentColour := savedPercentColour w; toasts := toasts w;
     downloads := downloads w; liveUrls := liveUrls w; nextUrl := nextUrl w;
     urlEvents := urlEvents w |}.
Definition set_savedPercentColour (v : option Colour) (w : World) : World :=
  {| files := files w; activeIndex := activeIndex w;
     aspectLocked := aspectLocked w; aspectRatio := aspectRatio w;
     originalWidth := originalWidth w; originalHeight := originalHeight w;
     outputFormat := outputFormat w; outputExt := outputExt w;
     quality := quality w; widthInput := widthInput w;
     heightInput := heightInput w; savedPercent := savedPercent w;
     savedPercentColour := v; toasts := toasts w; downloads := downloads w;
     liveUrls := liveUrls w; nextUrl := nextUrl w;
     urlEvents := urlEvents w |}.
Definition set_toasts (v : list Toast) (w : World) : World :=
  {| files := files w; activeIndex := activeIndex w;
     aspectLocked := aspectLocked w; aspectRatio := aspectRatio w;
     originalWidth := originalWidth w; originalHeight := originalHeight w;
     outputFormat := outputFormat w; outputExt := outputExt w;
     quality := quality w; widthInput := widthInput w;
     heightInput := heightInput w; savedPercent := savedPercent w;
     savedPercentColour := savedPercentColour w; toasts := v;
     downloads := downloads w; liveUrls := liveUrls w; nextUrl := nextUrl w;
     urlEvents := urlEvents w |}.
Definition set_downloads (v : list (option url * jsstring)) (w : World) : World :=
  {| files := files w; activeIndex := activeIndex w;
     aspectLocked := aspectLocked w; aspectRatio := aspectRatio w;
     originalWidth := originalWidth w; originalHeight := originalHeight w;
     outputFormat := outputFormat w; outputExt := outputExt w;
     quality := quality w; widthInput := widthInput w;
     heightInput := heightInput w; savedPercent := savedPercent w;
     savedPercentColour := savedPercentColour w; toasts := toasts w;
     downloads := v; liveUrls := liveUrls w; nextUrl := nextUrl w;
     urlEvents := urlEvents w |}.
Definition set_liveUrls (v : gset url) (w : World) : World :=
  {| files := files w; activeIndex := activeIndex w;
     aspectLocked := aspectLocked w; aspectRatio := aspectRatio w;
     originalWidth := originalWidth w; originalHeight := originalHeight w;
     outputFormat := outputFormat w; outputExt := outputExt w;
     quality := quality w; widthInput := widthInput w;
     heightInput := heightInput w; savedPercent := savedPercent w;
     savedPercentColour := savedPercentColour w; toasts := toasts w;
     downloads := downloads w; liveUrls := v; nextUrl := nextUrl w;
     urlEvents := urlEvents w |}.
Definition set_nextUrl (v : url) (w : World) : World :=
  {| files := files w; activeIndex := activeIndex w;
     aspectLocked := aspectLocked w; aspectRatio := aspectRatio w;
     originalWidth := originalWidth w; originalHeight := originalHeight w;
     outputFormat := outputFormat w; outputExt := outputExt w;
     quality := quality w; widthInput := widthInput w;
     heightInput := heightInput w; savedPercent := savedPercent w;
     savedPercentColour := savedPercentColour w; toasts := toasts w;
     downloads := downloads w; liveUrls := liveUrls w; nextUrl := v;
     urlEvents := urlEvents w |}.
Definition set_urlEvents (v : list UrlEvent) (w : World) : World :=
  {| files := files w; activeIndex := activeIndex w;
     aspectLocked := aspectLocked w; aspectRatio := aspectRatio w;
     originalWidth := originalWidth w; originalHeight := originalHeight w;
     outputFormat := outputFormat w; outputExt := outputExt w;
     quality := quality w; widthInput := widthInput w;
     heightInput := heightInput w; savedPercent := savedPercent w;
     savedPercentColour := savedPercentColour w; toasts := toasts w;
     downloads := downloads w; liveUrls := liveUrls w; nextUrl := nextUrl w;
     urlEvents := v |}.

Definition showToast (t : Toast) (w : World) : World :=
  set_toasts (toasts w ++ [t]) w.

(** [URL.revokeObjectURL] and [URL.createObjectURL]. *)
Definition revokeObjectURL (u : url) (w : World) : World :=
  set_urlEvents (urlEvents w ++ [Revoked u]) (set_liveUrls (liveUrls w ∖ {[u]}) w).

Definition createObjectURL (w : World) : url * World :=
  let u := nextUrl w in
  (u, set_urlEvents (urlEvents w ++ [Created u])
        (set_nextUrl (S u) (set_liveUrls ({[u]} ∪ liveUrls w) w))).

(** [if (item.resizedUrl) URL.revokeObjectURL(item.resizedUrl)] *)
Definition revokeResized (item : Item.t) (w : World) : World :=
  match Item.resizedUrl item with
  | Some u => revokeObjectURL u w
  | None => w
  end.

(** ** Control flow

    A statement completes normally or throws; an awaited promise is settled by
    the library or the browser. *)

Inductive completion (A : Type) :=
  | Normal (a : A)
  | Throw (e : thrown).
Arguments Normal {A} a.
Arguments Throw {A} e.

Inductive settled (A : Type) :=
  | Resolved (a : A)
  | Rejected (message : jsstring).
Arguments Resolved {A} a.
Arguments Rejected {A} message.

(** What the browser and Pica do during one run of [resizeImage]:
    - [decode]: loading [item.originalUrl] into an [Image] and drawing it on
      the source canvas (lines 667-679);
    - [resample]: [picaInstance.resize], or the 2d-context fallback,
      given the target size (lines 682-701);
    - [picaToBlob]: the promise of [picaInstance.toBlob], whose value is a
      blob or [null];
    - [nativeToBlob]: the argument [canvas.toBlob] passes to its callback. *)
Record Attempt := {
  decode : option thrown;
  resample : jsint -> jsint -> option thrown;
  picaToBlob : jsint -> jsint -> jsstring -> Number -> settled (option Blob.t);
  nativeToBlob : jsint -> jsint -> jsstring -> Number -> option Blob.t
}.

(** ** File upload *)

Definition validTypes : list jsstring :=
  [js "image/jpeg"; js "image/png"; js "image/webp";
   js "image/gif"; js "image/bmp"; js "image/tiff"].

Definition maxSize : Z := 50 * 1024 * 1024.

(** [validTypes.includes(file.type)] *)
Definition includes (l : list jsstring) (s : jsstring) : bool :=
  bool_decide (s ∈ l).

(** The first loop of [handleFiles]: the files kept in [newFiles]. *)
Fixpoint validateFiles (fileList : list File.t) (w : World)
  : list File.t * World :=
  match fileList with
  | [] => ([], w)
  | file :: rest =>
      if negb (includes validTypes (File.type file)) then
        validateFiles rest (showToast (UnsupportedFormat (File.name file)) w)
      else if File.size file >? maxSize then
        validateFiles rest (showToast (FileTooLarge (File.name file)) w)
      else
        let '(newFiles, w') := validateFiles rest w in
        (file :: newFiles, w')
  end.

(** [loadImage(file)]: the promise resolves with the new item or rejects with
    the error event of the reader or the image. *)
Definition loadImage (file : File.t) : completion Item.t :=
  match File.content file with
  | Some img =>
      Normal {| Item.file := file;
                Item.originalUrl := Image.dataUrl img;
                Item.naturalWidth := Image.width img;
                Item.naturalHeight := Image.height img;
                Item.originalSize := File.size file;
                Item.resizedBlob := None;
                Item.resizedUrl := None |}
  | None => Throw ImageErrorEvent
  end.

(** The second loop of [handleFiles]. *)
Fixpoint loadFiles (newFiles : list File.t) (w : World) : World :=
  match newFiles with
  | [] => w
  | file :: rest =>
      match loadImage file with
      | Normal result => loadFiles rest (set_files (files w ++ [result]) w)
      | Throw _ => loadFiles rest (showToast (FailedToLoad (File.name file)) w)
      end
  end.

(** ** Statistics *)

(** [(part / whole) * 100] *)
Definition percentOf (part whole : Z) : Number :=
  fmul (fdiv (of_Z part) (of_Z whole)) (of_Z 100).

(** [const savedBytes = origSize - resizedSize]; byte sizes are integers
    below [2^53] and their difference is exact. *)
Definition savedBytes (origSize resizedSize : Z) : Z := origSize - resizedSize.

(** [showResults(item)]; the two [formatBytes] texts are not kept. *)
Definition showResults (item : Item.t) (w : World) : completion World :=
  match Item.resizedBlob item with
  | None => Throw TypeError
  | Some blob =>
      let origSize := Item.originalSize item in
      let resizedSize := Blob.size blob in
      let savedBytes := savedBytes origSize resizedSize in
      let savedPct := toFixed1 (percentOf savedBytes origSize) in
      if savedBytes >? 0 then
        Normal (set_savedPercentColour (Some green)
                 (set_savedPercent ((λ p, p ++ js "% smaller") <$> savedPct) w))
      else
        let increase := toFixed1 (percentOf (resizedSize - origSize) origSize) in
        Normal (set_savedPercentColour (Some red)
                 (set_savedPercent ((λ p, p ++ js "% larger") <$> increase) w))
  end.

(** ** Selecting, removing and clearing *)

(** [selectFile(index)].  Natural sizes are unsigned 32-bit integers, which
    [decimal] prints as JavaScript does; the scale text and the preview are
    not kept. *)
Definition selectFile (index : Z) (w : World) : World :=
  if (index <? 0) || (index >=? Z.of_nat (length (files w))) then w
  else
    match files w !! Z.to_nat index with
    | None => w
    | Some item =>
        let w1 := set_activeIndex (Z.to_nat index) w in
        let w2 := set_originalWidth (Item.naturalWidth item) w1 in
        let w3 := set_originalHeight (Item.naturalHeight item) w2 in
        let w4 := set_aspectRatio
                    (fdiv (of_Z (Item.naturalWidth item))
                          (of_Z (Item.naturalHeight item))) w3 in
        let w5 := set_widthInput (decimal (Item.naturalWidth item)) w4 in
        let w6 := set_heightInput (decimal (Item.naturalHeight item)) w5 in
        match Item.resizedBlob item with
        | Some _ =>
            match showResults item w6 with
            | Normal w7 => w7
            | Throw _ => w6
            end
        | None => w6
        end
    end.

(** [clearAll()] *)
Definition clearAll (w : World) : World :=
  let w1 := foldl (λ acc item, revokeResized item acc) w (files w) in
  let w2 := set_activeIndex 0%nat (set_files [] w1) in
  showToast AllImagesCleared (set_heightInput [] (set_widthInput [] w2)).

(** [removeFile(index)]; reading [item.resizedUrl] of a missing item throws. *)
Definition removeFile (index : nat) (w : World) : completion World :=
  match files w !! index with
  | None => Throw TypeError
  | Some item =>
      let w1 := revokeResized item w in
      let w2 := set_files (delete index (files w1)) w1 in
      if bool_decide (length (files w2) = 0%nat) then Normal (clearAll w2)
      else
        let w3 :=
          if bool_decide (length (files w2) ≤ activeIndex w2)%nat
          then set_activeIndex (length (files w2) - 1)%nat w2 else w2 in
        Normal (selectFile (Z.of_nat (activeIndex w3)) w3)
  end.

(** [handleFiles(fileList)] *)
Definition handleFiles (fileList : list File.t) (w : World) : World :=
  let '(newFiles, w1) := validateFiles fileList w in
  if bool_decide (length newFiles = 0%nat) then w1
  else
    let w2 := loadFiles newFiles w1 in
    if bool_decide (length (files w2) = 0%nat) then w2
    else
      let w3 := selectFile (Z.of_nat (length (files w2))
                            - Z.of_nat (length newFiles)) w2 in
      showToast (ImagesLoaded (length newFiles)) w3.

(** ** Controls

    An [input] event on a dimension field: the field already holds the text
    [value] the user typed.  The listener writes the other field only, and
    assigning a field from the script raises no [input] event.  The result is
    [None] when the Number written has no rendering in this model. *)

Definition widthInput_oninput (value : jsstring) (w : World) : option World :=
  let w := set_widthInput value w in
  if aspectLocked w && negb (bool_decide (widthInput w = [])) then
    let n := parseInt (widthInput w) in
    if negb (isNaN n) then
      h ← Number_toString (Math_round (fdiv (to_Number n) (aspectRatio w)));
      Some (set_heightInput h w)
    else Some w
  else Some w.

Definition heightInput_oninput (value : jsstring) (w : World) : option World :=
  let w := set_heightInput value w in
  if aspectLocked w && negb (bool_decide (heightInput w = [])) then
    let n := parseInt (heightInput w) in
    if negb (isNaN n) then
      v ← Number_toString (Math_round (fmul (to_Number n) (aspectRatio w)));
      Some (set_widthInput v w)
    else Some w
  else Some w.

(** The lock button: the flag is negated and the toast names its new
    value. *)
Definition lockAspect_onclick (w : World) : World :=
  let w1 := set_aspectLocked (negb (aspectLocked w)) w in
  showToast (AspectRatio (aspectLocked w1)) w1.

(** The reset button. *)
Definition resetBtn_onclick (w : World) : World :=
  match files w !! activeIndex w with
  | None => w
  | Some item =>
      let w1 := revokeResized item w in
      let w2 := set_files
                  (<[activeIndex w1 := Item.with_resized None None item]> (files w1))
                  w1 in
      showToast ImageReset (selectFile (Z.of_nat (activeIndex w2)) w2)
  end.

(** A format button carries its [data-format] and [data-ext]. *)
Definition formatBtn_onclick (format ext : jsstring) (w : World) : World :=
  set_outputExt ext (set_outputFormat format w).

(** ** Resizing *)

Section Resize.

(** [picaInstance] is the Pica object, or [null] when the library did not
    load. *)
Variable picaInstance : bool.

Definition canvasToBlob (a : Attempt) (width height : jsint)
    (format : jsstring) (quality : Number) : completion (option Blob.t) :=
  if picaInstance && negb (bool_decide (format = js "image/png")) then
    match picaToBlob a width height format quality with
    | Resolved blob => Normal blob
    | Rejected message => Throw (ToBlobError message)
    end
  else
    match nativeToBlob a width height format quality with
    | Some blob => Normal (Some blob)
    | None => Throw CanvasToBlobFailed
    end.

(** [resizeImage(item, targetW, targetH)], [item] being [state.files[i]].
    Everything before line 707 works on canvases local to the call. *)
Definition resizeImage (a : Attempt) (i : nat) (targetW targetH : jsint)
    (w : World) : World * option thrown :=
  match files w !! i with
  | None => (w, Some TypeError)
  | Some item =>
      match decode a with
      | Some e => (w, Some e)
      | None =>
          match resample a targetW targetH with
          | Some e => (w, Some e)
          | None =>
              match canvasToBlob a targetW targetH (outputFormat w) (quality w) with
              | Throw e => (w, Some e)
              | Normal blob =>
                  let w1 := revokeResized item w in
                  let item1 := Item.with_resizedBlob blob item in
                  let w2 := set_files (<[i := item1]> (files w1)) w1 in
                  match blob with
                  | None => (w2, Some TypeError)
                  | Some _ =>
                      let '(u, w3) := createObjectURL w2 in
                      let item2 := Item.with_resizedUrl (Some u) item1 in
                      (set_files (<[i := item2]> (files w3)) w3, None)
                  end
              end
          end
      end
  end.

(** The test both [resizeCurrent] and [resizeAll] start with. *)
Definition invalidDimensions (targetW targetH : jsint) : bool :=
  falsy targetW || falsy targetH || below targetW 1 || below targetH 1.

Definition resizeCurrent (a : Attempt) (w : World) : World :=
  match files w !! activeIndex w with
  | None => w
  | Some _ =>
      let targetW := parseInt (widthInput w) in
      let targetH := parseInt (heightInput w) in
      if invalidDimensions targetW targetH then
        showToast InvalidDimensions w
      else if above targetW 10000 || above targetH 10000 then
        showToast MaximumDimension w
      else
        match resizeImage a (activeIndex w) targetW targetH w with
        | (w1, None) =>
            match files w1 !! activeIndex w with
            | None => showToast (ErrorResizing TypeError) w1
            | Some item =>
                match showResults item w1 with
                | Normal w2 => showToast ResizedSuccessfully w2
                | Throw e => showToast (ErrorResizing e) w1
                end
            end
        | (w1, Some err) => showToast (ErrorResizing err) w1
        end
  end.

(** The [for] loop of [resizeAll], from index [i] with [completed]
    resizes done; [attempts i] is what happens on item [i].  The result
    carries the thrown value when the loop is left by an exception. *)
Fixpoint resizeAll_loop (attempts : nat -> Attempt) (targetW targetH : jsint)
    (fuel i completed : nat) (w : World) : World * nat * option thrown :=
  match fuel with
  | O => (w, completed, None)
  | S fuel' =>
      if bool_decide (i < length (files w))%nat then
        match resizeImage (attempts i) i targetW targetH w with
        | (w1, None) =>
            resizeAll_loop attempts targetW targetH fuel' (S i) (S completed) w1
        | (w1, Some err) => (w1, completed, Some err)
        end
      else (w, completed, None)
  end.

Definition resizeAll (attempts : nat -> Attempt) (w : World) : World :=
  let targetW := parseInt (widthInput w) in
  let targetH := parseInt (heightInput w) in
  if invalidDimensions targetW targetH then
    showToast InvalidDimensions w
  else
    match resizeAll_loop attempts targetW targetH (length (files w)) 0 0 w with
    | (w1, completed, None) =>
        showToast (AllResized completed)
          (selectFile (Z.of_nat (activeIndex w1)) w1)
    | (w1, _, Some err) => showToast (ErrorDuringBatch err) w1
    end.

End Resize.

(** ** Download *)

(** [name.replace(/\.[^.]+$/, '')]: the match is tried at each position from
    the left; it needs a dot followed by one or more code units other than a
    dot, up to the end of the string. *)
Definition matchesExtension (s : jsstring) : bool :=
  match s with
  | c :: rest =>
      (c =? Ch.dot)%N
      && negb (bool_decide (rest = []))
      && forallb (λ d, negb (d =? Ch.dot)%N) rest
  | [] => false
  end.

Fixpoint removeExtension (s : jsstring) : jsstring :=
  if matchesExtension s then []
  else
    match s with
    | c :: rest => c :: removeExtension rest
    | [] => []
    end.

(** A [parseInt] result inside a template literal. *)
Definition jsint_toString (n : jsint) : option jsstring :=
  match n with
  | PNaN => Some (js "NaN")
  | PInt z => if Z.abs z <=? 2 ^ 53 then Some (decimal z) else None
  end.

(** [`${baseName}_${w}x${h}.${state.outputExt}`] *)
Definition downloadName (item : Item.t) (w : World) : option jsstring :=
  let baseName := removeExtension (File.name (Item.file item)) in
  tw ← jsint_toString (parseInt (widthInput w));
  th ← jsint_toString (parseInt (heightInput w));
  Some (baseName ++ js "_" ++ tw ++ js "x" ++ th ++ js "." ++ outputExt w).

Definition triggerDownload (href : option url) (filename : jsstring)
    (w : World) : World :=
  set_downloads (downloads w ++ [(href, filename)]) w.

(** [downloadCurrent] and [downloadAll]; [None] when a file name has no
    rendering in this model. *)
Definition downloadCurrent (w : World) : option World :=
  match files w !! activeIndex w with
  | Some item =>
      match Item.resizedBlob item with
      | Some _ =>
          filename ← downloadName item w;
          Some (showToast DownloadStarted
                  (triggerDownload (Item.resizedUrl item) filename w))
      | None => Some (showToast NoResizedImage w)
      end
  | None => Some (showToast NoResizedImage w)
  end.

Fixpoint downloadAll_loop (resizedFiles : list Item.t) (w : World)
  : option World :=
  match resizedFiles with
  | [] => Some w
  | item :: rest =>
      filename ← downloadName item w;
      downloadAll_loop rest (triggerDownload (Item.resizedUrl item) filename w)
  end.

Definition downloadAll (w : World) : option World :=
  let resizedFiles :=
    filter (λ f, is_Some (Item.resizedBlob f)) (files w) in
  if bool_decide (length resizedFiles = 0%nat) then
    Some (showToast NoResizedImages w)
  else
    w1 ← downloadAll_loop resizedFiles w;
    Some (showToast (ImagesDownloaded (length resizedFiles)) w1).

(** ** Further handlers of the script *)

(** [updateScalePercent()]: the Number whose rendering, followed by a percent
    sign, is written to [#scalePercent]; [None] when the guard leaves the text
    as it is. *)
Definition updateScalePercent (w : World) : option Number :=
  let n := parseInt (widthInput w) in
  if negb (isNaN n) && (originalWidth w >? 0) then
    Some (Math_round
            (fmul (fdiv (to_Number n) (of_Z (originalWidth w))) (of_Z 100)))
  else None.

Definition scaleText (w : World) : option jsstring :=
  p ← updateScalePercent w;
  t ← Number_toString p;
  Some (t ++ js "%").

(** A click on a preset button carrying [data-name], [data-w] and [data-h]
    (lines 517-543).  A field keeps the text of the Number assigned to it.
    [None] when a Number written into a field has no rendering in this
    model. *)
Definition presetBtn_onclick (name dataW dataH : jsstring) (w : World)
  : option World :=
  let pw := parseInt dataW in
  let ph := parseInt dataH in
  if bool_decide (name = js "Custom") then Some w
  else
    let wasLocked := aspectLocked w in
    let w1 := set_aspectLocked false w in
    tw ← jsint_toString pw;
    th ← jsint_toString ph;
    let w2 := set_heightInput th (set_widthInput tw w1) in
    let w3 := set_aspectLocked wasLocked w2 in
    Some (showToast (PresetApplied name pw ph) w3).

(** An [input] event on the quality slider holding [value]. *)
Definition qualitySlider_oninput (value : jsstring) (w : World) : World :=
  let val := parseInt value in
  set_quality (fdiv (to_Number val) (of_Z 100)) w.

(** [x <= y] on Numbers. *)
Definition fle : Number -> Number -> bool := SFleb.

(** ** Vocabulary of the properties *)

(** *** Fields and sample data *)

Definition withFields (sw sh : jsstring) (w : World) : World :=
  set_widthInput sw (set_heightInput sh w).

(** The world with both dimension fields blanked. *)
Definition forgetFields (w : World) : World := withFields [] [] w.

(** Sample data: pictures of 100 x 127 pixels and a platform on which every
    stage works and every encoding yields 600 bytes. *)
Module Sample.
Definition picture : Image.t :=
  {| Image.dataUrl := js "data:image/png;base64,AAAA";
     Image.width := 100; Image.height := 127 |}.

Definition file (name type : string) (size : Z) (content : option Image.t)
  : File.t :=
  {| File.name := js name; File.type := js type;
     File.size := size; File.content := content |}.

Definition encoded (format : jsstring) : Blob.t :=
  {| Blob.size := 600; Blob.type := format |}.

Definition works : Attempt :=
  {| decode := None;
     resample := λ _ _, None;
     picaToBlob := λ _ _ format _, Resolved (Some (encoded format));
     nativeToBlob := λ _ _ format _, Some (encoded format) |}.

Definition undecodable : Attempt :=
  {| decode := Some ImageErrorEvent;
     resample := λ _ _, None;
     picaToBlob := λ _ _ format _, Resolved (Some (encoded format));
     nativeToBlob := λ _ _ format _, Some (encoded format) |}.

(** Pica's encoder resolves with [null]; the native one works. *)
Definition blobless : Attempt :=
  {| decode := None;
     resample := λ _ _, None;
     picaToBlob := λ _ _ _ _, Resolved None;
     nativeToBlob := λ _ _ format _, Some (encoded format) |}.

Definition one : World :=
  handleFiles [file "holiday.png" "image/png" 1000 (Some picture)] initial.

Definition three : World :=
  handleFiles [file "a.png" "image/png" 1000 (Some picture);
               file "b.jpg" "image/jpeg" 1000 (Some picture);
               file "c.webp" "image/webp" 1000 (Some picture)] initial.

(** Item [k] fails to decode, every other item works. *)
Definition allBut (k : nat) : nat -> Attempt :=
  λ i, if bool_decide (i = k) then undecodable else works.
Definition holiday : Item.t :=
  {| Item.file := file "holiday.png" "image/png" 1000 (Some picture);
     Item.originalUrl := Image.dataUrl picture;
     Item.naturalWidth := 100; Item.naturalHeight := 127;
     Item.originalSize := 1000;
     Item.resizedBlob := None; Item.resizedUrl := None |}.

Definition sized (o r : Z) : Item.t :=
  Item.with_resizedBlob (Some {| Blob.size := r; Blob.type := js "image/jpeg" |})
    (Item.with_resized None None
       {| Item.file := file "holiday.png" "image/png" o (Some picture);
          Item.originalUrl := Image.dataUrl picture;
          Item.naturalWidth := 100; Item.naturalHeight := 127;
          Item.originalSize := o;
          Item.resizedBlob := None; Item.resizedUrl := None |}).

Definition threeAt50x64 : World := withFields (js "50") (js "64") three.

(** The single picture with the lock released and 50 and 64 typed into the
    fields, and the same after [resizeCurrent]. *)
Definition typed50x64 : World :=
  withFields (js "50") (js "64") (lockAspect_onclick one).

Definition resizedAt50x64 : World := resizeCurrent true works typed50x64.
End Sample.

(** *** Outcomes of a run of the pipeline *)

(** The encoder yields no blob: decoding and resampling work and the promise
    of [canvasToBlob] resolves with [null].  Only Pica's [toBlob] can do so;
    the native branch rejects instead (line 732). *)
Definition yieldsNoBlob (pica : bool) (a : Attempt) (tw th : jsint)
    (format : jsstring) (q : Number) : Prop :=
  decode a = None ∧ resample a tw th = None
  ∧ canvasToBlob pica a tw th format q = Normal None.

(** The run fails at a stage: the image does not decode, the resampler
    throws, the encoder rejects, or the encoder yields no blob, which
    [URL.createObjectURL] answers with a [TypeError]. *)
Inductive stageFailure (pica : bool) (a : Attempt) (tw th : jsint)
    (format : jsstring) (q : Number) : thrown -> Prop :=
  | decode_fails e :
      decode a = Some e → stageFailure pica a tw th format q e
  | resample_fails e :
      decode a = None → resample a tw th = Some e →
      stageFailure pica a tw th format q e
  | encode_fails e :
      decode a = None → resample a tw th = None →
      canvasToBlob pica a tw th format q = Throw e →
      stageFailure pica a tw th format q e
  | encode_yields_nothing :
      yieldsNoBlob pica a tw th format q →
      stageFailure pica a tw th format q TypeError.

(** Every stage works and the encoder yields [blob]. *)
Definition succeeds (pica : bool) (a : Attempt) (tw th : jsint)
    (format : jsstring) (q : Number) (blob : Blob.t) : Prop :=
  decode a = None ∧ resample a tw th = None
  ∧ canvasToBlob pica a tw th format q = Normal (Some blob).

(** The revocation [resizeImage] starts the installation with. *)
Definition released (item : Item.t) : list UrlEvent :=
  match Item.resizedUrl item with
  | Some u => [Revoked u]
  | None => []
  end.

Definition withoutResized (item : Item.t) (live : gset url) : gset url :=
  match Item.resizedUrl item with
  | Some u => live ∖ {[u]}
  | None => live
  end.

(** The parts of the world [resizeImage] never writes. *)
Definition sameSettings (w w' : World) : Prop :=
  activeIndex w' = activeIndex w ∧ outputFormat w' = outputFormat w
  ∧ outputExt w' = outputExt w ∧ quality w' = quality w
  ∧ widthInput w' = widthInput w ∧ heightInput w' = heightInput w
  ∧ toasts w' = toasts w ∧ downloads w' = downloads w
  ∧ aspectLocked w' = aspectLocked w ∧ aspectRatio w' = aspectRatio w.

(** *** Ownership of object URLs *)

(** Every live object URL is the [resizedUrl] of an item, no two items share
    one, and none is ahead of the serial numbers handed out so far. *)
Definition urlsOwned (w : World) : Prop :=
  (∀ u, u ∈ liveUrls w →
        ∃ i item, files w !! i = Some item ∧ Item.resizedUrl item = Some u)
  ∧ (∀ i j item item' u,
        files w !! i = Some item → files w !! j = Some item' →
        Item.resizedUrl item = Some u → Item.resizedUrl item' = Some u →
        i = j)
  ∧ (∀ i item u,
        files w !! i = Some item → Item.resizedUrl item = Some u →
        (u < nextUrl w)%nat).

(** The part of the world the ownership of URLs is about. *)
Definition urlState (w : World) : list Item.t * gset url * url :=
  (files w, liveUrls w, nextUrl w).

(** The object URLs a list of items refers to. *)
Definition urlsOf (items : list Item.t) : gset url :=
  list_to_set (omap Item.resizedUrl items).

(** The worlds a page with or without Pica can be in: the start, and what
    the modelled handlers make of a reachable world. *)
Inductive reachable (pica : bool) : World -> Prop :=
  | reach_initial : reachable pica initial
  | reach_handleFiles fileList w :
      reachable pica w → reachable pica (handleFiles fileList w)
  | reach_selectFile index w :
      reachable pica w → reachable pica (selectFile index w)
  | reach_removeFile index w w' :
      reachable pica w → removeFile index w = Normal w' → reachable pica w'
  | reach_clearAll w :
      reachable pica w → reachable pica (clearAll w)
  | reach_widthInput value w w' :
      reachable pica w → widthInput_oninput value w = Some w' →
      reachable pica w'
  | reach_heightInput value w w' :
      reachable pica w → heightInput_oninput value w = Some w' →
      reachable pica w'
  | reach_lockAspect w :
      reachable pica w → reachable pica (lockAspect_onclick w)
  | reach_reset w :
      reachable pica w → reachable pica (resetBtn_onclick w)
  | reach_format format ext w :
      reachable pica w → reachable pica (formatBtn_onclick format ext w)
  | reach_resizeCurrent a w :
      reachable pica w → reachable pica (resizeCurrent pica a w)
  | reach_resizeAll attempts w :
      reachable pica w → reachable pica (resizeAll pica attempts w)
  | reach_downloadCurrent w w' :
      reachable pica w → downloadCurrent w = Some w' → reachable pica w'
  | reach_downloadAll w w' :
      reachable pica w → downloadAll w = Some w' → reachable pica w'
  | reach_preset name dataW dataH w w' :
      reachable pica w → presetBtn_onclick name dataW dataH w = Some w' →
      reachable pica w'
  | reach_quality value w :
      reachable pica w → reachable pica (qualitySlider_oninput value w).

(** *** Loading *)

(** The two tests of [handleFiles], in its order. *)
Definition accepted (f : File.t) : bool :=
  includes validTypes (File.type f) && negb (File.size f >? maxSize).

Definition rejection (f : File.t) : option Toast :=
  if negb (includes validTypes (File.type f))
  then Some (UnsupportedFormat (File.name f))
  else if File.size f >? maxSize then Some (FileTooLarge (File.name f))
  else None.

Definition loaded (f : File.t) : option Item.t :=
  match loadImage f with
  | Normal item => Some item
  | Throw _ => None
  end.

Definition loadFailure (f : File.t) : option Toast :=
  match loadImage f with
  | Normal _ => None
  | Throw _ => Some (FailedToLoad (File.name f))
  end.

(** *** Savings *)



(** *** Download names *)

(** [base] is [name] without its final extension: [name] is [base], a dot and
    a non-empty extension free of dots; or [name] has no such ending and
    [base] is [name] itself. *)
Definition baseNameOf (name base : jsstring) : Prop :=
  (∃ e, e ≠ [] ∧ (Ch.dot ∉ e) ∧ name = base ++ Ch.dot :: e)
  ∨ (base = name ∧ ∀ b e, e ≠ [] → Ch.dot ∉ e → name ≠ b ++ Ch.dot :: e).

(** [{originalBaseName}_{targetWidth}x{targetHeight}.{formatExtension}] *)
Definition suggested (w : World) (tw th : Z) (item : Item.t)
    (filename : jsstring) : Prop :=
  ∃ base, baseNameOf (File.name (Item.file item)) base
    ∧ filename
      = base ++ js "_" ++ decimal tw ++ js "x" ++ decimal th ++ js "."
        ++ outputExt w.

(** The name [downloadName] builds once both fields parse to integers. *)
Definition nameFor (w : World) (tw th : Z) (item : Item.t) : jsstring :=
  removeExtension (File.name (Item.file item))
  ++ js "_" ++ decimal tw ++ js "x" ++ decimal th ++ js "." ++ outputExt w.

(** *** Aspect lock *)

(** Following the specification: [round (p / q)] for [q > 0], the nearest
    integer, the upper one when [p / q] is halfway between two. *)
Definition nearest (p q : Z) : Z := (2 * p + q) / (2 * q).

(** [state.aspectRatio] as [selectFile] leaves it for an item. *)
Definition ratioOf (item : Item.t) : Number :=
  fdiv (of_Z (Item.naturalWidth item)) (of_Z (Item.naturalHeight item)).

(** Both fields the locked handlers write for a typed [n] on a [W] x [H]
    picture are the exactly rounded quotients. *)
Definition agreesWithNearest (W H n : Z) : bool :=
  let ratio := fdiv (of_Z W) (of_Z H) in
  bool_decide (Number_toString (Math_round (fdiv (of_Z n) ratio))
               = Some (decimal (nearest (n * H) W)))
  && bool_decide (Number_toString (Math_round (fmul (of_Z n) ratio))
                  = Some (decimal (nearest (n * W) H))).

(** ** Theme

    The [data-theme] attribute of the document, the [theme] entry of
    [localStorage], and the content of the [theme-color] meta element, each
    [None] when absent. *)
Module Theme.
Record t := {
  dataTheme : option jsstring;
  stored : option jsstring;
  metaColor : option jsstring
}.
End Theme.

Definition setTheme (theme : jsstring) (t : Theme.t) : Theme.t :=
  {| Theme.dataTheme := Some theme;
     Theme.stored := Some theme;
     Theme.metaColor :=
       match Theme.metaColor t with
       | Some _ =>
           Some (if bool_decide (theme = js "dark")
                 then js "#1e1e2e" else js "#6366f1")
       | None => None
       end |}.

(** [saved || (prefersDark ? 'dark' : 'light')]: an empty string is falsy. *)
Definition initTheme (prefersDark : bool) (t : Theme.t) : Theme.t :=
  let fallback := if prefersDark then js "dark" else js "light" in
  let theme :=
    match Theme.stored t with
    | Some saved => if bool_decide (saved = []) then fallback else saved
    | None => fallback
    end in
  setTheme theme t.

Definition themeToggle_onclick (t : Theme.t) : Theme.t :=
  let current := Theme.dataTheme t in
  setTheme (if bool_decide (current = Some (js "dark"))
            then js "light" else js "dark") t.

(** ** The service worker *)

(** [s.startsWith(p)] and [s.includes(p)] *)
Fixpoint startsWith (s p : jsstring) : bool :=
  match p, s with
  | [], _ => true
  | c :: p', d :: s' => (c =? d)%N && startsWith s' p'
  | _ :: _, [] => false
  end.

Fixpoint includesText (s p : jsstring) : bool :=
  startsWith s p
  || match s with
     | [] => false
     | _ :: s' => includesText s' p
     end.

Module Request.
Record t := { method : jsstring; url : jsstring; mode : jsstring }.
End Request.

Module Response.
Record t := { status : Z; statusText : jsstring; body : jsstring }.
End Response.

(** A cache maps request URLs to responses; the cache storage lists the
    caches by name in the order they were opened. *)
Definition CacheStorage := list (jsstring * gmap jsstring Response.t).

Definition CACHE_NAME : jsstring := js "smart-resize-v1".

Definition PRECACHE_URLS : list jsstring :=
  [js "./"; js "./index.html"; js "./style.css"; js "./script.js";
   js "./manifest.json"].

Definition CDN_URLS : list jsstring :=
  [js "https://cdn.tailwindcss.com";
   js "https://cdn.jsdelivr.net/npm/pica@9.0.1/dist/pica.min.js";
   js "https://cdn.jsdelivr.net/npm/gsap@3.12.5/dist/gsap.min.js";
   js "https://cdn.jsdelivr.net/npm/gsap@3.12.5/dist/ScrollTrigger.min.js";
   js "https://unpkg.com/lucide@latest"].

(** A URL of the form [./path] resolved against [dir], the directory of the
    worker script. *)
Definition resolveUrl (dir u : jsstring) : jsstring :=
  if startsWith u (js "./") then dir ++ drop 2 u else u.

(** [caches.match], [caches.open], [cache.put] and [caches.delete]. *)
Fixpoint cachesMatch (u : jsstring) (cs : CacheStorage) : option Response.t :=
  match cs with
  | [] => None
  | (_, cache) :: rest =>
      match cache !! u with
      | Some r => Some r
      | None => cachesMatch u rest
      end
  end.

Definition cachesHas (name : jsstring) (cs : CacheStorage) : bool :=
  bool_decide (name ∈ cs.*1).

Definition cachesOpen (name : jsstring) (cs : CacheStorage) : CacheStorage :=
  if cachesHas name cs then cs else cs ++ [(name, ∅)].

Definition cachePut (name u : jsstring) (r : Response.t) (cs : CacheStorage)
  : CacheStorage :=
  (λ entry : jsstring * gmap jsstring Response.t,
     if bool_decide (entry.1 = name) then (entry.1, <[u := r]> entry.2)
     else entry) <$> cachesOpen name cs.

Definition cachesDelete (name : jsstring) (cs : CacheStorage) : CacheStorage :=
  filter (λ entry, entry.1 ≠ name) cs.

(** [response.ok] *)
Definition ok (r : Response.t) : bool :=
  (200 <=? Response.status r) && (Response.status r <=? 299).

(** The [install] listener: [cache.addAll] stores every pre-cache URL, or
    nothing when one of them fails to load or is not [ok].  [network u] is
    what a GET of [u] returns, [None] for a network error. *)
Definition oninstall (dir : jsstring) (network : jsstring -> option Response.t)
    (cs : CacheStorage) : CacheStorage :=
  let cs1 := cachesOpen CACHE_NAME cs in
  let urls := resolveUrl dir <$> PRECACHE_URLS in
  match mapM (λ u, r ← network u; if ok r then Some (u, r) else None) urls with
  | Some fetched =>
      foldl (λ acc entry, cachePut CACHE_NAME entry.1 entry.2 acc) cs1 fetched
  | None => cs1
  end.

(** The [activate] listener deletes every cache but [CACHE_NAME]. *)
Definition onactivate (cs : CacheStorage) : CacheStorage :=
  foldl (λ acc key, cachesDelete key acc) cs
        (filter (λ key, key ≠ CACHE_NAME) cs.*1).

(** What a [fetch] event ends with: the listener returns without
    [respondWith], or the promise given to [respondWith] resolves with a
    response, or with [undefined]. *)
Inductive FetchResult :=
  | NotHandled
  | Responded (r : Response.t)
  | NoResponse.

Definition cacheable (u : jsstring) : bool :=
  existsb (λ cdn, startsWith u cdn) CDN_URLS
  || includesText u (js "fonts.googleapis.com")
  || includesText u (js "fonts.gstatic.com").

Definition offline : Response.t :=
  {| Response.status := 503; Response.statusText := js "Offline";
     Response.body := js "Offline" |}.

Definition onfetch (dir : jsstring) (network : jsstring -> option Response.t)
    (request : Request.t) (cs : CacheStorage) : FetchResult * CacheStorage :=
  let u := Request.url request in
  if negb (bool_decide (Request.method request = js "GET")) then (NotHandled, cs)
  else if startsWith u (js "chrome-extension") || startsWith u (js "blob:")
  then (NotHandled, cs)
  else
    match cachesMatch u cs with
    | Some cachedResponse => (Responded cachedResponse, cs)
    | None =>
        match network u with
        | Some networkResponse =>
            if (Response.status networkResponse =? 200) && cacheable u
            then (Responded networkResponse,
                  cachePut CACHE_NAME u networkResponse cs)
            else (Responded networkResponse, cs)
        | None =>
            if bool_decide (Request.mode request = js "navigate") then
              match cachesMatch (resolveUrl dir (js "./index.html")) cs with
              | Some index => (Responded index, cs)
              | None => (NoResponse, cs)
              end
            else (Responded offline, cs)
        end
    end.

(** Further sample data: a batch of one picture to which a file that does not
    decode and one that does are added. *)
Module Sample2.
Definition broken : File.t := Sample.file "broken.png" "image/png" 10 None.
Definition second : File.t :=
  Sample.file "second.png" "image/png" 2000 (Some Sample.picture).
End Sample2.

(** *** Invariants of the batch *)

(** The active index points into the batch, or is zero. *)
Definition activeInRange (w : World) : Prop :=
  (activeIndex w < length (files w))%nat ∨ activeIndex w = 0%nat.

(** Every item that holds a resized blob holds an object URL that is live. *)
Definition resultsLive (w : World) : Prop :=
  ∀ i item, files w !! i = Some item → is_Some (Item.resizedBlob item) →
    ∃ u, Item.resizedUrl item = Some u ∧ u ∈ liveUrls w.

(** An item as it was loaded: without resized blob and URL. *)
Definition original (item : Item.t) : Item.t := Item.with_resized None None item.

(** *** Theme *)

(** The colour [setTheme] gives the [theme-color] meta element. *)
Definition themeColour (theme : jsstring) : jsstring :=
  if bool_decide (theme = js "dark") then js "#1e1e2e" else js "#6366f1".

(** A later visit: the document is new, the storage is the one left
    behind. *)
Definition revisits (t t' : Theme.t) : Prop := Theme.stored t' = Theme.stored t.

(** *** Service worker *)

(** The listener answers the request itself: it is a GET and its URL starts
    with neither [chrome-extension] nor [blob:]. *)
Definition handled (request : Request.t) : Prop :=
  Request.method request = js "GET"
  ∧ startsWith (Request.url request) (js "chrome-extension")
    || startsWith (Request.url request) (js "blob:") = false.

(** No connection: every request fails. *)
Definition noNetwork : jsstring -> option Response.t := λ _, None.

(** Sample data: a server that answers every URL with its own text, and a
    storage left by an earlier version of the worker. *)
Module SampleSW.
Definition dir : jsstring := js "https://example.org/app/".
Definition page (u : jsstring) : Response.t :=
  {| Response.status := 200; Response.statusText := js "OK";
     Response.body := u |}.
Definition server : jsstring -> option Response.t := λ u, Some (page u).
Definition old : CacheStorage :=
  [(js "smart-resize-v0",
    {[ js "https://example.org/app/index.html" := offline ]})].
Definition get (u mode : string) : Request.t :=
  {| Request.method := js "GET"; Request.url := js u;
     Request.mode := js mode |}.
End SampleSW.

(** * Properties *)

(** ** JavaScript values *)

Example parseInt_100_9 : parseInt (js "100.9") = PInt 100.
Proof. reflexivity. Qed.
Example parseInt_empty : parseInt (js "") = PNaN.
Proof. reflexivity. Qed.
Example parseInt_hex : parseInt (js "  -0x1F") = PInt (-31).
Proof. reflexivity. Qed.
Example parseInt_exp : parseInt (js "1e3") = PInt 1.
Proof. reflexivity. Qed.

Example round_half : Math_round (fdiv (of_Z 5) (of_Z 2)) = of_Z 3.
Proof. reflexivity. Qed.
Example round_neg_half : Math_round (fdiv (of_Z (-5)) (of_Z 2)) = of_Z (-2).
Proof. reflexivity. Qed.
Example toString_720 : Number_toString (of_Z 720) = Some (js "720").
Proof. reflexivity. Qed.
Example toFixed_005 :
  toFixed1 (fmul (fdiv (of_Z 1) (of_Z 2000)) (of_Z 100)) = Some (js "0.1").
Proof. reflexivity. Qed.
Example toFixed_025 : toFixed1 (fdiv (of_Z 1) (of_Z 4)) = Some (js "0.3").
Proof. reflexivity. Qed.
Example toFixed_neg : toFixed1 (fdiv (of_Z (-123)) (of_Z 10)) = Some (js "-12.3").
Proof. reflexivity. Qed.

(** ** [parseInt] stops at a decimal point *)

Lemma digitValue_dot R : digitValue R Ch.dot = None.
Proof. reflexivity. Qed.

Lemma digitsValue_dot R acc s t :
  digitsValue R acc (s ++ Ch.dot :: t) = digitsValue R acc s.
Proof.
  revert acc. induction s as [|c s IH]; intros acc; simpl.
  - reflexivity.
  - destruct (digitValue R c); [apply IH | reflexivity].
Qed.

Lemma trimStart_dot s t :
  trimStart (s ++ Ch.dot :: t) = trimStart s ++ Ch.dot :: t.
Proof.
  induction s as [|c s IH]; simpl.
  - reflexivity.
  - destruct (isWhiteSpace c); [apply IH | reflexivity].
Qed.

Lemma stripSign_dot s t :
  stripSign (s ++ Ch.dot :: t)
  = ((stripSign s).1, (stripSign s).2 ++ Ch.dot :: t).
Proof.
  destruct s as [|c s]; simpl; [reflexivity|].
  destruct (c =? Ch.minus)%N; [reflexivity|].
  destruct (c =? Ch.plus)%N; reflexivity.
Qed.

Lemma stripPrefix_dot s t :
  stripPrefix (s ++ Ch.dot :: t)
  = ((stripPrefix s).1, (stripPrefix s).2 ++ Ch.dot :: t).
Proof.
  destruct s as [|c0 [|c1 s]]; simpl.
  - destruct t; reflexivity.
  - rewrite andb_false_r. reflexivity.
  - destruct ((c0 =? Ch.zero)%N && ((c1 =? Ch.x)%N || (c1 =? Ch.X)%N));
      reflexivity.
Qed.

Lemma parseDigits_dot s t : parseDigits (s ++ Ch.dot :: t) = parseDigits s.
Proof.
  unfold parseDigits. rewrite stripSign_dot.
  destruct (stripSign s) as [negative s1]; simpl.
  rewrite stripPrefix_dot.
  destruct (stripPrefix s1) as [R s2]; simpl.
  rewrite digitsValue_dot. reflexivity.
Qed.

Lemma parseInt_dot s t : parseInt (s ++ Ch.dot :: t) = parseInt s.
Proof. unfold parseInt. rewrite trimStart_dot. apply parseDigits_dot. Qed.

(** ** The dimension fields only matter through [parseInt] *)

Lemma forgetFields_withFields sw sh w :
  forgetFields (withFields sw sh w) = forgetFields w.
Proof. reflexivity. Qed.

Lemma showResults_withFields item sw sh w :
  showResults item (withFields sw sh w)
  = match showResults item w with
    | Normal w' => Normal (withFields sw sh w')
    | Throw e => Throw e
    end.
Proof.
  unfold showResults. destruct (Item.resizedBlob item); [|reflexivity].
  destruct (_ >? 0); reflexivity.
Qed.

Lemma revokeResized_withFields item sw sh w :
  revokeResized item (withFields sw sh w)
  = withFields sw sh (revokeResized item w).
Proof. unfold revokeResized. destruct (Item.resizedUrl item); reflexivity. Qed.

Lemma resizeImage_withFields pica a i tw th sw sh w :
  resizeImage pica a i tw th (withFields sw sh w)
  = ((λ w', withFields sw sh w') (resizeImage pica a i tw th w).1,
     (resizeImage pica a i tw th w).2).
Proof.
  unfold resizeImage. simpl files.
  destruct (files w !! i) as [item|]; [|reflexivity].
  destruct (decode a); [reflexivity|].
  destruct (resample a tw th); [reflexivity|].
  simpl outputFormat. simpl quality.
  destruct (canvasToBlob _ _ _ _ _ _) as [[blob|]|e]; try reflexivity;
    rewrite revokeResized_withFields; reflexivity.
Qed.

Lemma resizeAll_loop_withFields pica attempts tw th sw sh fuel :
  ∀ i completed w,
    resizeAll_loop pica attempts tw th fuel i completed (withFields sw sh w)
    = let r := resizeAll_loop pica attempts tw th fuel i completed w in
      (withFields sw sh r.1.1, r.1.2, r.2).
Proof.
  induction fuel as [|fuel IH]; intros i completed w; simpl.
  - reflexivity.
  - destruct (bool_decide _); [|reflexivity].
    rewrite resizeImage_withFields.
    destruct (resizeImage pica (attempts i) i tw th w) as [w1 [err|]]; simpl.
    + reflexivity.
    + apply IH.
Qed.

Lemma selectFile_withFields index sw sh w :
  forgetFields (selectFile index (withFields sw sh w))
  = forgetFields (selectFile index w).
Proof.
  unfold selectFile. simpl files.
  destruct (_ || _); [reflexivity|].
  destruct (files w !! Z.to_nat index) as [item|]; [|reflexivity].
  destruct (Item.resizedBlob item) as [blob|] eqn:Hb; [|reflexivity].
  unfold showResults. rewrite Hb. destruct (_ >? 0); reflexivity.
Qed.

Lemma selectFile_frame index w :
  files (selectFile index w) = files w
  ∧ toasts (selectFile index w) = toasts w
  ∧ liveUrls (selectFile index w) = liveUrls w
  ∧ nextUrl (selectFile index w) = nextUrl w.
Proof.
  unfold selectFile. destruct (_ || _); [done|].
  destruct (files w !! Z.to_nat index) as [item|]; [|done].
  destruct (Item.resizedBlob item) as [blob|] eqn:Hb; [|done].
  unfold showResults. rewrite Hb. destruct (_ >? 0); done.
Qed.

Lemma resizeCurrent_fields pica a sw sh w :
  parseInt sw = parseInt (widthInput w) →
  parseInt sh = parseInt (heightInput w) →
  resizeCurrent pica a (withFields sw sh w)
  = withFields sw sh (resizeCurrent pica a w).
Proof.
  intros Hw Hh. unfold resizeCurrent.
  change (files (withFields sw sh w)) with (files w).
  change (activeIndex (withFields sw sh w)) with (activeIndex w).
  change (widthInput (withFields sw sh w)) with sw.
  change (heightInput (withFields sw sh w)) with sh.
  rewrite Hw, Hh.
  destruct (files w !! activeIndex w); [|reflexivity].
  destruct (invalidDimensions _ _); [reflexivity|].
  destruct (_ || _); [reflexivity|].
  rewrite resizeImage_withFields.
  destruct (resizeImage pica a (activeIndex w) _ _ w) as [w1 [e|]]; simpl;
    [reflexivity|].
  change (files (withFields sw sh w1)) with (files w1).
  destruct (files w1 !! activeIndex w) as [item|]; [|reflexivity].
  rewrite showResults_withFields.
  destruct (showResults item w1); reflexivity.
Qed.

Lemma resizeAll_fields pica attempts sw sh w :
  parseInt sw = parseInt (widthInput w) →
  parseInt sh = parseInt (heightInput w) →
  forgetFields (resizeAll pica attempts (withFields sw sh w))
  = forgetFields (resizeAll pica attempts w).
Proof.
  intros Hw Hh. unfold resizeAll.
  change (files (withFields sw sh w)) with (files w).
  change (widthInput (withFields sw sh w)) with sw.
  change (heightInput (withFields sw sh w)) with sh.
  rewrite Hw, Hh.
  destruct (invalidDimensions _ _); [reflexivity|].
  rewrite resizeAll_loop_withFields.
  destruct (resizeAll_loop pica attempts _ _ _ _ _ w) as [[w1 completed] [e|]];
    simpl; [reflexivity|].
  change (activeIndex (withFields sw sh w1)) with (activeIndex w1).
  change (forgetFields (showToast ?t ?x))
    with (showToast t (forgetFields x)).
  f_equal. apply selectFile_withFields.
Qed.

(** ** One run of the pipeline *)

Lemma sameSettings_refl w : sameSettings w w.
Proof. repeat split. Qed.

Lemma sameSettings_trans w1 w2 w3 :
  sameSettings w1 w2 → sameSettings w2 w3 → sameSettings w1 w3.
Proof.
  unfold sameSettings. intros H1 H2.
  repeat match goal with H : _ ∧ _ |- _ => destruct H as [? H] end.
  repeat split; etrans; eauto.
Qed.

(** A failure is the encoder yielding nothing, with a [TypeError], or it is
    a stage that throws. *)
Lemma stageFailure_cases pica a tw th format q e :
  stageFailure pica a tw th format q e →
  ¬ yieldsNoBlob pica a tw th format q
  ∨ (yieldsNoBlob pica a tw th format q ∧ e = TypeError).
Proof.
  intros [e' Hd|e' Hd Hr|e' Hd Hr Hc|Hy].
  - left. intros (Hd' & _). congruence.
  - left. intros (_ & Hr' & _). congruence.
  - left. intros (_ & _ & Hc'). congruence.
  - by right.
Qed.

(** A stage that throws: nothing has been written. *)
Lemma resizeImage_failure pica a i tw th w e :
  is_Some (files w !! i) →
  stageFailure pica a tw th (outputFormat w) (quality w) e →
  ¬ yieldsNoBlob pica a tw th (outputFormat w) (quality w) →
  resizeImage pica a i tw th w = (w, Some e).
Proof.
  intros [item Hitem] Hfail Hnot. unfold resizeImage. rewrite Hitem.
  destruct Hfail as [e Hd|e Hd Hr|e Hd Hr Hc|Hy].
  - rewrite Hd. reflexivity.
  - rewrite Hd, Hr. reflexivity.
  - rewrite Hd, Hr, Hc. reflexivity.
  - by destruct Hnot.
Qed.

Lemma revokeResized_spec item w :
  files (revokeResized item w) = files w
  ∧ liveUrls (revokeResized item w) = withoutResized item (liveUrls w)
  ∧ nextUrl (revokeResized item w) = nextUrl w
  ∧ urlEvents (revokeResized item w) = urlEvents w ++ released item
  ∧ sameSettings w (revokeResized item w).
Proof.
  unfold revokeResized, withoutResized, released.
  destruct (Item.resizedUrl item); simpl; rewrite ?app_nil_r;
    repeat split.
Qed.

Lemma resizeImage_success pica a i tw th w item blob :
  files w !! i = Some item →
  succeeds pica a tw th (outputFormat w) (quality w) blob →
  ∃ w', resizeImage pica a i tw th w = (w', None)
    ∧ files w'
      = <[i := Item.with_resized (Some blob) (Some (nextUrl w)) item]> (files w)
    ∧ liveUrls w' = {[nextUrl w]} ∪ withoutResized item (liveUrls w)
    ∧ nextUrl w' = S (nextUrl w)
    ∧ urlEvents w' = urlEvents w ++ released item ++ [Created (nextUrl w)]
    ∧ sameSettings w w'.
Proof.
  intros Hitem (Hd & Hr & Hc). unfold resizeImage.
  rewrite Hitem, Hd, Hr, Hc.
  destruct (revokeResized_spec item w) as (Hf & Hl & Hn & He & Hs).
  eexists. split; [reflexivity|]. cbn.
  rewrite Hf, Hl, Hn, He, list_insert_insert_eq, <- app_assoc.
  repeat split; apply Hs.
Qed.

(** The encoder yields no blob: the previous URL is revoked and the blob
    overwritten with [null] before [URL.createObjectURL(null)] throws. *)
Lemma resizeImage_nothing pica a i tw th w item :
  files w !! i = Some item →
  yieldsNoBlob pica a tw th (outputFormat w) (quality w) →
  ∃ w', resizeImage pica a i tw th w = (w', Some TypeError)
    ∧ files w' = <[i := Item.with_resizedBlob None item]> (files w)
    ∧ liveUrls w' = withoutResized item (liveUrls w)
    ∧ nextUrl w' = nextUrl w
    ∧ urlEvents w' = urlEvents w ++ released item
    ∧ sameSettings w w'.
Proof.
  intros Hitem (Hd & Hr & Hc). unfold resizeImage.
  rewrite Hitem, Hd, Hr, Hc.
  destruct (revokeResized_spec item w) as (Hf & Hl & Hn & He & Hs).
  eexists. split; [reflexivity|]. cbn.
  rewrite Hf, Hl, Hn, He. repeat split; apply Hs.
Qed.

(** C6.  What [resizeCurrent] leaves behind when the run of the pipeline
    fails.  When the source does not decode, the resampler throws or the
    encoder rejects, [resizeImage] hands back the world it was given: the
    item keeps the resized blob and URL it had, no object URL is revoked or
    created, and the only effect is the error toast.  When the encoder
    yields no blob, as Pica's [toBlob] can, the previous URL is revoked and
    the blob overwritten before [URL.createObjectURL] throws: the item has
    lost its blob and keeps a URL that is no longer live.  The last conjunct
    is that case on a picture that was resized before. *)
Theorem failed_encode_loses_result pica a w item e :
  files w !! activeIndex w = Some item →
  invalidDimensions (parseInt (widthInput w)) (parseInt (heightInput w))
  = false →
  above (parseInt (widthInput w)) 10000
  || above (parseInt (heightInput w)) 10000 = false →
  stageFailure pica a (parseInt (widthInput w)) (parseInt (heightInput w))
    (outputFormat w) (quality w) e →
  toasts (resizeCurrent pica a w) = toasts w ++ [ErrorResizing e]
  ∧ (¬ yieldsNoBlob pica a (parseInt (widthInput w))
         (parseInt (heightInput w)) (outputFormat w) (quality w) →
     resizeCurrent pica a w = showToast (ErrorResizing e) w
     ∧ files (resizeCurrent pica a w) = files w
     ∧ liveUrls (resizeCurrent pica a w) = liveUrls w
     ∧ urlEvents (resizeCurrent pica a w) = urlEvents w)
  ∧ (yieldsNoBlob pica a (parseInt (widthInput w))
       (parseInt (heightInput w)) (outputFormat w) (quality w) →
     e = TypeError
     ∧ files (resizeCurrent pica a w)
       = <[activeIndex w := Item.with_resizedBlob None item]> (files w)
     ∧ liveUrls (resizeCurrent pica a w) = withoutResized item (liveUrls w)
     ∧ urlEvents (resizeCurrent pica a w) = urlEvents w ++ released item)
  ∧ (let w0 := Sample.resizedAt50x64 in
     let w1 := resizeCurrent true Sample.blobless w0 in
     Item.resizedBlob <$> files w0 = [Some (Sample.encoded (js "image/jpeg"))]
     ∧ Item.resizedUrl <$> files w0 = [Some 0%nat]
     ∧ 0%nat ∈ liveUrls w0
     ∧ Item.resizedBlob <$> files w1 = [None]
     ∧ Item.resizedUrl <$> files w1 = [Some 0%nat]
     ∧ (0%nat ∉ liveUrls w1)
     ∧ urlEvents w1 = urlEvents w0 ++ [Revoked 0%nat]
     ∧ toasts w1 = toasts w0 ++ [ErrorResizing TypeError]).
Proof.
  intros Hitem Hvalid Hmax Hfail.
  assert (Hsome : is_Some (files w !! activeIndex w)) by eauto.
  assert (Hthrow :
    ¬ yieldsNoBlob pica a (parseInt (widthInput w))
        (parseInt (heightInput w)) (outputFormat w) (quality w) →
    resizeCurrent pica a w = showToast (ErrorResizing e) w).
  { intros Hnot. unfold resizeCurrent. rewrite Hitem, Hvalid, Hmax.
    by rewrite (resizeImage_failure pica a (activeIndex w) _ _ w e). }
  assert (Hnothing :
    yieldsNoBlob pica a (parseInt (widthInput w))
      (parseInt (heightInput w)) (outputFormat w) (quality w) →
    ∃ w', resizeCurrent pica a w = showToast (ErrorResizing TypeError) w'
      ∧ files w'
        = <[activeIndex w := Item.with_resizedBlob None item]> (files w)
      ∧ liveUrls w' = withoutResized item (liveUrls w)
      ∧ urlEvents w' = urlEvents w ++ released item
      ∧ toasts w' = toasts w).
  { intros Hy.
    destruct (resizeImage_nothing pica a (activeIndex w) _ _ w item Hitem Hy)
      as (w' & Hrun & Hf & Hl & _ & He & Hs).
    exists w'. unfold resizeCurrent. rewrite Hitem, Hvalid, Hmax, Hrun.
    split_and!; try done. apply Hs. }
  split_and!.
  - destruct (stageFailure_cases _ _ _ _ _ _ _ Hfail) as [Hnot|[Hy ->]].
    + by rewrite (Hthrow Hnot).
    + destruct (Hnothing Hy) as (w' & -> & _ & _ & _ & Ht).
      cbn [toasts showToast set_toasts]. by rewrite Ht.
  - intros Hnot. by rewrite (Hthrow Hnot).
  - intros Hy.
    destruct (stageFailure_cases _ _ _ _ _ _ _ Hfail) as [Hnot|[_ ->]];
      [done|].
    destruct (Hnothing Hy) as (w' & -> & Hf & Hl & He & _). done.
  - assert (Hin : bool_decide (0%nat ∈ liveUrls Sample.resizedAt50x64) = true)
      by (vm_compute; reflexivity).
    assert (Hout : bool_decide
                     (0%nat ∈ liveUrls (resizeCurrent true Sample.blobless
                                          Sample.resizedAt50x64)) = false)
      by (vm_compute; reflexivity).
    apply bool_decide_eq_true_1 in Hin.
    apply bool_decide_eq_false_1 in Hout.
    cbv zeta.
    split_and!;
      [ by vm_compute | by vm_compute | exact Hin | by vm_compute
      | by vm_compute | exact Hout | by vm_compute | by vm_compute ].
Qed.

Lemma failed_encode_loses_result_witness :
  toasts (resizeCurrent true Sample.blobless Sample.resizedAt50x64)
  = toasts Sample.resizedAt50x64 ++ [ErrorResizing TypeError]
  ∧ files (resizeCurrent true Sample.blobless Sample.resizedAt50x64)
    = [Item.with_resized None (Some 0%nat) Sample.holiday]
  ∧ liveUrls (resizeCurrent true Sample.blobless Sample.resizedAt50x64)
    = withoutResized
        (Item.with_resized (Some (Sample.encoded (js "image/jpeg")))
           (Some 0%nat) Sample.holiday)
        (liveUrls Sample.resizedAt50x64)
  ∧ urlEvents (resizeCurrent true Sample.blobless Sample.resizedAt50x64)
    = urlEvents Sample.resizedAt50x64 ++ [Revoked 0%nat].
Proof.
  destruct (failed_encode_loses_result true Sample.blobless
              Sample.resizedAt50x64
              (Item.with_resized (Some (Sample.encoded (js "image/jpeg")))
                 (Some 0%nat) Sample.holiday) TypeError)
    as (Htoast & _ & Hlost & _).
  - reflexivity.
  - reflexivity.
  - reflexivity.
  - apply encode_yields_nothing. repeat split.
  - destruct Hlost as (_ & Hf & Hl & He); [repeat split|].
    split_and!; assumption.
Defined.

(** ** Validation of the target dimensions *)

Lemma resizeCurrent_rejects_invalid pica a w :
  invalidDimensions (parseInt (widthInput w)) (parseInt (heightInput w)) = true →
  is_Some (files w !! activeIndex w) →
  resizeCurrent pica a w = showToast InvalidDimensions w.
Proof.
  intros Hinv [item Hitem]. unfold resizeCurrent. rewrite Hitem, Hinv.
  reflexivity.
Qed.

Lemma resizeCurrent_rejects_over_limit pica a w :
  invalidDimensions (parseInt (widthInput w)) (parseInt (heightInput w)) = false →
  above (parseInt (widthInput w)) 10000
  || above (parseInt (heightInput w)) 10000 = true →
  is_Some (files w !! activeIndex w) →
  resizeCurrent pica a w = showToast MaximumDimension w.
Proof.
  intros Hinv Hmax [item Hitem]. unfold resizeCurrent.
  rewrite Hitem, Hinv, Hmax. reflexivity.
Qed.

Lemma resizeAll_rejects_invalid pica attempts w :
  invalidDimensions (parseInt (widthInput w)) (parseInt (heightInput w)) = true →
  resizeAll pica attempts w = showToast InvalidDimensions w.
Proof. intros Hinv. unfold resizeAll. rewrite Hinv. reflexivity. Qed.

(** What [invalidDimensions] rejects: a field that does not parse, and a
    value below one. *)
Lemma invalidDimensions_spec tw th :
  invalidDimensions tw th = false
  ↔ ∃ x y, tw = PInt x ∧ th = PInt y ∧ 1 <= x ∧ 1 <= y.
Proof.
  unfold invalidDimensions. split.
  - intros H. destruct tw as [|x], th as [|y]; simpl in H; try discriminate.
    + rewrite orb_true_r in H. discriminate.
    + exists x, y. repeat split; lia.
  - intros (x & y & -> & -> & Hx & Hy). simpl.
    repeat (apply orb_false_intro); lia.
Qed.

Lemma resizeImage_toasts pica a i tw th w :
  toasts (resizeImage pica a i tw th w).1 = toasts w.
Proof.
  unfold resizeImage.
  destruct (files w !! i) as [item|]; [|done].
  destruct (decode a); [done|].
  destruct (resample a tw th); [done|].
  destruct (canvasToBlob _ _ _ _ _ _) as [[blob|]|e]; [| |done];
    destruct (revokeResized_spec item w) as (_ & _ & _ & _ & Hs); simpl;
    apply Hs.
Qed.

Lemma resizeAll_loop_toasts pica attempts tw th fuel :
  ∀ i completed w,
    toasts (resizeAll_loop pica attempts tw th fuel i completed w).1.1
    = toasts w.
Proof.
  induction fuel as [|fuel IH]; intros i completed w; simpl; [done|].
  destruct (bool_decide _); [|done].
  pose proof (resizeImage_toasts pica (attempts i) i tw th w) as Ht.
  destruct (resizeImage pica (attempts i) i tw th w) as [w1 [e|]];
    simpl in Ht; [done|].
  by rewrite IH.
Qed.

(** Whatever the fields hold, [resizeAll] ends with one toast, and it is
    never the maximum-dimension message. *)
Lemma resizeAll_never_reports_maximum pica attempts w :
  ∃ t, toasts (resizeAll pica attempts w) = toasts w ++ [t]
    ∧ t ≠ MaximumDimension.
Proof.
  unfold resizeAll.
  destruct (invalidDimensions _ _); [by exists InvalidDimensions|].
  pose proof (resizeAll_loop_toasts pica attempts
                (parseInt (widthInput w)) (parseInt (heightInput w))
                (length (files w)) 0%nat 0%nat w) as Ht.
  destruct (resizeAll_loop _ _ _ _ _ _ _ w) as [[w1 completed] [e|]];
    simpl in Ht.
  - exists (ErrorDuringBatch e). simpl. by rewrite Ht.
  - exists (AllResized completed). simpl.
    destruct (selectFile_frame (Z.of_nat (activeIndex w1)) w1)
      as (_ & -> & _).
    by rewrite Ht.
Qed.

(** C2, where the code departs from it.  With [10001] in the width field,
    [resizeCurrent] refuses with the maximum-dimension message and leaves the
    batch as it is, whereas [resizeAll], which has no such test, resizes the
    batch at 10001 x 100.  At exactly 10000 x 10000 both go ahead. *)
Theorem resizeAll_has_no_upper_limit :
  let w := withFields (js "10001") (js "100") Sample.three in
  let w10000 := withFields (js "10000") (js "10000") Sample.three in
  (toasts (resizeCurrent true Sample.works w) = toasts w ++ [MaximumDimension]
   ∧ files (resizeCurrent true Sample.works w) = files w)
  ∧ (toasts (resizeAll true (λ _, Sample.works) w) = toasts w ++ [AllResized 3]
     ∧ Item.resizedBlob <$> files (resizeAll true (λ _, Sample.works) w)
       = replicate 3 (Some (Sample.encoded (js "image/jpeg"))))
  ∧ toasts (resizeCurrent true Sample.works w10000)
    = toasts w10000 ++ [ResizedSuccessfully]
  ∧ toasts (resizeAll true (λ _, Sample.works) w10000)
    = toasts w10000 ++ [AllResized 3].
Proof. vm_compute. repeat split; reflexivity. Qed.

(** ** One resized artifact per item *)

Lemma urlsOwned_initial : urlsOwned initial.
Proof.
  split_and!.
  - intros u Hu. apply not_elem_of_empty in Hu. destruct Hu.
  - intros i j item item' u Hi. by destruct i.
  - intros i item u Hi. by destruct i.
Qed.

Lemma withoutResized_subseteq item live : withoutResized item live ⊆ live.
Proof.
  unfold withoutResized. destruct (Item.resizedUrl item); [|done].
  intros x Hx. by apply elem_of_difference in Hx as [Hx _].
Qed.

Lemma withoutResized_not_elem item live u :
  Item.resizedUrl item = Some u → u ∉ withoutResized item live.
Proof.
  unfold withoutResized. intros -> Hu.
  apply elem_of_difference in Hu as [_ Hu]. apply Hu. by apply elem_of_singleton.
Qed.

Lemma urlsOwned_install w w' i item blob :
  urlsOwned w →
  files w !! i = Some item →
  files w'
  = <[i := Item.with_resized (Some blob) (Some (nextUrl w)) item]> (files w) →
  liveUrls w' = {[nextUrl w]} ∪ withoutResized item (liveUrls w) →
  nextUrl w' = S (nextUrl w) →
  urlsOwned w'.
Proof.
  intros (Hown & Hinj & Hfresh) Hitem Hfiles Hlive Hnext.
  assert (Hlen : (i < length (files w))%nat)
    by (apply lookup_lt_is_Some; eauto).
  unfold urlsOwned. rewrite Hfiles, Hlive, Hnext. split_and!.
  - intros u Hu. apply elem_of_union in Hu as [Hu|Hu].
    + apply elem_of_singleton in Hu as ->.
      exists i, (Item.with_resized (Some blob) (Some (nextUrl w)) item).
      split; [by apply list_lookup_insert_eq | reflexivity].
    + destruct (Hown u) as (j & item' & Hj & Hu');
        [by apply (withoutResized_subseteq item)|].
      destruct (decide (i = j)) as [->|Hne].
      * rewrite Hitem in Hj. injection Hj as <-.
        by apply (withoutResized_not_elem _ (liveUrls w)) in Hu'.
      * exists j, item'. by rewrite list_lookup_insert_ne.
  - intros j k item1 item2 u H1 H2 Hu1 Hu2.
    apply list_lookup_insert_Some in H1 as [(<- & <- & _)|(Hj & H1)];
      apply list_lookup_insert_Some in H2 as [(<- & <- & _)|(Hk & H2)];
      simpl in *; try done.
    + injection Hu1 as <-. apply (Hfresh _ _ _ H2) in Hu2. lia.
    + injection Hu2 as <-. apply (Hfresh _ _ _ H1) in Hu1. lia.
    + by apply (Hinj j k item1 item2 u).
  - intros j item1 u H1 Hu.
    apply list_lookup_insert_Some in H1 as [(<- & <- & _)|(Hj & H1)].
    + injection Hu as <-. lia.
    + apply (Hfresh _ _ _ H1) in Hu. lia.
Qed.

(** ** The batch loop *)

Lemma resizeAll_loop_stops pica attempts tw th (b : nat → Blob.t) k e d :
  ∀ fuel i completed w,
    (i + d = k)%nat → (d < fuel)%nat → (k < length (files w))%nat →
    (∀ j, (i ≤ j < k)%nat →
          succeeds pica (attempts j) tw th (outputFormat w) (quality w) (b j)) →
    stageFailure pica (attempts k) tw th (outputFormat w) (quality w) e →
    ∃ w', resizeAll_loop pica attempts tw th fuel i completed w
          = (w', (completed + d)%nat, Some e)
      ∧ (∀ j, (i ≤ j < k)%nat →
              ∃ item u, files w !! j = Some item
                ∧ files w' !! j
                  = Some (Item.with_resized (Some (b j)) (Some u) item))
      ∧ (∀ j, (j < i ∨ k < j)%nat → files w' !! j = files w !! j)
      ∧ (¬ yieldsNoBlob pica (attempts k) tw th (outputFormat w) (quality w) →
         files w' !! k = files w !! k)
      ∧ (yieldsNoBlob pica (attempts k) tw th (outputFormat w) (quality w) →
         files w' !! k = Item.with_resizedBlob None <$> files w !! k)
      ∧ sameSettings w w'.
Proof.
  induction d as [|d IH]; intros fuel i completed w Hk Hfuel Hlen Hok Hfail.
  - assert (i = k) as -> by lia.
    destruct fuel as [|fuel]; [lia|]. simpl.
    rewrite bool_decide_eq_true_2 by done.
    destruct (lookup_lt_is_Some_2 (files w) k Hlen) as [item Hitem].
    destruct (stageFailure_cases _ _ _ _ _ _ _ Hfail) as [Hnot|[Hy ->]].
    + rewrite (resizeImage_failure pica (attempts k) k tw th w e)
        by eauto.
      exists w. rewrite Nat.add_0_r.
      split_and!; try done; try (intros; lia); apply sameSettings_refl.
    + destruct (resizeImage_nothing pica (attempts k) k tw th w item Hitem Hy)
        as (w1 & -> & Hf & _ & _ & _ & Hs).
      exists w1. rewrite Nat.add_0_r.
      split_and!; try done; try (intros; lia).
      * intros j Hj. rewrite Hf. apply list_lookup_insert_ne. lia.
      * intros _. rewrite Hf, Hitem. by apply list_lookup_insert_eq.
  - destruct fuel as [|fuel]; [lia|]. simpl.
    rewrite bool_decide_eq_true_2 by lia.
    destruct (lookup_lt_is_Some_2 (files w) i) as [item Hitem]; [lia|].
    destruct (resizeImage_success pica (attempts i) i tw th w item (b i) Hitem)
      as (w1 & Hrun & Hfiles & _ & _ & _ & Hsame); [apply Hok; lia|].
    rewrite Hrun.
    assert (Hfmt : outputFormat w1 = outputFormat w) by apply Hsame.
    assert (Hq : quality w1 = quality w) by apply Hsame.
    destruct (IH fuel (S i) (S completed) w1)
      as (w' & Hloop & Hdone & Hrest & Hkeep & Hlost & Hs'); try lia.
    + rewrite Hfiles, length_insert. lia.
    + intros j Hj. rewrite Hfmt, Hq. apply Hok. lia.
    + rewrite Hfmt, Hq. exact Hfail.
    + rewrite Hfmt, Hq in Hkeep, Hlost.
      assert (Hk1 : files w1 !! k = files w !! k).
      { rewrite Hfiles. apply list_lookup_insert_ne. lia. }
      exists w'. rewrite Hloop. split_and!.
      * f_equal. f_equal. lia.
      * intros j Hj. destruct (decide (j = i)) as [->|Hne].
        -- exists item, (nextUrl w). split; [done|].
           rewrite Hrest by lia. rewrite Hfiles.
           apply list_lookup_insert_eq. apply lookup_lt_is_Some; eauto.
        -- destruct (Hdone j) as (item' & u & Hj1 & Hj'); [lia|].
           exists item', u. split; [|done].
           rewrite Hfiles, list_lookup_insert_ne in Hj1; done.
      * intros j Hj. rewrite Hrest by lia.
        rewrite Hfiles. apply list_lookup_insert_ne. lia.
      * intros Hnot. by rewrite (Hkeep Hnot).
      * intros Hy. by rewrite (Hlost Hy), Hk1.
      * eapply sameSettings_trans; eauto.
Qed.

Lemma resizeImage_length pica a i tw th w :
  length (files (resizeImage pica a i tw th w).1) = length (files w).
Proof.
  unfold resizeImage.
  destruct (files w !! i) as [item|]; [|done].
  destruct (decode a); [done|].
  destruct (resample a tw th); [done|].
  destruct (canvasToBlob _ _ _ _ _ _) as [[blob|]|e]; [| |done];
    destruct (revokeResized_spec item w) as (Hf & _); simpl;
    by rewrite ?length_insert, Hf.
Qed.

Lemma resizeAll_loop_length pica attempts tw th fuel :
  ∀ i completed w,
    length (files (resizeAll_loop pica attempts tw th fuel i completed w).1.1)
    = length (files w).
Proof.
  induction fuel as [|fuel IH]; intros i completed w; simpl; [done|].
  destruct (bool_decide _); [|done].
  pose proof (resizeImage_length pica (attempts i) i tw th w) as Hl.
  destruct (resizeImage pica (attempts i) i tw th w) as [w1 [e|]];
    simpl in *; [done|].
  by rewrite IH.
Qed.

(** The loop ends because the index reaches [state.files.length]: with the
    fuel [resizeAll] gives it, or any larger amount, the result is the same. *)
Lemma resizeAll_loop_fuel pica attempts tw th fuel :
  ∀ fuel' i completed w,
    (length (files w) ≤ i + fuel)%nat → (fuel ≤ fuel')%nat →
    resizeAll_loop pica attempts tw th fuel' i completed w
    = resizeAll_loop pica attempts tw th fuel i completed w.
Proof.
  induction fuel as [|fuel IH]; intros fuel' i completed w Hlen Hle.
  - destruct fuel' as [|fuel']; [done|]. simpl.
    rewrite bool_decide_eq_false_2 by lia. done.
  - destruct fuel' as [|fuel']; [lia|]. simpl.
    case_bool_decide; [|done].
    pose proof (resizeImage_length pica (attempts i) i tw th w) as Hl.
    destruct (resizeImage pica (attempts i) i tw th w) as [w1 [e|]]; [done|].
    simpl in Hl. apply IH; lia.
Qed.

Lemma resizeAll_loop_completes pica attempts tw th (b : nat → Blob.t) d :
  ∀ fuel i completed w,
    (i + d = length (files w))%nat → (d ≤ fuel)%nat →
    (∀ j, (i ≤ j < length (files w))%nat →
          succeeds pica (attempts j) tw th (outputFormat w) (quality w) (b j)) →
    ∃ w', resizeAll_loop pica attempts tw th fuel i completed w
          = (w', (completed + d)%nat, None)
      ∧ (∀ j, (i ≤ j < length (files w))%nat →
              ∃ item u, files w !! j = Some item
                ∧ files w' !! j
                  = Some (Item.with_resized (Some (b j)) (Some u) item))
      ∧ (∀ j, (j < i)%nat → files w' !! j = files w !! j)
      ∧ sameSettings w w'.
Proof.
  induction d as [|d IH]; intros fuel i completed w Hd Hfuel Hok.
  - exists w. rewrite Nat.add_0_r.
    assert (resizeAll_loop pica attempts tw th fuel i completed w
            = (w, completed, None)) as ->.
    { destruct fuel as [|fuel]; [done|]. simpl.
      rewrite bool_decide_eq_false_2 by lia. done. }
    split_and!; try done; try (intros; lia); apply sameSettings_refl.
  - destruct fuel as [|fuel]; [lia|]. simpl.
    rewrite bool_decide_eq_true_2 by lia.
    destruct (lookup_lt_is_Some_2 (files w) i) as [item Hitem]; [lia|].
    destruct (resizeImage_success pica (attempts i) i tw th w item (b i) Hitem)
      as (w1 & Hrun & Hfiles & _ & _ & _ & Hsame); [apply Hok; lia|].
    rewrite Hrun.
    assert (Hfmt : outputFormat w1 = outputFormat w) by apply Hsame.
    assert (Hq : quality w1 = quality w) by apply Hsame.
    assert (Hlen : length (files w1) = length (files w))
      by (by rewrite Hfiles, length_insert).
    destruct (IH fuel (S i) (S completed) w1)
      as (w' & Hloop & Hdone & Hrest & Hs'); try lia.
    + intros j Hj. rewrite Hfmt, Hq. apply Hok. lia.
    + exists w'. rewrite Hloop. split_and!.
      * f_equal. f_equal. lia.
      * intros j Hj. destruct (decide (j = i)) as [->|Hne].
        -- exists item, (nextUrl w). split; [done|].
           rewrite Hrest by lia. rewrite Hfiles.
           apply list_lookup_insert_eq. lia.
        -- destruct (Hdone j) as (item' & u & Hj1 & Hj'); [lia|].
           exists item', u. split; [|done].
           rewrite Hfiles, list_lookup_insert_ne in Hj1; done.
      * intros j Hj. rewrite Hrest by lia.
        rewrite Hfiles. apply list_lookup_insert_ne. lia.
      * eapply sameSettings_trans; eauto.
Qed.

(** When every item resizes, [resizeAll] installs an artifact on each and
    reports the size of the batch. *)
Lemma resizeAll_all_succeed pica attempts w (b : nat → Blob.t) :
  invalidDimensions (parseInt (widthInput w)) (parseInt (heightInput w))
  = false →
  (∀ j, (j < length (files w))%nat →
        succeeds pica (attempts j)
          (parseInt (widthInput w)) (parseInt (heightInput w))
          (outputFormat w) (quality w) (b j)) →
  (∀ j, (j < length (files w))%nat →
        ∃ item u, files w !! j = Some item
          ∧ files (resizeAll pica attempts w) !! j
            = Some (Item.with_resized (Some (b j)) (Some u) item))
  ∧ toasts (resizeAll pica attempts w)
    = toasts w ++ [AllResized (length (files w))].
Proof.
  intros Hvalid Hok. unfold resizeAll. rewrite Hvalid.
  destruct (resizeAll_loop_completes pica attempts
              (parseInt (widthInput w)) (parseInt (heightInput w)) b
              (length (files w)) (length (files w)) 0%nat 0%nat w)
    as (w' & Hloop & Hdone & _ & Hsame); try done.
  - intros j Hj. apply Hok. lia.
  - rewrite Hloop.
    destruct (selectFile_frame (Z.of_nat (activeIndex w')) w')
      as (Hf & Ht & _).
    cbn [files toasts showToast set_toasts]. rewrite Hf, Ht. split.
    + intros j Hj. apply Hdone. lia.
    + f_equal. apply Hsame.
Qed.

(** C1, as the code has it.  When the dimensions are valid, the items before
    [k] resize and item [k] fails at a stage, [resizeAll] installs a resized
    artifact on each item before [k], never attempts the items after [k] and
    leaves them as they were, and ends with the error toast for item [k]: no
    count of successes is reported.  Item [k] itself is as it was when its
    stage throws; when its encoder yields no blob it has lost its blob. *)
Theorem batch_stops_at_first_failure pica attempts w (b : nat → Blob.t) k e :
  invalidDimensions (parseInt (widthInput w)) (parseInt (heightInput w))
  = false →
  (k < length (files w))%nat →
  (∀ j, (j < k)%nat →
        succeeds pica (attempts j)
          (parseInt (widthInput w)) (parseInt (heightInput w))
          (outputFormat w) (quality w) (b j)) →
  stageFailure pica (attempts k)
    (parseInt (widthInput w)) (parseInt (heightInput w))
    (outputFormat w) (quality w) e →
  (∀ j, (j < k)%nat →
        ∃ item u, files w !! j = Some item
          ∧ files (resizeAll pica attempts w) !! j
            = Some (Item.with_resized (Some (b j)) (Some u) item))
  ∧ (∀ j, (k < j)%nat → files (resizeAll pica attempts w) !! j = files w !! j)
  ∧ (¬ yieldsNoBlob pica (attempts k)
         (parseInt (widthInput w)) (parseInt (heightInput w))
         (outputFormat w) (quality w) →
     files (resizeAll pica attempts w) !! k = files w !! k)
  ∧ (yieldsNoBlob pica (attempts k)
       (parseInt (widthInput w)) (parseInt (heightInput w))
       (outputFormat w) (quality w) →
     files (resizeAll pica attempts w) !! k
     = Item.with_resizedBlob None <$> files w !! k)
  ∧ length (files (resizeAll pica attempts w)) = length (files w)
  ∧ toasts (resizeAll pica attempts w) = toasts w ++ [ErrorDuringBatch e]
  ∧ (∀ n, AllResized n ∈ toasts (resizeAll pica attempts w) →
          AllResized n ∈ toasts w).
Proof.
  intros Hvalid Hlen Hok Hfail.
  assert (Hlength : length (files (resizeAll pica attempts w))
                    = length (files w)).
  { unfold resizeAll. rewrite Hvalid.
    pose proof (resizeAll_loop_length pica attempts
                  (parseInt (widthInput w)) (parseInt (heightInput w))
                  (length (files w)) 0%nat 0%nat w) as Hl.
    destruct (resizeAll_loop _ _ _ _ _ _ _ w) as [[w1 completed] [e'|]];
      simpl in *; [done|].
    by rewrite (proj1 (selectFile_frame _ w1)). }
  revert Hlength. unfold resizeAll. rewrite Hvalid.
  destruct (resizeAll_loop_stops pica attempts
              (parseInt (widthInput w)) (parseInt (heightInput w)) b k e k
              (length (files w)) 0%nat 0%nat w)
    as (w' & Hloop & Hdone & Hrest & Hkeep & Hlost & Hsame); try done.
  - intros j Hj. apply Hok. lia.
  - rewrite Hloop. cbn [files toasts showToast set_toasts].
    assert (Ht : toasts w' = toasts w) by apply Hsame.
    intros Hlength. rewrite Ht. split_and!; try done.
    + intros j Hj. apply Hdone. lia.
    + intros j Hj. apply Hrest. lia.
    + intros n Hn. apply elem_of_app in Hn as [Hn|Hn]; [done|].
      by apply list_elem_of_singleton in Hn.
Qed.

Lemma batch_stops_at_first_failure_witness :
  (∀ j, (j < 1)%nat →
        ∃ item u, files Sample.threeAt50x64 !! j = Some item
          ∧ files (resizeAll true (Sample.allBut 1) Sample.threeAt50x64) !! j
            = Some (Item.with_resized
                      (Some (Sample.encoded (js "image/jpeg"))) (Some u) item))
  ∧ (∀ j, (1 < j)%nat →
          files (resizeAll true (Sample.allBut 1) Sample.threeAt50x64) !! j
          = files Sample.threeAt50x64 !! j)
  ∧ files (resizeAll true (Sample.allBut 1) Sample.threeAt50x64) !! 1%nat
    = files Sample.threeAt50x64 !! 1%nat
  ∧ toasts (resizeAll true (Sample.allBut 1) Sample.threeAt50x64)
    = toasts Sample.threeAt50x64 ++ [ErrorDuringBatch ImageErrorEvent].
Proof.
  destruct (batch_stops_at_first_failure true (Sample.allBut 1)
              Sample.threeAt50x64 (λ _, Sample.encoded (js "image/jpeg")) 1
              ImageErrorEvent)
    as (Hbefore & Hafter & Hkeep & _ & _ & Htoast & _).
  - reflexivity.
  - vm_compute. lia.
  - intros [|j] Hj; [repeat split | lia].
  - apply decode_fails. reflexivity.
  - split_and!; try assumption.
    apply Hkeep. intros (Hd & _). discriminate Hd.
Defined.

(** C1 as the specification words it fails on a batch of three whose middle
    item does not decode: items 0 and 2 would resize, yet item 2 is never
    tried and the batch ends with an error instead of two successes. *)
Lemma batch_failure_counterexample :
  length (files Sample.threeAt50x64) = 3%nat
  ∧ succeeds true (Sample.allBut 1 0) (PInt 50) (PInt 64)
      (outputFormat Sample.threeAt50x64) (quality Sample.threeAt50x64)
      (Sample.encoded (js "image/jpeg"))
  ∧ succeeds true (Sample.allBut 1 2) (PInt 50) (PInt 64)
      (outputFormat Sample.threeAt50x64) (quality Sample.threeAt50x64)
      (Sample.encoded (js "image/jpeg"))
  ∧ stageFailure true (Sample.allBut 1 1) (PInt 50) (PInt 64)
      (outputFormat Sample.threeAt50x64) (quality Sample.threeAt50x64) ImageErrorEvent
  ∧ Item.resizedBlob <$> files (resizeAll true (Sample.allBut 1) Sample.threeAt50x64)
    = [Some (Sample.encoded (js "image/jpeg")); None; None]
  ∧ toasts (resizeAll true (Sample.allBut 1) Sample.threeAt50x64)
    = toasts Sample.threeAt50x64 ++ [ErrorDuringBatch ImageErrorEvent]
  ∧ ¬ (∃ n, AllResized n ∈ toasts (resizeAll true (Sample.allBut 1) Sample.threeAt50x64)).
Proof.
  split_and!; try (repeat split; fail); try reflexivity.
  - apply decode_fails. reflexivity.
  - intros [n Hn]. vm_compute in Hn.
    repeat (apply elem_of_cons in Hn as [Hn|Hn]; [discriminate|]).
    by apply elem_of_nil in Hn.
Qed.

(** ** Loading a submission *)

Lemma validateFiles_spec fileList :
  ∀ w, (validateFiles fileList w).1 = filter (λ f, accepted f = true) fileList
     ∧ files (validateFiles fileList w).2 = files w
     ∧ toasts (validateFiles fileList w).2
       = toasts w ++ omap rejection fileList.
Proof.
  induction fileList as [|f rest IH]; intros w; simpl.
  - rewrite app_nil_r. done.
  - unfold rejection.
    destruct (includes validTypes (File.type f)) eqn:Ht; simpl.
    + destruct (File.size f >? maxSize) eqn:Hs; simpl.
      * rewrite filter_cons_False by (unfold accepted; rewrite Ht, Hs; done).
        destruct (IH (showToast (FileTooLarge (File.name f)) w))
          as (-> & -> & ->).
        simpl. rewrite <- app_assoc. done.
      * rewrite filter_cons_True by (unfold accepted; rewrite Ht, Hs; done).
        destruct (IH w) as (H1 & H2 & H3).
        destruct (validateFiles rest w) as [newFiles w']. simpl in *.
        rewrite H1, H2, H3. done.
    + rewrite filter_cons_False by (unfold accepted; rewrite Ht; done).
      destruct (IH (showToast (UnsupportedFormat (File.name f)) w))
        as (-> & -> & ->).
      simpl. rewrite <- app_assoc. done.
Qed.

Lemma loadFiles_spec newFiles :
  ∀ w, files (loadFiles newFiles w) = files w ++ omap loaded newFiles
     ∧ toasts (loadFiles newFiles w) = toasts w ++ omap loadFailure newFiles.
Proof.
  induction newFiles as [|f rest IH]; intros w; simpl.
  - rewrite !app_nil_r. done.
  - unfold loaded, loadFailure. destruct (loadImage f) as [item|e].
    + destruct (IH (set_files (files w ++ [item]) w)) as (-> & ->).
      simpl. rewrite <- app_assoc. done.
    + destruct (IH (showToast (FailedToLoad (File.name f)) w)) as (-> & ->).
      simpl. rewrite <- app_assoc. done.
Qed.

Lemma handleFiles_spec fileList w :
  files (handleFiles fileList w)
  = files w ++ omap loaded (filter (λ f, accepted f = true) fileList)
  ∧ ∃ done,
      toasts (handleFiles fileList w)
      = toasts w ++ omap rejection fileList
        ++ omap loadFailure (filter (λ f, accepted f = true) fileList) ++ done.
Proof.
  unfold handleFiles.
  destruct (validateFiles_spec fileList w) as (H1 & H2 & H3).
  destruct (validateFiles fileList w) as [newFiles w1]. simpl in *. subst newFiles.
  set (newFiles := filter _ fileList).
  case_bool_decide as Hempty.
  - apply nil_length_inv in Hempty. rewrite Hempty, H2, H3. simpl.
    rewrite app_nil_r. split; [done|]. exists []. by rewrite app_nil_r.
  - destruct (loadFiles_spec newFiles w1) as (Hf & Ht).
    rewrite H2 in Hf. rewrite H3, <- app_assoc in Ht.
    case_bool_decide as Hnone.
    + split; [done|]. exists []. by rewrite app_nil_r.
    + destruct (selectFile_frame
                  (Z.of_nat (length (files (loadFiles newFiles w1)))
                   - Z.of_nat (length newFiles)) (loadFiles newFiles w1))
        as (Hsf & Hst & _).
      simpl. rewrite Hsf, Hst, Hf, Ht. split; [done|].
      exists [ImagesLoaded (length newFiles)]. by rewrite <- !app_assoc.
Qed.

Lemma accepted_spec f :
  accepted f = true ↔ File.type f ∈ validTypes ∧ File.size f <= maxSize.
Proof.
  unfold accepted, includes.
  rewrite andb_true_iff, bool_decide_eq_true, negb_true_iff.
  rewrite Z.gtb_ltb, Z.ltb_ge. done.
Qed.

Lemma loaded_file f item : loaded f = Some item → Item.file item = f.
Proof.
  unfold loaded, loadImage. destruct (File.content f); [|done].
  intros [= <-]. done.
Qed.

(** C3. [handleFiles] appends to the batch exactly the accepted files that
    decode, in submission order.  A file whose type is not on the allow-list
    gets the unsupported-format toast, one of an allowed type above 50 MiB
    the too-large toast; no item of the new batch comes from a rejected file;
    and an acceptable file that decodes is loaded whatever else was
    submitted with it.  50 MiB itself passes, 60 MiB does not. *)
Theorem rejected_files_stay_out fileList w :
  let batch := omap loaded (filter (λ f, accepted f = true) fileList) in
  files (handleFiles fileList w) = files w ++ batch
  ∧ (∀ f, f ∈ fileList → File.type f ∉ validTypes →
          UnsupportedFormat (File.name f) ∈ toasts (handleFiles fileList w))
  ∧ (∀ f, f ∈ fileList → File.type f ∈ validTypes → maxSize < File.size f →
          FileTooLarge (File.name f) ∈ toasts (handleFiles fileList w))
  ∧ (∀ item, item ∈ batch →
          Item.file item ∈ fileList
          ∧ File.type (Item.file item) ∈ validTypes
          ∧ File.size (Item.file item) <= maxSize)
  ∧ (∀ f img, f ∈ fileList → File.type f ∈ validTypes →
          File.size f <= maxSize → File.content f = Some img →
          ∃ item, item ∈ batch ∧ Item.file item = f
            ∧ Item.resizedBlob item = None)
  ∧ maxSize = 50 * 2 ^ 20 ∧ maxSize < 60 * 2 ^ 20.
Proof.
  intros batch.
  destruct (handleFiles_spec fileList w) as (Hfiles & done & Htoasts).
  split_and!; try done.
  - intros f Hf Htype. rewrite Htoasts.
    apply elem_of_app. right. apply elem_of_app. left.
    apply list_elem_of_omap. exists f. split; [done|].
    unfold rejection, includes. by rewrite bool_decide_eq_false_2.
  - intros f Hf Htype Hsize. rewrite Htoasts.
    apply elem_of_app. right. apply elem_of_app. left.
    apply list_elem_of_omap. exists f. split; [done|].
    unfold rejection, includes. rewrite bool_decide_eq_true_2 by done. simpl.
    destruct (File.size f >? maxSize) eqn:E; [done|].
    rewrite Z.gtb_ltb, Z.ltb_ge in E. lia.
  - intros item Hitem.
    apply list_elem_of_omap in Hitem as (f & Hf & Hload).
    apply list_elem_of_filter in Hf as [Hacc Hf].
    apply loaded_file in Hload as ->.
    apply accepted_spec in Hacc. done.
  - intros f img Hf Htype Hsize Hcontent.
    eexists. split_and!.
    + apply list_elem_of_omap. exists f. split.
      * apply list_elem_of_filter. split; [|done]. by apply accepted_spec.
      * unfold loaded, loadImage. rewrite Hcontent. reflexivity.
    + reflexivity.
    + reflexivity.
Qed.

(** A submission of a picture, a text file and a 60 MiB photo into the empty
    page: only the picture is loaded. *)
Example handleFiles_mixed_submission :
  let w := handleFiles
             [Sample.file "a.png" "image/png" 1000 (Some Sample.picture);
              Sample.file "notes.txt" "text/plain" 10 None;
              Sample.file "big.jpg" "image/jpeg" (60 * 2 ^ 20)
                (Some Sample.picture)] initial in
  (Item.file <$> files w)
  = [Sample.file "a.png" "image/png" 1000 (Some Sample.picture)]
  ∧ toasts w = [UnsupportedFormat (js "notes.txt"); FileTooLarge (js "big.jpg");
                ImagesLoaded 1].
Proof. split; reflexivity. Qed.

(** ** Savings *)

Lemma digits2_pos_size p : digits2_pos p = Pos.size p.
Proof. induction p; simpl; congruence. Qed.

Lemma digits2_pos_log2 p : Z.pos (digits2_pos p) = Z.log2 (Z.pos p) + 1.
Proof.
  rewrite digits2_pos_size. destruct p; simpl; try lia.
Qed.

Lemma digits2_pos_shift p k :
  digits2_pos (Pos.iter xO p k) = (digits2_pos p + k)%positive.
Proof.
  induction k using Pos.peano_ind.
  - simpl. lia.
  - rewrite Pos.iter_succ. simpl. rewrite IHk. lia.
Qed.

Lemma of_Z_safe p :
  Z.pos p < 2 ^ 53 → ∃ m e, of_Z (Z.pos p) = S754_finite false m e.
Proof.
  intros Hp.
  assert (Hd : Z.pos (digits2_pos p) <= 53).
  { rewrite digits2_pos_log2.
    assert (Z.log2 (Z.pos p) < 53) by (apply Z.log2_lt_pow2; lia). lia. }
  unfold of_Z, binary_normalize, binary_round.
  destruct (shl_align p 0 _) as [mz ez] eqn:Hal.
  assert (Hmz : Z.pos (digits2_pos mz) = 53 ∧ ez = Z.pos (digits2_pos p) - 53).
  { unfold shl_align, fexp, SpecFloat.emin, prec, emax in Hal.
    rewrite Z.add_0_r, Z.sub_0_r in Hal.
    rewrite Z.max_l in Hal by lia.
    destruct (Z.pos (digits2_pos p) - 53) as [|q|q] eqn:Hq; try lia.
    - injection Hal as <- <-. lia.
    - injection Hal as <- <-. rewrite digits2_pos_shift. lia. }
  destruct Hmz as [Hmz ->].
  unfold binary_round_aux, shr_fexp, fexp, SpecFloat.emin, prec, emax.
  cbn [Zdigits2]. rewrite Hmz.
  rewrite Z.max_l by lia.
  replace (53 + (Z.pos (digits2_pos p) - 53) - 53 - (Z.pos (digits2_pos p) - 53)) with 0 by lia.
  cbn [shr shr_record_of_loc shr_m loc_of_shr_record round_nearest_even Zdigits2].
  rewrite Hmz. rewrite Z.max_l by lia.
  replace (53 + (Z.pos (digits2_pos p) - 53) - 53 - (Z.pos (digits2_pos p) - 53)) with 0 by lia.
  cbn [shr shr_m].
  destruct (_ <=? _) eqn:E; [eauto|].
  apply Z.leb_gt in E. lia.
Qed.

Lemma percentOf_zero o :
  0 < o < 2 ^ 53 → percentOf 0 o = S754_zero false.
Proof.
  intros Ho. unfold percentOf.
  destruct o as [|p|p]; try lia.
  destruct (of_Z_safe p) as (m & e & ->); [lia|]. reflexivity.
Qed.



(** C9. When the resized blob is exactly as large as the original, the
    display takes the larger branch and shows ["0.0% larger"] in red; the
    smaller branch is taken only when the resized size is strictly below the
    original. *)
Theorem equal_size_reports_larger item blob w :
  Item.resizedBlob item = Some blob →
  0 < Item.originalSize item < 2 ^ 53 →
  (Blob.size blob = Item.originalSize item →
   ∃ w', showResults item w = Normal w'
     ∧ savedPercent w' = Some (js "0.0% larger")
     ∧ savedPercentColour w' = Some red)
  ∧ (∀ w', showResults item w = Normal w' →
           (savedPercentColour w' = Some green
            ↔ Blob.size blob < Item.originalSize item)).
Proof.
  intros Hblob Ho. split.
  - intros Heq. unfold showResults, savedBytes. rewrite Hblob, Heq, Z.sub_diag.
    simpl. rewrite percentOf_zero by done. eexists. split; [reflexivity|].
    split; reflexivity.
  - intros w'. unfold showResults, savedBytes. rewrite Hblob.
    destruct (_ >? 0) eqn:E; intros [= <-]; simpl.
    + rewrite Z.gtb_ltb, Z.ltb_lt in E. split; [lia|done].
    + rewrite Z.gtb_ltb, Z.ltb_ge in E. split; [done|lia].
Qed.

Lemma equal_size_reports_larger_witness :
  (∃ w', showResults (Sample.sized 1000 1000) initial = Normal w'
     ∧ savedPercent w' = Some (js "0.0% larger")
     ∧ savedPercentColour w' = Some red)
  ∧ (∀ w', showResults (Sample.sized 1000 1000) initial = Normal w' →
           (savedPercentColour w' = Some green ↔ 1000 < 1000)).
Proof.
  destruct (equal_size_reports_larger (Sample.sized 1000 1000)
              {| Blob.size := 1000; Blob.type := js "image/jpeg" |} initial)
    as (H1 & H2).
  - reflexivity.
  - simpl. lia.
  - split; [apply H1; reflexivity | exact H2].
Defined.

(** ** Download names *)

Lemma no_dot_forallb (s : jsstring) :
  forallb (λ d, negb (d =? Ch.dot)%N) s = true ↔ Ch.dot ∉ s.
Proof.
  induction s as [|c s IH]; simpl.
  - split; [intros _; apply not_elem_of_nil | done].
  - rewrite andb_true_iff, IH, not_elem_of_cons, negb_true_iff, N.eqb_neq.
    split; intros [Hc Hs]; (split; [|done]); intros Heq; by apply Hc.
Qed.

Lemma matchesExtension_spec s :
  matchesExtension s = true ↔ ∃ e, e ≠ [] ∧ (Ch.dot ∉ e) ∧ s = Ch.dot :: e.
Proof.
  destruct s as [|c rest]; simpl.
  - split; [done | intros (e & _ & _ & [=])].
  - rewrite !andb_true_iff, no_dot_forallb, negb_true_iff,
      bool_decide_eq_false, N.eqb_eq.
    split.
    + intros [[-> Hne] Hdot]. by exists rest.
    + intros (e & Hne & Hdot & [= -> ->]). done.
Qed.

Lemma removeExtension_unfold s :
  removeExtension s
  = if matchesExtension s then []
    else match s with
         | c :: rest => c :: removeExtension rest
         | [] => []
         end.
Proof. destruct s; reflexivity. Qed.

Lemma removeExtension_strips base e :
  e ≠ [] → Ch.dot ∉ e → removeExtension (base ++ Ch.dot :: e) = base.
Proof.
  intros Hne Hdot. induction base as [|c base IH];
    rewrite removeExtension_unfold.
  - assert (matchesExtension ([] ++ Ch.dot :: e) = true) as ->
      by (apply matchesExtension_spec; eauto).
    done.
  - destruct (matchesExtension ((c :: base) ++ Ch.dot :: e)) eqn:E.
    + apply matchesExtension_spec in E as (e' & _ & Hdot' & [= -> <-]).
      exfalso. apply Hdot'. apply elem_of_app. right. by left.
    + simpl. by rewrite IH.
Qed.

Lemma removeExtension_baseName name : baseNameOf name (removeExtension name).
Proof.
  induction name as [|c name IH]; rewrite removeExtension_unfold.
  - right. split; [done|]. intros [|? ?] e _ _; done.
  - destruct (matchesExtension (c :: name)) eqn:E.
    + apply matchesExtension_spec in E as (e & Hne & Hdot & [= -> ->]).
      left. by exists e.
    + destruct IH as [(e & Hne & Hdot & Heq)|[Heq Hno]].
      * left. exists e. split_and!; try done.
        rewrite Heq at 1. done.
      * right. rewrite Heq. split; [done|].
        intros [|c' b] e Hne Hdot [= -> ->].
        -- assert (matchesExtension (Ch.dot :: e) = true)
             by (apply matchesExtension_spec; eauto).
           congruence.
        -- by apply (Hno b e).
Qed.

Lemma downloadName_spec w tw th item :
  parseInt (widthInput w) = PInt tw → parseInt (heightInput w) = PInt th →
  Z.abs tw <= 2 ^ 53 → Z.abs th <= 2 ^ 53 →
  downloadName item w = Some (nameFor w tw th item).
Proof.
  intros Hw Hh Htw Hth. unfold downloadName, jsint_toString.
  rewrite Hw, Hh. simpl.
  destruct (Z.abs tw <=? _) eqn:E1; [|apply Z.leb_gt in E1; lia].
  destruct (Z.abs th <=? _) eqn:E2; [|apply Z.leb_gt in E2; lia].
  reflexivity.
Qed.

Lemma downloadAll_loop_spec tw th items :
  Z.abs tw <= 2 ^ 53 → Z.abs th <= 2 ^ 53 →
  ∀ w,
    parseInt (widthInput w) = PInt tw → parseInt (heightInput w) = PInt th →
    downloadAll_loop items w
    = Some (set_downloads
              (downloads w
               ++ ((λ item, (Item.resizedUrl item, nameFor w tw th item))
                   <$> items)) w).
Proof.
  intros Htw Hth. induction items as [|item items IH]; intros w Hw Hh; simpl.
  - rewrite app_nil_r. by destruct w.
  - rewrite (downloadName_spec _ tw th) by done. simpl.
    rewrite IH by done. unfold triggerDownload. simpl.
    rewrite <- app_assoc. reflexivity.
Qed.

(** C8. With integers of at most [2^53] in the two dimension fields, every
    download is named [base_WxH.ext]: [base] is the file name without its
    final extension, [W] and [H] are the target width and height the fields
    hold, and [ext] is [state.outputExt], the extension the selected format
    button set together with [state.outputFormat] (["jpg"] with
    ["image/jpeg"] at start).  [downloadCurrent] offers the active item's
    resized URL under that name, [downloadAll] each resized item's in turn. *)
Theorem download_name_form w tw th :
  parseInt (widthInput w) = PInt tw → parseInt (heightInput w) = PInt th →
  safe_integer tw → safe_integer th →
  (∀ item, suggested w tw th item (nameFor w tw th item))
  ∧ (∀ item, files w !! activeIndex w = Some item →
       is_Some (Item.resizedBlob item) →
       downloadCurrent w
       = Some (showToast DownloadStarted
                 (triggerDownload (Item.resizedUrl item)
                    (nameFor w tw th item) w)))
  ∧ (∃ w', downloadAll w = Some w'
       ∧ downloads w'
         = downloads w
           ++ ((λ item, (Item.resizedUrl item, nameFor w tw th item))
               <$> filter (λ f, is_Some (Item.resizedBlob f)) (files w)))
  ∧ (∀ format ext w0,
       outputFormat (formatBtn_onclick format ext w0) = format
       ∧ outputExt (formatBtn_onclick format ext w0) = ext)
  ∧ outputFormat initial = js "image/jpeg" ∧ outputExt initial = js "jpg".
Proof.
  intros Hw Hh Htw Hth. split_and!; try done.
  - intros item. exists (removeExtension (File.name (Item.file item))).
    split; [apply removeExtension_baseName | reflexivity].
  - intros item Hitem [blob Hblob]. unfold downloadCurrent.
    rewrite Hitem, Hblob, (downloadName_spec _ tw th) by done. reflexivity.
  - unfold downloadAll.
    set (resizedFiles := filter _ (files w)).
    case_bool_decide as Hempty.
    + apply nil_length_inv in Hempty. rewrite Hempty. eexists.
      split; [reflexivity|]. simpl. by rewrite app_nil_r.
    + rewrite (downloadAll_loop_spec tw th resizedFiles Htw Hth w Hw Hh).
      eexists. split; [reflexivity|]. reflexivity.
Qed.

Lemma download_name_form_witness :
  downloads <$> downloadCurrent Sample.resizedAt50x64
  = Some [(Some 0%nat, js "holiday_50x64.jpg")]
  ∧ (downloads <$> downloadAll Sample.resizedAt50x64)
    = Some [(Some 0%nat, js "holiday_50x64.jpg")].
Proof.
  destruct (download_name_form Sample.resizedAt50x64 50 64)
    as (_ & Hcurrent & (w' & Hall & Hlog) & _); try reflexivity;
    try (unfold safe_integer; simpl; lia).
  split.
  - rewrite (Hcurrent (Item.with_resized
                         (Some (Sample.encoded (js "image/jpeg"))) (Some 0%nat)
                         Sample.holiday)); [reflexivity | reflexivity | eauto].
  - rewrite Hall. simpl. rewrite Hlog. reflexivity.
Defined.

(** ** Aspect lock *)

Lemma selectFile_aspectRatio index w item :
  0 <= index → files w !! Z.to_nat index = Some item →
  activeIndex (selectFile index w) = Z.to_nat index
  ∧ aspectRatio (selectFile index w) = ratioOf item
  ∧ widthInput (selectFile index w) = decimal (Item.naturalWidth item)
  ∧ heightInput (selectFile index w) = decimal (Item.naturalHeight item).
Proof.
  intros Hpos Hitem. unfold selectFile.
  assert (Z.to_nat index < length (files w))%nat
    by (apply lookup_lt_is_Some; eauto).
  destruct (_ || _) eqn:E.
  - apply orb_true_iff in E as [E|E]; lia.
  - rewrite Hitem. destruct (Item.resizedBlob item) as [blob|] eqn:Hb; [|done].
    unfold showResults. rewrite Hb. destruct (_ >? 0); done.
Qed.

(** C4, as the code has it.  With the aspect ratio locked and
    [state.aspectRatio] the double [W / H] of the active item, typing a value
    that parses to [n] into the width field writes
    [Math.round(n / aspectRatio)] into the height field, and typing it into
    the height field writes [Math.round(n * aspectRatio)] into the width
    field, both in double precision; the field typed into keeps the typed
    text and nothing else changes. *)
Theorem locked_edit_recomputes_other w item value n th tw :
  aspectLocked w = true →
  files w !! activeIndex w = Some item →
  aspectRatio w = ratioOf item →
  value ≠ [] → parseInt value = PInt n →
  Number_toString (Math_round (fdiv (of_Z n) (ratioOf item))) = Some th →
  Number_toString (Math_round (fmul (of_Z n) (ratioOf item))) = Some tw →
  widthInput_oninput value w = Some (set_heightInput th (set_widthInput value w))
  ∧ heightInput_oninput value w
    = Some (set_widthInput tw (set_heightInput value w)).
Proof.
  intros Hlock _ Hratio Hne Hn Hth Htw.
  unfold widthInput_oninput, heightInput_oninput. simpl.
  rewrite Hlock, Hratio, Hn, bool_decide_eq_false_2 by done. simpl.
  rewrite Hth, Htw. done.
Qed.

Lemma locked_edit_recomputes_other_witness :
  widthInput_oninput (js "50") Sample.one
  = Some (set_heightInput (js "63") (set_widthInput (js "50") Sample.one))
  ∧ heightInput_oninput (js "50") Sample.one
    = Some (set_widthInput (js "39") (set_heightInput (js "50") Sample.one)).
Proof.
  apply (locked_edit_recomputes_other Sample.one Sample.holiday (js "50") 50).
  - reflexivity.
  - reflexivity.
  - reflexivity.
  - discriminate.
  - reflexivity.
  - reflexivity.
  - reflexivity.
Defined.

(** C4 as the specification words it fails for a picture of 100 x 127 pixels:
    typing 50 as the width, [50 * 127 / 100] is 63.5 and rounds to 64, in
    exact arithmetic and as [Math.round(50 * 127 / 100)] alike, but the code
    divides by the rounded ratio, gets 63.49999999999999 and writes 63. *)
Lemma locked_edit_counterexample :
  aspectLocked Sample.one = true
  ∧ files Sample.one !! activeIndex Sample.one = Some Sample.holiday
  ∧ Item.naturalWidth Sample.holiday = 100 ∧ Item.naturalHeight Sample.holiday = 127
  ∧ heightInput <$> widthInput_oninput (js "50") Sample.one = Some (js "63")
  ∧ decimal (nearest (50 * 127) 100) = js "64"
  ∧ Number_toString
      (Math_round (fdiv (fmul (of_Z 50) (of_Z 127)) (of_Z 100)))
    = Some (js "64").
Proof. split_and!; reflexivity. Qed.


(** ** Ownership of object URLs in every reachable world *)

Lemma urlsOwned_ext w w' :
  urlState w' = urlState w → urlsOwned w → urlsOwned w'.
Proof.
  unfold urlState, urlsOwned. intros [= Hf Hl Hn]. by rewrite Hf, Hl, Hn.
Qed.

Lemma showResults_urlState item w w' :
  showResults item w = Normal w' → urlState w' = urlState w.
Proof.
  unfold showResults. destruct (Item.resizedBlob item); [|done].
  destruct (_ >? 0); by intros [= <-].
Qed.

Lemma selectFile_urlState index w : urlState (selectFile index w) = urlState w.
Proof.
  destruct (selectFile_frame index w) as (Hf & _ & Hl & Hn).
  unfold urlState. by rewrite Hf, Hl, Hn.
Qed.

(** An item is rewritten in place, keeping or dropping its URL, and that URL
    is revoked. *)
Lemma urlsOwned_revoke w w' i item item' :
  urlsOwned w →
  files w !! i = Some item →
  files w' = <[i := item']> (files w) →
  (∀ u, Item.resizedUrl item' = Some u → Item.resizedUrl item = Some u) →
  liveUrls w' = withoutResized item (liveUrls w) →
  nextUrl w' = nextUrl w →
  urlsOwned w'.
Proof.
  intros (Hown & Hinj & Hfresh) Hitem Hfiles Hurl Hlive Hnext.
  assert (Hback : ∀ j x u, files w' !! j = Some x →
            Item.resizedUrl x = Some u →
            ∃ y, files w !! j = Some y ∧ Item.resizedUrl y = Some u).
  { intros j x u Hj Hu. rewrite Hfiles in Hj.
    apply list_lookup_insert_Some in Hj as [(<- & <- & _)|(Hne & Hj)]; eauto. }
  unfold urlsOwned. rewrite Hlive, Hnext. split_and!.
  - intros u Hu.
    destruct (Hown u) as (j & y & Hj & Hy);
      [by apply (withoutResized_subseteq item)|].
    destruct (decide (i = j)) as [->|Hne].
    + rewrite Hitem in Hj. injection Hj as <-.
      by apply (withoutResized_not_elem _ (liveUrls w)) in Hy.
    + exists j, y. by rewrite Hfiles, list_lookup_insert_ne.
  - intros j k x x' u Hj Hk Hu Hu'.
    destruct (Hback j x u Hj Hu) as (y & Hyj & Hy).
    destruct (Hback k x' u Hk Hu') as (y' & Hyk & Hy').
    by apply (Hinj j k y y' u).
  - intros j x u Hj Hu.
    destruct (Hback j x u Hj Hu) as (y & Hyj & Hy).
    by apply (Hfresh j y u).
Qed.

Lemma resizeImage_urlsOwned pica a i tw th w :
  urlsOwned w → urlsOwned (resizeImage pica a i tw th w).1.
Proof.
  intros Hinv. unfold resizeImage.
  destruct (files w !! i) as [item|] eqn:Hitem; [|done].
  destruct (decode a) eqn:Hd; [done|].
  destruct (resample a tw th) eqn:Hr; [done|].
  destruct (canvasToBlob _ _ _ _ _ _) as [[blob|]|e] eqn:Hc; [| |done].
  - destruct (resizeImage_success pica a i tw th w item blob Hitem)
      as (w' & Hrun & Hfiles & Hlive & Hnext & _); [done|].
    unfold resizeImage in Hrun. rewrite Hitem, Hd, Hr, Hc in Hrun.
    rewrite Hrun. by apply (urlsOwned_install w w' i item blob).
  - destruct (revokeResized_spec item w) as (Hf & Hl & Hn & _).
    apply (urlsOwned_revoke w _ i item (Item.with_resizedBlob None item));
      try done; simpl; by rewrite ?Hf, ?Hl, ?Hn.
Qed.

Lemma resizeCurrent_urlsOwned pica a w :
  urlsOwned w → urlsOwned (resizeCurrent pica a w).
Proof.
  intros Hinv. unfold resizeCurrent.
  destruct (files w !! activeIndex w); [|done].
  destruct (invalidDimensions _ _); [done|].
  destruct (_ || _); [done|].
  pose proof (resizeImage_urlsOwned pica a (activeIndex w)
                (parseInt (widthInput w)) (parseInt (heightInput w)) w Hinv)
    as Hrun.
  destruct (resizeImage pica a _ _ _ w) as [w1 [e|]]; simpl in Hrun; [done|].
  destruct (files w1 !! activeIndex w) as [item|]; [|done].
  destruct (showResults item w1) as [w2|e] eqn:Hshow; [|done].
  apply showResults_urlState in Hshow.
  apply (urlsOwned_ext w1); [|done].
  by rewrite <- Hshow.
Qed.

Lemma resizeAll_loop_urlsOwned pica attempts tw th fuel :
  ∀ i completed w,
    urlsOwned w →
    urlsOwned (resizeAll_loop pica attempts tw th fuel i completed w).1.1.
Proof.
  induction fuel as [|fuel IH]; intros i completed w Hinv; simpl; [done|].
  destruct (bool_decide _); [|done].
  pose proof (resizeImage_urlsOwned pica (attempts i) i tw th w Hinv) as Hrun.
  destruct (resizeImage pica (attempts i) i tw th w) as [w1 [e|]];
    simpl in Hrun; [done|].
  by apply IH.
Qed.

Lemma resizeAll_urlsOwned pica attempts w :
  urlsOwned w → urlsOwned (resizeAll pica attempts w).
Proof.
  intros Hinv. unfold resizeAll.
  destruct (invalidDimensions _ _); [done|].
  pose proof (resizeAll_loop_urlsOwned pica attempts
                (parseInt (widthInput w)) (parseInt (heightInput w))
                (length (files w)) 0%nat 0%nat w Hinv) as Hloop.
  destruct (resizeAll_loop _ _ _ _ _ _ _ w) as [[w1 completed] [e|]];
    simpl in Hloop; [done|].
  apply (urlsOwned_ext w1); [|done].
  apply (selectFile_urlState (Z.of_nat (activeIndex w1)) w1).
Qed.

Lemma validateFiles_urlState fileList :
  ∀ w, urlState (validateFiles fileList w).2 = urlState w.
Proof.
  induction fileList as [|f rest IH]; intros w; simpl; [done|].
  destruct (negb _); [by rewrite IH|].
  destruct (_ >? _); [by rewrite IH|].
  specialize (IH w). by destruct (validateFiles rest w).
Qed.

Lemma loadFiles_urls newFiles :
  ∀ w, liveUrls (loadFiles newFiles w) = liveUrls w
     ∧ nextUrl (loadFiles newFiles w) = nextUrl w.
Proof.
  induction newFiles as [|f rest IH]; intros w; simpl; [done|].
  destruct (loadImage f); by rewrite !(proj1 (IH _)), !(proj2 (IH _)).
Qed.

Lemma loaded_fresh f item : loaded f = Some item → Item.resizedUrl item = None.
Proof.
  unfold loaded, loadImage. destruct (File.content f); [|done].
  by intros [= <-].
Qed.

Lemma handleFiles_urlsOwned fileList w :
  urlsOwned w → urlsOwned (handleFiles fileList w).
Proof.
  intros (Hown & Hinj & Hfresh).
  destruct (handleFiles_spec fileList w) as (Hfiles & _).
  assert (Hurls : liveUrls (handleFiles fileList w) = liveUrls w
                  ∧ nextUrl (handleFiles fileList w) = nextUrl w).
  { unfold handleFiles.
    pose proof (validateFiles_urlState fileList w) as Hv.
    destruct (validateFiles fileList w) as [newFiles w1].
    injection Hv as _ Hl Hn. simpl in *.
    case_bool_decide; [done|].
    destruct (loadFiles_urls newFiles w1) as (Hl2 & Hn2).
    case_bool_decide; [by rewrite Hl2, Hn2|].
    simpl.
    destruct (selectFile_frame
                (Z.of_nat (length (files (loadFiles newFiles w1)))
                 - Z.of_nat (length newFiles)) (loadFiles newFiles w1))
      as (_ & _ & Hl3 & Hn3).
    by rewrite Hl3, Hn3, Hl2, Hn2. }
  destruct Hurls as [Hl Hn].
  assert (Hback : ∀ j x u, files (handleFiles fileList w) !! j = Some x →
            Item.resizedUrl x = Some u → files w !! j = Some x).
  { intros j x u Hj Hu. rewrite Hfiles in Hj.
    apply lookup_app_Some in Hj as [Hj|[_ Hj]]; [done|].
    apply list_elem_of_lookup_2, list_elem_of_omap in Hj as (f & _ & Hf).
    apply loaded_fresh in Hf. congruence. }
  unfold urlsOwned. rewrite Hl, Hn. split_and!.
  - intros u Hu. destruct (Hown u Hu) as (j & y & Hj & Hy).
    exists j, y. split; [|done]. rewrite Hfiles. by apply lookup_app_l_Some.
  - intros j k x x' u Hj Hk Hu Hu'.
    apply (Hinj j k x x' u); eauto.
  - intros j x u Hj Hu. apply (Hfresh j x u); eauto.
Qed.


Lemma resetBtn_urlsOwned w : urlsOwned w → urlsOwned (resetBtn_onclick w).
Proof.
  intros Hinv. unfold resetBtn_onclick.
  destruct (files w !! activeIndex w) as [item|] eqn:Hitem; [|done].
  destruct (revokeResized_spec item w) as (Hf & Hl & Hn & _ & Hs).
  assert (Hact : activeIndex (revokeResized item w) = activeIndex w)
    by apply Hs.
  apply (urlsOwned_ext
           (set_files (<[activeIndex w := Item.with_resized None None item]>
                         (files w)) (revokeResized item w))).
  - rewrite Hact, Hf.
    apply (selectFile_urlState _
             (set_files (<[activeIndex w := Item.with_resized None None item]>
                           (files w)) (revokeResized item w))).
  - apply (urlsOwned_revoke w _ (activeIndex w) item
             (Item.with_resized None None item)); try done.
Qed.

Lemma urlsOwned_delete w w' i item :
  urlsOwned w →
  files w !! i = Some item →
  files w' = delete i (files w) →
  liveUrls w' = withoutResized item (liveUrls w) →
  nextUrl w' = nextUrl w →
  urlsOwned w'.
Proof.
  intros (Hown & Hinj & Hfresh) Hitem Hfiles Hlive Hnext.
  assert (Hback : ∀ j x, files w' !! j = Some x →
            files w !! (if decide (j < i)%nat then j else S j) = Some x).
  { intros j x Hj. rewrite Hfiles in Hj. case_decide.
    - by rewrite list_lookup_delete_lt in Hj.
    - by rewrite list_lookup_delete_ge in Hj by lia. }
  unfold urlsOwned. rewrite Hlive, Hnext. split_and!.
  - intros u Hu.
    destruct (Hown u) as (j & y & Hj & Hy);
      [by apply (withoutResized_subseteq item)|].
    destruct (decide (i = j)) as [->|Hne].
    + rewrite Hitem in Hj. injection Hj as <-.
      by apply (withoutResized_not_elem _ (liveUrls w)) in Hy.
    + destruct (decide (j < i)%nat).
      * exists j, y. by rewrite Hfiles, list_lookup_delete_lt.
      * exists (pred j), y. rewrite Hfiles, list_lookup_delete_ge by lia.
        by replace (S (pred j)) with j by lia.
  - intros j k x x' u Hj Hk Hu Hu'.
    apply Hback in Hj. apply Hback in Hk.
    pose proof (Hinj (if decide (j < i)%nat then j else S j)
                  (if decide (k < i)%nat then k else S k) x x' u
                  Hj Hk Hu Hu') as Heq.
    repeat case_decide; lia.
  - intros j x u Hj Hu. apply Hback in Hj. exact (Hfresh _ x u Hj Hu).
Qed.

Lemma revokeAll_spec items :
  ∀ w, files (foldl (λ acc item, revokeResized item acc) w items) = files w
     ∧ liveUrls (foldl (λ acc item, revokeResized item acc) w items)
       = liveUrls w ∖ urlsOf items
     ∧ nextUrl (foldl (λ acc item, revokeResized item acc) w items)
       = nextUrl w.
Proof.
  induction items as [|item items IH]; intros w.
  - split_and!; try done. apply set_eq. intros u.
    unfold urlsOf. rewrite elem_of_difference, elem_of_list_to_set.
    split; [|tauto]. intros Hu. split; [done|]. apply not_elem_of_nil.
  - change (foldl ?f w (item :: items))
      with (foldl f (revokeResized item w) items).
    destruct (IH (revokeResized item w)) as (-> & -> & ->).
    destruct (revokeResized_spec item w) as (-> & -> & -> & _).
    split_and!; try done.
    apply set_eq. intros x. unfold urlsOf, withoutResized.
    rewrite !elem_of_difference, !elem_of_list_to_set. simpl.
    destruct (Item.resizedUrl item) as [u|];
      rewrite ?elem_of_difference, ?elem_of_cons, ?elem_of_singleton; tauto.
Qed.

Lemma clearAll_urlsOwned w : urlsOwned w → urlsOwned (clearAll w).
Proof.
  intros (Hown & _ & _). unfold clearAll.
  destruct (revokeAll_spec (files w) w) as (Hf & Hl & Hn).
  unfold urlsOwned. simpl. rewrite Hl. split_and!.
  - intros u Hu. apply elem_of_difference in Hu as [Hu Hnot].
    destruct (Hown u Hu) as (j & y & Hj & Hy).
    exfalso. apply Hnot. unfold urlsOf.
    apply elem_of_list_to_set, list_elem_of_omap.
    exists y. split; [|done]. by apply list_elem_of_lookup_2 in Hj.
  - intros j k x x' u Hj. by destruct j.
  - intros j x u Hj. by destruct j.
Qed.

Lemma removeFile_urlsOwned index w w' :
  urlsOwned w → removeFile index w = Normal w' → urlsOwned w'.
Proof.
  intros Hinv. unfold removeFile.
  destruct (files w !! index) as [item|] eqn:Hitem; [|done].
  destruct (revokeResized_spec item w) as (Hf & Hl & Hn & _).
  set (w2 := set_files (delete index (files (revokeResized item w)))
               (revokeResized item w)).
  assert (Hw2 : urlsOwned w2).
  { apply (urlsOwned_delete w w2 index item); try done.
    unfold w2. simpl. by rewrite Hf. }
  case_bool_decide.
  - intros [= <-]. by apply clearAll_urlsOwned.
  - intros [= <-]. apply (urlsOwned_ext w2); [|done].
    case_bool_decide; (etrans; [apply selectFile_urlState | reflexivity]).
Qed.

Lemma widthInput_oninput_urlState value w w' :
  widthInput_oninput value w = Some w' → urlState w' = urlState w.
Proof.
  unfold widthInput_oninput. simpl.
  destruct (_ && _); [|by intros [= <-]].
  destruct (negb _); [|by intros [= <-]].
  destruct (Number_toString _); simpl; [by intros [= <-]|done].
Qed.

Lemma heightInput_oninput_urlState value w w' :
  heightInput_oninput value w = Some w' → urlState w' = urlState w.
Proof.
  unfold heightInput_oninput. simpl.
  destruct (_ && _); [|by intros [= <-]].
  destruct (negb _); [|by intros [= <-]].
  destruct (Number_toString _); simpl; [by intros [= <-]|done].
Qed.

Lemma downloadAll_loop_urlState items :
  ∀ w w', downloadAll_loop items w = Some w' → urlState w' = urlState w.
Proof.
  induction items as [|item items IH]; intros w w'; simpl.
  - by intros [= <-].
  - destruct (downloadName item w) as [filename|]; simpl; [|done].
    intros Hloop. by rewrite (IH _ _ Hloop).
Qed.

Lemma downloadCurrent_urlState w w' :
  downloadCurrent w = Some w' → urlState w' = urlState w.
Proof.
  unfold downloadCurrent.
  destruct (files w !! activeIndex w) as [item|]; [|by intros [= <-]].
  destruct (Item.resizedBlob item); [|by intros [= <-]].
  destruct (downloadName item w); simpl; [by intros [= <-]|done].
Qed.

Lemma downloadAll_urlState w w' :
  downloadAll w = Some w' → urlState w' = urlState w.
Proof.
  unfold downloadAll. case_bool_decide; [by intros [= <-]|].
  destruct (downloadAll_loop _ w) as [w1|] eqn:Hloop; simpl; [|done].
  intros [= <-]. by rewrite <- (downloadAll_loop_urlState _ _ _ Hloop).
Qed.

(** A preset click writes the two fields and shows its toast; the batch,
    the URLs and the selection are as before. *)
Lemma presetBtn_onclick_frame name dataW dataH w w' :
  presetBtn_onclick name dataW dataH w = Some w' →
  urlState w' = urlState w ∧ activeIndex w' = activeIndex w.
Proof.
  unfold presetBtn_onclick. case_bool_decide; [by intros [= <-]|].
  destruct (jsint_toString (parseInt dataW)); simpl; [|done].
  destruct (jsint_toString (parseInt dataH)); simpl; [|done].
  by intros [= <-].
Qed.

(** In every reachable world each live object URL is the [resizedUrl] of
    exactly one item: no item ever holds a second live artifact, and no
    artifact outlives its item. *)
Lemma reachable_urlsOwned pica w : reachable pica w → urlsOwned w.
Proof.
  induction 1 as [ | | index w _ IH | | | value w w' _ IH Hev
                   | value w w' _ IH Hev | | | | | | w w' _ IH Hev
                   | w w' _ IH Hev | name dataW dataH w w' _ IH Hev
                   | value w _ IH ].
  - apply urlsOwned_initial.
  - by apply handleFiles_urlsOwned.
  - apply (urlsOwned_ext w); [apply selectFile_urlState | done].
  - by eapply removeFile_urlsOwned.
  - by apply clearAll_urlsOwned.
  - apply (urlsOwned_ext w); [by eapply widthInput_oninput_urlState | done].
  - apply (urlsOwned_ext w); [by eapply heightInput_oninput_urlState | done].
  - done.
  - by apply resetBtn_urlsOwned.
  - done.
  - by apply resizeCurrent_urlsOwned.
  - by apply resizeAll_urlsOwned.
  - apply (urlsOwned_ext w); [by eapply downloadCurrent_urlState | done].
  - apply (urlsOwned_ext w); [by eapply downloadAll_urlState | done].
  - apply (urlsOwned_ext w); [by eapply presetBtn_onclick_frame | done].
  - done.
Qed.

(** C7. In every world the page can reach, a successful [resizeImage]
    replaces the item's resized artifact: the previous object URL, if there
    was one, is revoked before the new one is created, the new blob and URL
    take the place of the old ones in the item, the old URL is no longer live
    and the new one is; afterwards every live URL is still the [resizedUrl] of
    exactly one item, so no item holds a second live artifact. *)
Theorem successful_resize_replaces pica a i tw th w item blob :
  reachable pica w →
  files w !! i = Some item →
  succeeds pica a tw th (outputFormat w) (quality w) blob →
  ∃ w', resizeImage pica a i tw th w = (w', None)
    ∧ files w'
      = <[i := Item.with_resized (Some blob) (Some (nextUrl w)) item]> (files w)
    ∧ urlEvents w' = urlEvents w ++ released item ++ [Created (nextUrl w)]
    ∧ (∀ u, Item.resizedUrl item = Some u → u ∉ liveUrls w')
    ∧ nextUrl w ∈ liveUrls w'
    ∧ urlsOwned w'.
Proof.
  intros Hreach Hitem Hok.
  pose proof (reachable_urlsOwned pica w Hreach) as Hinv.
  destruct (resizeImage_success pica a i tw th w item blob Hitem Hok)
    as (w' & Hrun & Hfiles & Hlive & Hnext & Hev & _).
  exists w'. split_and!; try done.
  - intros u Hu. rewrite Hlive. intros Hin.
    apply elem_of_union in Hin as [Hin|Hin].
    + apply elem_of_singleton in Hin as ->.
      destruct Hinv as (_ & _ & Hfresh).
      apply (Hfresh _ _ _ Hitem) in Hu. lia.
    + by apply (withoutResized_not_elem _ (liveUrls w)) in Hu.
  - rewrite Hlive. apply elem_of_union_l. by apply elem_of_singleton.
  - by apply (urlsOwned_install w w' i item blob).
Qed.

Lemma reachable_resizedAt50x64 : reachable true Sample.resizedAt50x64.
Proof.
  apply reach_resizeCurrent.
  apply (reach_heightInput true (js "64")
           (set_widthInput (js "50") (lockAspect_onclick Sample.one)));
    [|reflexivity].
  apply (reach_widthInput true (js "50") (lockAspect_onclick Sample.one));
    [|reflexivity].
  apply reach_lockAspect, reach_handleFiles, reach_initial.
Defined.

Lemma successful_resize_replaces_witness :
  ∃ w', resizeImage true Sample.works 0 (PInt 50) (PInt 64)
          Sample.resizedAt50x64 = (w', None)
    ∧ files w'
      = <[0%nat := Item.with_resized (Some (Sample.encoded (js "image/jpeg")))
                     (Some (nextUrl Sample.resizedAt50x64))
                     (Item.with_resized
                        (Some (Sample.encoded (js "image/jpeg"))) (Some 0%nat)
                        Sample.holiday)]> (files Sample.resizedAt50x64)
    ∧ urlEvents w'
      = urlEvents Sample.resizedAt50x64
        ++ released (Item.with_resized
                       (Some (Sample.encoded (js "image/jpeg"))) (Some 0%nat)
                       Sample.holiday)
        ++ [Created (nextUrl Sample.resizedAt50x64)]
    ∧ (∀ u, Item.resizedUrl
              (Item.with_resized
                 (Some (Sample.encoded (js "image/jpeg"))) (Some 0%nat)
                 Sample.holiday)
            = Some u → u ∉ liveUrls w')
    ∧ nextUrl Sample.resizedAt50x64 ∈ liveUrls w'
    ∧ urlsOwned w'.
Proof.
  apply (successful_resize_replaces true Sample.works 0 (PInt 50) (PInt 64)
           Sample.resizedAt50x64
           (Item.with_resized (Some (Sample.encoded (js "image/jpeg")))
              (Some 0%nat) Sample.holiday)
           (Sample.encoded (js "image/jpeg"))).
  - exact reachable_resizedAt50x64.
  - reflexivity.
  - repeat split.
Defined.

(** ** Remarks *)

(** When Pica's [toBlob] promise resolves with [null], no stage has thrown:
    [resizeImage] revokes the old URL and clears the blob before
    [URL.createObjectURL(null)] raises the [TypeError]. *)
Lemma resizeImage_null_blob a i tw th w item :
  files w !! i = Some item →
  decode a = None → resample a tw th = None →
  outputFormat w ≠ js "image/png" →
  picaToBlob a tw th (outputFormat w) (quality w) = Resolved None →
  (resizeImage true a i tw th w).2 = Some TypeError
  ∧ files (resizeImage true a i tw th w).1
    = <[i := Item.with_resizedBlob None item]> (files w)
  ∧ liveUrls (resizeImage true a i tw th w).1
    = withoutResized item (liveUrls w).
Proof.
  intros Hitem Hd Hr Hfmt Hblob. unfold resizeImage, canvasToBlob.
  rewrite Hitem, Hd, Hr, bool_decide_eq_false_2, Hblob by done. simpl.
  destruct (revokeResized_spec item w) as (-> & -> & _). done.
Qed.

(** In a batch resized before, the encoder yields no blob for the middle
    picture: the first is resized again, the middle one has lost its blob and
    its URL is revoked, and the third is not tried. *)
Example batch_null_blob_clears_item :
  let w := resizeAll true (λ _, Sample.works) Sample.threeAt50x64 in
  let w' := resizeAll true
              (λ i, if bool_decide (i = 1%nat) then Sample.blobless
                    else Sample.works) w in
  Item.resizedBlob <$> files w'
  = [Some (Sample.encoded (js "image/jpeg")); None;
     Some (Sample.encoded (js "image/jpeg"))]
  ∧ Item.resizedUrl <$> files w' = [Some 3%nat; Some 1%nat; Some 2%nat]
  ∧ urlEvents w' = urlEvents w ++ [Revoked 0%nat; Created 3%nat; Revoked 1%nat]
  ∧ toasts w' = toasts w ++ [ErrorDuringBatch TypeError].
Proof. by vm_compute. Qed.

(** After [resizeAll] the two fields hold the natural size of the active
    item again ([selectFile] rewrites them), so a following [downloadAll]
    names the 50 x 64 artifacts after 100 x 127. *)
Example downloadAll_after_resizeAll :
  downloads <$> downloadAll (resizeAll true (λ _, Sample.works) Sample.threeAt50x64)
  = Some [(Some 0%nat, js "a_100x127.jpg");
          (Some 1%nat, js "b_100x127.jpg");
          (Some 2%nat, js "c_100x127.jpg")].
Proof. reflexivity. Qed.

(** For a picture of 1920 x 1080 the fields written under the aspect lock
    are [nearest (n * 1080) 1920] and [nearest (n * 1920) 1080] for every
    typed [n] from 1 to 1000. *)
Example locked_edit_agrees_1920x1080 :
  forallb (agreesWithNearest 1920 1080) (Z.of_nat <$> seq 1 1000) = true.
Proof. vm_compute. reflexivity. Qed.

(** The percentage is a double: for sizes 80 and 29 the quotient
    [(51 / 80) * 100] comes out just below 63.75 and is shown as 63.7. *)
Example savings_of_80_and_29 :
  toFixed1 (percentOf (Z.abs (80 - 29)) 80) = Some (js "63.7").
Proof. reflexivity. Qed.

(** * Further properties *)

(** ** Numbers written to a field and read back *)

Lemma digit_cases d :
  0 <= d <= 9 →
  d = 0 ∨ d = 1 ∨ d = 2 ∨ d = 3 ∨ d = 4 ∨ d = 5 ∨ d = 6 ∨ d = 7 ∨ d = 8 ∨ d = 9.
Proof. lia. Qed.

(** What [parseInt] needs to know about a decimal digit. *)
Lemma digit_facts d :
  0 <= d <= 9 →
  let c := Z.to_N (48 + d) in
  digitValue 10 c = Some d ∧ isWhiteSpace c = false
  ∧ (c =? Ch.minus)%N = false ∧ (c =? Ch.plus)%N = false
  ∧ (c =? Ch.x)%N = false ∧ (c =? Ch.X)%N = false.
Proof.
  intros Hd. destruct (digit_cases d Hd) as [->|[->|[->|[->|[->|[->|[->|[->|[->| ->]]]]]]]]];
    repeat split.
Qed.

Lemma decimal_digits_value fuel :
  ∀ n acc a,
    (0 < fuel)%nat → 0 <= n < 10 ^ Z.of_nat fuel → default 0 a = 0 →
    digitsValue 10 a (decimal_digits fuel n acc)
    = digitsValue 10 (Some n) acc.
Proof.
  induction fuel as [|fuel IH]; intros n acc a Hfuel Hn Ha; [lia|].
  simpl decimal_digits.
  assert (Hmod : 0 <= n mod 10 <= 9) by (pose proof (Z.mod_pos_bound n 10); lia).
  destruct (digit_facts (n mod 10) Hmod) as (Hdigit & _).
  destruct (n <? 10) eqn:Hlt.
  - apply Z.ltb_lt in Hlt. simpl. rewrite Hdigit, Ha.
    rewrite Z.mod_small by lia. f_equal.
  - apply Z.ltb_ge in Hlt.
    assert (fuel ≠ 0%nat).
    { intros ->. simpl in Hn. lia. }
    rewrite IH; [| lia | | done].
    + simpl. rewrite Hdigit. do 2 f_equal.
      pose proof (Z.div_mod n 10). lia.
    + rewrite Nat2Z.inj_succ, Z.pow_succ_r in Hn by lia.
      split; [apply Z.div_pos; lia|].
      apply Z.div_lt_upper_bound; lia.
Qed.

Lemma decimal_digits_shape fuel :
  ∀ n acc,
    (0 < fuel)%nat → 0 <= n →
    (∀ c, c ∈ acc → ∃ d, 0 <= d <= 9 ∧ c = Z.to_N (48 + d)) →
    (∀ c, c ∈ decimal_digits fuel n acc →
          ∃ d, 0 <= d <= 9 ∧ c = Z.to_N (48 + d))
    ∧ decimal_digits fuel n acc ≠ [].
Proof.
  induction fuel as [|fuel IH]; intros n acc Hfuel Hn Hacc; [lia|].
  simpl decimal_digits.
  assert (Hmod : 0 <= n mod 10 <= 9) by (pose proof (Z.mod_pos_bound n 10); lia).
  assert (Hacc' : ∀ c, c ∈ Z.to_N (48 + n mod 10) :: acc →
                      ∃ d, 0 <= d <= 9 ∧ c = Z.to_N (48 + d)).
  { intros c Hc. apply elem_of_cons in Hc as [->|Hc]; eauto. }
  destruct (n <? 10); [done|].
  destruct fuel as [|fuel]; [done|].
  apply IH; [lia | apply Z.div_pos; lia | done].
Qed.

Lemma log2_fuel n : 0 <= n → n < 10 ^ Z.of_nat (S (Z.to_nat (Z.log2 n))).
Proof.
  intros Hn. rewrite Nat2Z.inj_succ, Z2Nat.id by apply Z.log2_nonneg.
  destruct (decide (n = 0)) as [->|Hne]; [done|].
  pose proof (Z.log2_spec n) as [_ Hlog]; [lia|].
  eapply Z.lt_le_trans; [exact Hlog|].
  apply Z.pow_le_mono_l. pose proof (Z.log2_nonneg n). lia.
Qed.

Lemma parseDigits_digits s :
  s ≠ [] →
  (∀ c, c ∈ s → ∃ d, 0 <= d <= 9 ∧ c = Z.to_N (48 + d)) →
  trimStart s = s ∧ stripSign s = (false, s) ∧ stripPrefix s = (10, s).
Proof.
  intros Hne Hall. destruct s as [|c0 s]; [done|].
  destruct (Hall c0) as (d0 & Hd0 & ->); [by left|].
  destruct (digit_facts d0 Hd0) as (_ & Hws & Hm & Hp & _).
  simpl. rewrite Hws, Hm, Hp. split_and!; try done.
  destruct s as [|c1 s]; [done|].
  destruct (Hall c1) as (d1 & Hd1 & ->); [right; by left|].
  destruct (digit_facts d1 Hd1) as (_ & _ & _ & _ & Hx & HX).
  rewrite Hx, HX, andb_false_r. done.
Qed.

(** The decimal numeral of an integer parses back to it. *)
Lemma parseInt_decimal z : parseInt (decimal z) = PInt z.
Proof.
  unfold decimal.
  set (n := Z.abs z).
  set (ds := decimal_digits (S (Z.to_nat (Z.log2 n))) n []).
  assert (Hn : 0 <= n) by (unfold n; lia).
  destruct (decimal_digits_shape (S (Z.to_nat (Z.log2 n))) n [])
    as (Hall & Hne); [lia | done | intros c Hc; by apply elem_of_nil in Hc |].
  fold ds in Hall, Hne.
  destruct (parseDigits_digits ds Hne Hall) as (Htrim & Hsign & Hprefix).
  assert (Hval : digitsValue 10 None ds = Some n).
  { unfold ds. rewrite decimal_digits_value; try done; [lia|].
    split; [done | by apply log2_fuel]. }
  destruct (z <? 0) eqn:Hz.
  - apply Z.ltb_lt in Hz.
    change (parseInt (Ch.minus :: ds)) with (parseDigits (Ch.minus :: ds)).
    unfold parseDigits.
    change (stripSign (Ch.minus :: ds)) with (true, ds).
    cbv beta iota. rewrite Hprefix, Hval.
    f_equal. unfold n. lia.
  - apply Z.ltb_ge in Hz. unfold parseInt. rewrite Htrim.
    unfold parseDigits. rewrite Hsign, Hprefix, Hval.
    f_equal. unfold n. lia.
Qed.

(** X1.  [selectFile] writes the natural size into the fields as text; read back
    by [parseInt], as [resizeCurrent] and [resizeAll] do, the text is the
    natural size again. *)
Theorem selected_size_parses_back index w item :
  0 <= index → files w !! Z.to_nat index = Some item →
  parseInt (widthInput (selectFile index w)) = PInt (Item.naturalWidth item)
  ∧ parseInt (heightInput (selectFile index w))
    = PInt (Item.naturalHeight item).
Proof.
  intros Hpos Hitem.
  destruct (selectFile_aspectRatio index w item Hpos Hitem)
    as (_ & _ & -> & ->).
  split; apply parseInt_decimal.
Qed.

Lemma selected_size_parses_back_witness :
  parseInt (widthInput (selectFile 0 Sample.three)) = PInt 100
  ∧ parseInt (heightInput (selectFile 0 Sample.three)) = PInt 127.
Proof.
  apply (selected_size_parses_back 0 Sample.three
           (Item.with_resized None None
              {| Item.file := Sample.file "a.png" "image/png" 1000
                                (Some Sample.picture);
                 Item.originalUrl := Image.dataUrl Sample.picture;
                 Item.naturalWidth := 100; Item.naturalHeight := 127;
                 Item.originalSize := 1000;
                 Item.resizedBlob := None; Item.resizedUrl := None |})).
  - lia.
  - reflexivity.
Defined.

(** ** The scale text *)

Lemma div_eucl_pair a b : Z.div_eucl a b = (a / b, a mod b).
Proof. unfold Z.div, Z.modulo. by destruct (Z.div_eucl a b). Qed.

(** A positive double divided by itself is one. *)
Lemma fdiv_self m e :
  fdiv (S754_finite false m e) (S754_finite false m e) = of_Z 1.
Proof.
  unfold fdiv, SFdiv, SFdiv_core_binary.
  replace (Zdigits2 (Z.pos m) + e - (Zdigits2 (Z.pos m) + e)) with 0 by lia.
  rewrite Z.sub_diag.
  change (Z.min (fexp prec emax 0) 0) with (-53).
  change (0 - -53) with 53.
  cbv beta iota zeta.
  rewrite Z.shiftl_mul_pow2 by lia.
  rewrite div_eucl_pair.
  rewrite Z.mul_comm, Z.div_mul, Z.mod_mul by lia.
  unfold new_location.
  destruct (Z.even (Z.pos m)); reflexivity.
Qed.

(** X2.  Right after a picture is selected the scale reads 100%. *)
Theorem scale_of_selected_is_100 index w item :
  0 <= index → files w !! Z.to_nat index = Some item →
  0 < Item.naturalWidth item < 2 ^ 53 →
  updateScalePercent (selectFile index w) = Some (of_Z 100)
  ∧ scaleText (selectFile index w) = Some (js "100%").
Proof.
  intros Hpos Hitem HW.
  assert (Hscale : updateScalePercent (selectFile index w) = Some (of_Z 100)).
  { unfold updateScalePercent.
    destruct (selected_size_parses_back index w item Hpos Hitem) as (-> & _).
    assert (originalWidth (selectFile index w) = Item.naturalWidth item) as ->.
    { unfold selectFile.
      assert (Z.to_nat index < length (files w))%nat
        by (apply lookup_lt_is_Some; eauto).
      destruct (_ || _) eqn:E.
      - apply orb_true_iff in E as [E|E]; lia.
      - rewrite Hitem.
        destruct (Item.resizedBlob item) as [blob|] eqn:Hb; [|done].
        unfold showResults. rewrite Hb. destruct (_ >? 0); done. }
    simpl.
    destruct (Item.naturalWidth item >? 0) eqn:E;
      [|rewrite Z.gtb_ltb, Z.ltb_ge in E; lia].
    destruct (Item.naturalWidth item) as [|p|p] eqn:Hw; try lia.
    destruct (of_Z_safe p) as (m & e & ->); [lia|].
    rewrite fdiv_self. reflexivity. }
  split; [done|]. unfold scaleText. rewrite Hscale. reflexivity.
Qed.

Lemma scale_of_selected_is_100_witness :
  updateScalePercent (selectFile 0 Sample.one) = Some (of_Z 100)
  ∧ scaleText (selectFile 0 Sample.one) = Some (js "100%").
Proof.
  apply (scale_of_selected_is_100 0 Sample.one Sample.holiday).
  - lia.
  - reflexivity.
  - simpl. lia.
Defined.

(** ** Presets and the quality slider *)

(** X3.  A preset other than Custom writes the two sizes its button carries into
    the fields, whatever the lock and the ratio are, and shows the toast that
    names the preset and the sizes: the lock is as before, no field is
    recomputed from the other, the batch is untouched, and the fields read
    back as the button's sizes. *)
Theorem preset_writes_both_fields name dataW dataH n m w :
  name ≠ js "Custom" →
  parseInt dataW = PInt n → parseInt dataH = PInt m →
  Z.abs n <= 2 ^ 53 → Z.abs m <= 2 ^ 53 →
  ∃ w', presetBtn_onclick name dataW dataH w = Some w'
    ∧ w' = showToast (PresetApplied name (PInt n) (PInt m))
             (withFields (decimal n) (decimal m) w)
    ∧ toasts w' = toasts w ++ [PresetApplied name (PInt n) (PInt m)]
    ∧ parseInt (widthInput w') = PInt n
    ∧ parseInt (heightInput w') = PInt m
    ∧ aspectLocked w' = aspectLocked w
    ∧ aspectRatio w' = aspectRatio w
    ∧ files w' = files w.
Proof.
  intros Hname Hw Hh Hn Hm.
  exists (showToast (PresetApplied name (PInt n) (PInt m))
            (withFields (decimal n) (decimal m) w)).
  split_and!; try (by destruct w); try apply parseInt_decimal.
  unfold presetBtn_onclick.
  rewrite bool_decide_eq_false_2 by done.
  rewrite Hw, Hh. simpl.
  destruct (Z.abs n <=? 2 ^ 53) eqn:En; [|apply Z.leb_gt in En; lia].
  destruct (Z.abs m <=? 2 ^ 53) eqn:Em; [|apply Z.leb_gt in Em; lia].
  simpl. by destruct w.
Qed.

Lemma preset_writes_both_fields_witness :
  ∃ w', presetBtn_onclick (js "HD") (js "1280") (js "720") Sample.one
        = Some w'
    ∧ w' = showToast (PresetApplied (js "HD") (PInt 1280) (PInt 720))
             (withFields (decimal 1280) (decimal 720) Sample.one)
    ∧ toasts w'
      = toasts Sample.one ++ [PresetApplied (js "HD") (PInt 1280) (PInt 720)]
    ∧ parseInt (widthInput w') = PInt 1280
    ∧ parseInt (heightInput w') = PInt 720
    ∧ aspectLocked w' = aspectLocked Sample.one
    ∧ aspectRatio w' = aspectRatio Sample.one
    ∧ files w' = files Sample.one.
Proof.
  apply (preset_writes_both_fields (js "HD") (js "1280") (js "720")
           1280 720 Sample.one).
  - discriminate.
  - reflexivity.
  - reflexivity.
  - simpl. lia.
  - simpl. lia.
Defined.

(** X4.  A slider value from 0 to 100 gives the encoder a quality between 0 and
    1, the quotient of the value by 100, and 1 at the value 100 only. *)
Theorem quality_in_unit_interval n w :
  0 <= n <= 100 →
  let q := quality (qualitySlider_oninput (decimal n) w) in
  q = fdiv (of_Z n) (of_Z 100)
  ∧ fle (of_Z 0) q = true ∧ fle q (of_Z 1) = true
  ∧ fle (of_Z 1) q = (100 <=? n).
Proof.
  intros Hn q.
  assert (Hq : q = fdiv (of_Z n) (of_Z 100)).
  { unfold q, qualitySlider_oninput. rewrite parseInt_decimal.
    by destruct w. }
  split; [done|]. rewrite Hq. clear q Hq.
  assert (Hall : forallb (λ k,
            fle (of_Z 0) (fdiv (of_Z k) (of_Z 100))
            && fle (fdiv (of_Z k) (of_Z 100)) (of_Z 1)
            && Bool.eqb (fle (of_Z 1) (fdiv (of_Z k) (of_Z 100))) (100 <=? k))
            (seqZ 0 101) = true) by (vm_compute; reflexivity).
  rewrite forallb_forall in Hall.
  assert (Hin : In n (seqZ 0 101))
    by (apply list_elem_of_In, elem_of_seqZ; lia).
  specialize (Hall n Hin).
  apply andb_prop in Hall as [Hall H100]. apply eqb_prop in H100.
  apply andb_prop in Hall as [H0 H1]. done.
Qed.

Lemma quality_in_unit_interval_witness :
  let q := quality (qualitySlider_oninput (decimal 85) initial) in
  q = fdiv (of_Z 85) (of_Z 100)
  ∧ fle (of_Z 0) q = true ∧ fle q (of_Z 1) = true
  ∧ fle (of_Z 1) q = (100 <=? 85).
Proof. apply (quality_in_unit_interval 85 initial). lia. Defined.

(** ** The picture selected after an upload *)

Lemma validateFiles_settings fileList :
  ∀ w, activeIndex (validateFiles fileList w).2 = activeIndex w
     ∧ widthInput (validateFiles fileList w).2 = widthInput w
     ∧ heightInput (validateFiles fileList w).2 = heightInput w.
Proof.
  induction fileList as [|f rest IH]; intros w; [done|]. simpl.
  destruct (negb _).
  { destruct (IH (showToast (UnsupportedFormat (File.name f)) w))
      as (-> & -> & ->). done. }
  destruct (_ >? _).
  { destruct (IH (showToast (FileTooLarge (File.name f)) w))
      as (-> & -> & ->). done. }
  specialize (IH w). destruct (validateFiles rest w). done.
Qed.

Lemma loadFiles_settings newFiles :
  ∀ w, activeIndex (loadFiles newFiles w) = activeIndex w
     ∧ widthInput (loadFiles newFiles w) = widthInput w
     ∧ heightInput (loadFiles newFiles w) = heightInput w.
Proof.
  induction newFiles as [|f rest IH]; intros w; [done|]. simpl.
  destruct (loadImage f).
  - destruct (IH (set_files (files w ++ [a]) w)) as (-> & -> & ->). done.
  - destruct (IH (showToast (FailedToLoad (File.name f)) w))
      as (-> & -> & ->). done.
Qed.

(** X5.  [handleFiles] selects index [files.length - newFiles.length], counted
    after loading.  When every accepted file decodes this is the first new
    picture.  When some do not, the index falls that many places short: a
    picture of the earlier batch is selected, or, the index being negative,
    the selection and the fields stay as they were. *)
Theorem upload_selects_by_count fileList w :
  let newFiles := filter (λ f, accepted f = true) fileList in
  let batch := omap loaded newFiles in
  let index := Z.of_nat (length (files w) + length batch)
               - Z.of_nat (length newFiles) in
  newFiles ≠ [] → files w ++ batch ≠ [] →
  (∀ item, 0 <= index → (files w ++ batch) !! Z.to_nat index = Some item →
     activeIndex (handleFiles fileList w) = Z.to_nat index
     ∧ widthInput (handleFiles fileList w) = decimal (Item.naturalWidth item)
     ∧ heightInput (handleFiles fileList w)
       = decimal (Item.naturalHeight item))
  ∧ (index < 0 →
     activeIndex (handleFiles fileList w) = activeIndex w
     ∧ widthInput (handleFiles fileList w) = widthInput w
     ∧ heightInput (handleFiles fileList w) = heightInput w)
  ∧ (length batch = length newFiles → Z.to_nat index = length (files w))
  ∧ (length batch ≤ length newFiles)%nat.
Proof.
  intros newFiles batch index Hnew Hfiles.
  assert (Hshape : ∃ w2,
    handleFiles fileList w = showToast (ImagesLoaded (length newFiles))
                               (selectFile index w2)
    ∧ files w2 = files w ++ batch
    ∧ activeIndex w2 = activeIndex w
    ∧ widthInput w2 = widthInput w ∧ heightInput w2 = heightInput w).
  { unfold handleFiles.
    pose proof (validateFiles_spec fileList w) as (Hv1 & Hv2 & _).
    pose proof (validateFiles_settings fileList w) as (Ha & Hb & Hc).
    destruct (validateFiles fileList w) as [nf w1]. simpl in *. subst nf.
    fold newFiles.
    rewrite bool_decide_eq_false_2
      by (intros H; apply Hnew, nil_length_inv, H).
    pose proof (loadFiles_spec newFiles w1) as (Hl & _).
    pose proof (loadFiles_settings newFiles w1) as (Ha' & Hb' & Hc').
    fold batch in Hl. rewrite Hv2 in Hl.
    rewrite bool_decide_eq_false_2
      by (rewrite Hl; intros H; apply Hfiles, nil_length_inv, H).
    exists (loadFiles newFiles w1). split_and!; try congruence.
    rewrite Hl, length_app. reflexivity. }
  destruct Hshape as (w2 & -> & Hf & Ha & Hb & Hc).
  assert (Hlen : (length batch ≤ length newFiles)%nat).
  { unfold batch. generalize newFiles. clear.
    intros l. induction l as [|f l IH]; csimpl; [lia|].
    destruct (loaded f); csimpl; lia. }
  split_and!.
  - intros item Hpos Hitem. rewrite <- Hf in Hitem.
    destruct (selectFile_aspectRatio index w2 item Hpos Hitem)
      as (H1 & _ & H3 & H4).
    by rewrite <- H1, <- H3, <- H4.
  - intros Hneg. unfold selectFile.
    destruct (index <? 0) eqn:E; [|apply Z.ltb_ge in E; lia]. simpl.
    by rewrite <- Ha, <- Hb, <- Hc.
  - intros Heq. unfold index. lia.
  - done.
Qed.

Lemma upload_selects_by_count_witness :
  let w := handleFiles [Sample2.broken; Sample2.second] Sample.one in
  activeIndex w = 0%nat
  ∧ widthInput w = decimal 100 ∧ heightInput w = decimal 127.
Proof.
  destruct (upload_selects_by_count [Sample2.broken; Sample2.second]
              Sample.one) as (H & _).
  - discriminate.
  - discriminate.
  - apply (H Sample.holiday); [simpl; lia | reflexivity].
Defined.

(** ** The active index stays inside the batch *)

Lemma selectFile_activeInRange index w :
  activeInRange w → activeInRange (selectFile index w).
Proof.
  intros Hin. destruct (selectFile_frame index w) as (Hf & _).
  unfold activeInRange. rewrite Hf.
  destruct (decide (0 <= index < Z.of_nat (length (files w)))) as [Hr|Hr].
  - destruct (lookup_lt_is_Some_2 (files w) (Z.to_nat index)) as [item Hitem];
      [lia|].
    destruct (selectFile_aspectRatio index w item) as (-> & _);
      [lia|done|]. left. lia.
  - assert (selectFile index w = w) as ->; [|done].
    unfold selectFile. destruct (_ || _) eqn:E; [done|].
    apply orb_false_iff in E as [E1%Z.ltb_ge E2].
    rewrite Z.geb_leb, Z.leb_gt in E2. lia.
Qed.

Lemma activeInRange_ext w w' :
  activeIndex w' = activeIndex w →
  (length (files w) ≤ length (files w'))%nat →
  activeInRange w → activeInRange w'.
Proof. unfold activeInRange. intros -> Hlen [H|H]; [left; lia | by right]. Qed.

Lemma resizeImage_activeIndex pica a i tw th w :
  activeIndex (resizeImage pica a i tw th w).1 = activeIndex w.
Proof.
  unfold resizeImage.
  destruct (files w !! i) as [item|]; [|done].
  destruct (decode a); [done|].
  destruct (resample a tw th); [done|].
  destruct (canvasToBlob _ _ _ _ _ _) as [[blob|]|e]; [| |done].
  - simpl. unfold revokeResized. by destruct (Item.resizedUrl item).
  - simpl. unfold revokeResized. by destruct (Item.resizedUrl item).
Qed.

Lemma showResults_activeIndex item w w' :
  showResults item w = Normal w' →
  activeIndex w' = activeIndex w ∧ files w' = files w.
Proof.
  unfold showResults. destruct (Item.resizedBlob item); [|done].
  destruct (_ >? 0); by intros [= <-].
Qed.

Lemma resizeAll_loop_activeIndex pica attempts tw th fuel :
  ∀ i completed w,
    activeIndex (resizeAll_loop pica attempts tw th fuel i completed w).1.1
    = activeIndex w
    ∧ length (files (resizeAll_loop pica attempts tw th fuel i completed w).1.1)
      = length (files w).
Proof.
  induction fuel as [|fuel IH]; intros i completed w; simpl; [done|].
  destruct (bool_decide _); [|done].
  pose proof (resizeImage_activeIndex pica (attempts i) i tw th w) as Ha.
  pose proof (resizeImage_length pica (attempts i) i tw th w) as Hl.
  destruct (resizeImage pica (attempts i) i tw th w) as [w1 [e|]];
    simpl in *; [done|].
  destruct (IH (S i) (S completed) w1) as [-> ->]. done.
Qed.

Lemma downloadAll_loop_activeIndex items :
  ∀ w w', downloadAll_loop items w = Some w' → activeIndex w' = activeIndex w.
Proof.
  induction items as [|item items IH]; intros w w'; simpl.
  - by intros [= <-].
  - destruct (downloadName item w); simpl; [|done].
    intros Hloop. by rewrite (IH _ _ Hloop).
Qed.

Lemma reachable_activeInRange pica w : reachable pica w → activeInRange w.
Proof.
  induction 1 as [ | fileList w _ IH | index w _ IH | index w w' _ IH Hev
                   | | value w w' _ IH Hev | value w w' _ IH Hev
                   | w _ IH | w _ IH | format ext w _ IH | a w _ IH
                   | attempts w _ IH | w w' _ IH Hev | w w' _ IH Hev
                   | name dataW dataH w w' _ IH Hev | value w _ IH ].
  - by right.
  - unfold handleFiles.
    pose proof (validateFiles_spec fileList w) as (_ & Hv & _).
    pose proof (validateFiles_settings fileList w) as (Ha & _).
    destruct (validateFiles fileList w) as [newFiles w1]. simpl in *.
    assert (H1 : activeInRange w1)
      by (apply (activeInRange_ext w); [done | by rewrite Hv | done]).
    case_bool_decide; [done|].
    pose proof (loadFiles_spec newFiles w1) as (Hl & _).
    pose proof (loadFiles_settings newFiles w1) as (Ha' & _).
    assert (H2 : activeInRange (loadFiles newFiles w1)).
    { apply (activeInRange_ext w1); [done| |done].
      rewrite Hl, length_app. lia. }
    case_bool_decide; [done|].
    apply (activeInRange_ext (selectFile
             (Z.of_nat (length (files (loadFiles newFiles w1)))
              - Z.of_nat (length newFiles)) (loadFiles newFiles w1)));
      [done|done|].
    by apply selectFile_activeInRange.
  - by apply selectFile_activeInRange.
  - unfold removeFile in Hev.
    destruct (files w !! index) as [item|] eqn:Hitem; [|done].
    destruct (revokeResized_spec item w) as (Hf & _ & _ & _ & Hs).
    assert (Hact : activeIndex (revokeResized item w) = activeIndex w)
      by apply Hs.
    simpl in Hev. rewrite Hf in Hev.
    case_bool_decide as Hlen.
    + injection Hev as <-. by right.
    + injection Hev as <-.
      case_bool_decide as Hle.
      * simpl.
        match goal with
        | |- activeInRange (selectFile ?i ?w0) =>
            assert (Hin : 0 <= i ∧ is_Some (files w0 !! Z.to_nat i))
        end.
        { split; [lia|]. apply lookup_lt_is_Some. simpl. lia. }
        destruct Hin as [Hpos [x Hx]].
        match goal with
        | |- activeInRange (selectFile ?i ?w0) =>
            destruct (selectFile_aspectRatio i w0 x Hpos Hx) as (Hsel & _);
            destruct (selectFile_frame i w0) as (Hfr & _)
        end.
        left. rewrite Hsel, Hfr. apply lookup_lt_is_Some. eauto.
      * apply selectFile_activeInRange. left. simpl. rewrite Hact. lia.
  - by right.
  - unfold widthInput_oninput in Hev. simpl in Hev.
    destruct (_ && _); [|by injection Hev as <-].
    destruct (negb _); [|by injection Hev as <-].
    destruct (Number_toString _); simpl in Hev; [by injection Hev as <-|done].
  - unfold heightInput_oninput in Hev. simpl in Hev.
    destruct (_ && _); [|by injection Hev as <-].
    destruct (negb _); [|by injection Hev as <-].
    destruct (Number_toString _); simpl in Hev; [by injection Hev as <-|done].
  - done.
  - unfold resetBtn_onclick.
    destruct (files w !! activeIndex w) as [item|] eqn:Hitem; [|done].
    destruct (revokeResized_spec item w) as (Hf & _ & _ & _ & Hs).
    assert (Hact : activeIndex (revokeResized item w) = activeIndex w)
      by apply Hs.
    match goal with
    | |- activeInRange (showToast _ ?x) => apply (activeInRange_ext x)
    end; [done|done|].
    apply selectFile_activeInRange.
    left. simpl. rewrite Hact, Hf, length_insert.
    apply lookup_lt_is_Some. eauto.
  - done.
  - unfold resizeCurrent.
    destruct (files w !! activeIndex w); [|done].
    destruct (invalidDimensions _ _); [done|].
    destruct (_ || _); [done|].
    pose proof (resizeImage_activeIndex pica a (activeIndex w)
                  (parseInt (widthInput w)) (parseInt (heightInput w)) w) as Ha.
    pose proof (resizeImage_length pica a (activeIndex w)
                  (parseInt (widthInput w)) (parseInt (heightInput w)) w) as Hl.
    destruct (resizeImage pica a _ _ _ w) as [w1 [e|]]; simpl in *.
    { apply (activeInRange_ext w); [done|simpl; lia|done]. }
    assert (H1 : activeInRange w1)
      by (apply (activeInRange_ext w); [done|lia|done]).
    destruct (files w1 !! activeIndex w) as [item|]; [|done].
    destruct (showResults item w1) as [w2|e] eqn:Hshow; [|done].
    apply showResults_activeIndex in Hshow as [Ha2 Hf2].
    apply (activeInRange_ext w1); [done|simpl; by rewrite Hf2|done].
  - unfold resizeAll.
    destruct (invalidDimensions _ _); [done|].
    pose proof (resizeAll_loop_activeIndex pica attempts
                  (parseInt (widthInput w)) (parseInt (heightInput w))
                  (length (files w)) 0%nat 0%nat w) as [Ha Hl].
    destruct (resizeAll_loop _ _ _ _ _ _ _ w) as [[w1 completed] [e|]];
      simpl in *.
    { apply (activeInRange_ext w); [done|simpl; lia|done]. }
    match goal with
    | |- activeInRange (showToast _ ?x) => apply (activeInRange_ext x)
    end; [done|done|].
    apply selectFile_activeInRange.
    apply (activeInRange_ext w); [done|lia|done].
  - unfold downloadCurrent in Hev.
    destruct (files w !! activeIndex w) as [item|]; [|by injection Hev as <-].
    destruct (Item.resizedBlob item); [|by injection Hev as <-].
    destruct (downloadName item w); simpl in Hev; [by injection Hev as <-|done].
  - pose proof (downloadAll_urlState w w' Hev) as Hu.
    injection Hu as Hf _ _.
    apply (activeInRange_ext w); [|by rewrite Hf|done].
    unfold downloadAll in Hev. case_bool_decide; [by injection Hev as <-|].
    destruct (downloadAll_loop _ w) as [w1|] eqn:Hloop; simpl in Hev; [|done].
    injection Hev as <-. simpl.
    by apply downloadAll_loop_activeIndex in Hloop.
  - destruct (presetBtn_onclick_frame _ _ _ _ _ Hev) as ([= Hf _ _] & Ha).
    apply (activeInRange_ext w); [done|by rewrite Hf|done].
  - done.
Qed.

(** X6.  In every world the page can reach with a batch that is not empty, the
    active index names a picture of the batch: the guard [if (!item) return]
    of [resizeCurrent] and of the reset button never fires there. *)
Theorem active_picture_exists pica w :
  reachable pica w → files w ≠ [] → is_Some (files w !! activeIndex w).
Proof.
  intros Hreach Hfiles.
  apply lookup_lt_is_Some.
  destruct (reachable_activeInRange pica w Hreach) as [H|H]; [done|].
  rewrite H. destruct (files w); [done|simpl; lia].
Qed.

Lemma active_picture_exists_witness :
  is_Some (files Sample.resizedAt50x64 !! activeIndex Sample.resizedAt50x64).
Proof.
  apply (active_picture_exists true Sample.resizedAt50x64).
  - exact reachable_resizedAt50x64.
  - discriminate.
Defined.

(** ** Resized results keep a live URL *)

Lemma resultsLive_ext w w' :
  urlState w' = urlState w → resultsLive w → resultsLive w'.
Proof.
  unfold urlState, resultsLive. intros [= Hf Hl Hn]. by rewrite Hf, Hl.
Qed.

(** An item is rewritten in place and its former URL revoked; the URLs of
    the other items stay live because no two items share one. *)
Lemma resultsLive_rewrite w w' i item item' :
  urlsOwned w → resultsLive w →
  files w !! i = Some item →
  files w' = <[i := item']> (files w) →
  withoutResized item (liveUrls w) ⊆ liveUrls w' →
  (is_Some (Item.resizedBlob item') →
   ∃ u, Item.resizedUrl item' = Some u ∧ u ∈ liveUrls w') →
  resultsLive w'.
Proof.
  intros (_ & Hinj & _) Hlive Hitem Hfiles Hsub Hnew j x Hj Hb.
  rewrite Hfiles in Hj.
  apply list_lookup_insert_Some in Hj as [(<- & <- & _)|(Hne & Hj)];
    [by apply Hnew|].
  destruct (Hlive j x Hj Hb) as (u & Hu & Hin).
  exists u. split; [done|]. apply Hsub.
  unfold withoutResized.
  destruct (Item.resizedUrl item) as [u0|] eqn:Hu0; [|done].
  apply elem_of_difference. split; [done|].
  rewrite elem_of_singleton. intros ->.
  by apply Hne, (Hinj i j item x u0).
Qed.

Lemma resultsLive_delete w w' i item :
  urlsOwned w → resultsLive w →
  files w !! i = Some item →
  files w' = delete i (files w) →
  liveUrls w' = withoutResized item (liveUrls w) →
  resultsLive w'.
Proof.
  intros (_ & Hinj & _) Hlive Hitem Hfiles Hl j x Hj Hb.
  rewrite Hfiles in Hj.
  assert (Hk : ∃ k, k ≠ i ∧ files w !! k = Some x).
  { destruct (decide (j < i)%nat).
    - exists j. rewrite list_lookup_delete_lt in Hj by done.
      split; [lia|done].
    - exists (S j). rewrite list_lookup_delete_ge in Hj by lia.
      split; [lia|done]. }
  destruct Hk as (k & Hne & Hk).
  destruct (Hlive k x Hk Hb) as (u & Hu & Hin).
  exists u. split; [done|]. rewrite Hl.
  unfold withoutResized.
  destruct (Item.resizedUrl item) as [u0|] eqn:Hu0; [|done].
  apply elem_of_difference. split; [done|].
  rewrite elem_of_singleton. intros ->.
  by apply Hne, (Hinj k i x item u0).
Qed.

Lemma resizeImage_resultsLive pica a i tw th w :
  urlsOwned w → resultsLive w →
  resultsLive (resizeImage pica a i tw th w).1.
Proof.
  intros Hown Hlive. unfold resizeImage.
  destruct (files w !! i) as [item|] eqn:Hitem; [|done].
  destruct (decode a) eqn:Hd; [done|].
  destruct (resample a tw th) eqn:Hr; [done|].
  destruct (canvasToBlob _ _ _ _ _ _) as [[blob|]|e] eqn:Hc; [| |done].
  - destruct (resizeImage_success pica a i tw th w item blob Hitem)
      as (w' & Hrun & Hfiles & Hl & _); [done|].
    unfold resizeImage in Hrun. rewrite Hitem, Hd, Hr, Hc in Hrun.
    rewrite Hrun. simpl.
    apply (resultsLive_rewrite w w' i item
             (Item.with_resized (Some blob) (Some (nextUrl w)) item));
      try done.
    + rewrite Hl. apply union_subseteq_r.
    + intros _. exists (nextUrl w). split; [done|].
      rewrite Hl. apply elem_of_union_l, elem_of_singleton. done.
  - destruct (revokeResized_spec item w) as (Hf & Hl & _).
    apply (resultsLive_rewrite w _ i item (Item.with_resizedBlob None item));
      try done; simpl.
    + by rewrite Hf.
    + by rewrite Hl.
    + by intros [? ?].
Qed.

Lemma resizeAll_loop_resultsLive pica attempts tw th fuel :
  ∀ i completed w,
    urlsOwned w → resultsLive w →
    resultsLive (resizeAll_loop pica attempts tw th fuel i completed w).1.1.
Proof.
  induction fuel as [|fuel IH]; intros i completed w Hown Hlive; simpl;
    [done|].
  destruct (bool_decide _); [|done].
  pose proof (resizeImage_urlsOwned pica (attempts i) i tw th w Hown) as Ho.
  pose proof (resizeImage_resultsLive pica (attempts i) i tw th w Hown Hlive)
    as Hrun.
  destruct (resizeImage pica (attempts i) i tw th w) as [w1 [e|]];
    simpl in *; [done|].
  by apply IH.
Qed.

Lemma loaded_no_blob f item :
  loaded f = Some item → Item.resizedBlob item = None.
Proof.
  unfold loaded, loadImage. destruct (File.content f); [|done].
  by intros [= <-].
Qed.

Lemma handleFiles_urlState fileList w :
  liveUrls (handleFiles fileList w) = liveUrls w
  ∧ nextUrl (handleFiles fileList w) = nextUrl w.
Proof.
  unfold handleFiles.
  pose proof (validateFiles_urlState fileList w) as Hv.
  destruct (validateFiles fileList w) as [newFiles w1].
  injection Hv as _ Hl Hn. simpl in *.
  case_bool_decide; [done|].
  destruct (loadFiles_urls newFiles w1) as (Hl2 & Hn2).
  case_bool_decide; [by rewrite Hl2, Hn2|].
  simpl.
  destruct (selectFile_frame
              (Z.of_nat (length (files (loadFiles newFiles w1)))
               - Z.of_nat (length newFiles)) (loadFiles newFiles w1))
    as (_ & _ & Hl3 & Hn3).
  by rewrite Hl3, Hn3, Hl2, Hn2.
Qed.

Lemma reachable_resultsLive pica w : reachable pica w → resultsLive w.
Proof.
  induction 1 as [ | fileList w Hr IH | index w Hr IH | index w w' Hr IH Hev
                   | w Hr IH | value w w' Hr IH Hev | value w w' Hr IH Hev
                   | w Hr IH | w Hr IH | format ext w Hr IH | a w Hr IH
                   | attempts w Hr IH | w w' Hr IH Hev | w w' Hr IH Hev
                   | name dataW dataH w w' Hr IH Hev | value w Hr IH ];
    try (pose proof (reachable_urlsOwned pica w Hr) as Hown).
  - intros i item Hi. by destruct i.
  - destruct (handleFiles_spec fileList w) as (Hfiles & _).
    destruct (handleFiles_urlState fileList w) as (Hl & _).
    intros j x Hj Hb. rewrite Hfiles in Hj. rewrite Hl.
    apply lookup_app_Some in Hj as [Hj|[_ Hj]]; [by apply (IH j)|].
    apply list_elem_of_lookup_2, list_elem_of_omap in Hj as (f & _ & Hf).
    apply loaded_no_blob in Hf. rewrite Hf in Hb. by destruct Hb.
  - apply (resultsLive_ext w); [apply selectFile_urlState | done].
  - unfold removeFile in Hev.
    destruct (files w !! index) as [item|] eqn:Hitem; [|done].
    destruct (revokeResized_spec item w) as (Hf & Hl & _).
    set (w2 := set_files (delete index (files (revokeResized item w)))
                 (revokeResized item w)) in *.
    assert (Hw2 : resultsLive w2).
    { apply (resultsLive_delete w w2 index item); try done.
      unfold w2. simpl. by rewrite Hf. }
    case_bool_decide.
    + injection Hev as <-. intros j x Hj. by destruct j.
    + injection Hev as <-. apply (resultsLive_ext w2); [|done].
      case_bool_decide; (etrans; [apply selectFile_urlState | reflexivity]).
  - intros j x Hj. by destruct j.
  - apply (resultsLive_ext w); [by eapply widthInput_oninput_urlState | done].
  - apply (resultsLive_ext w); [by eapply heightInput_oninput_urlState | done].
  - done.
  - unfold resetBtn_onclick.
    destruct (files w !! activeIndex w) as [item|] eqn:Hitem; [|done].
    destruct (revokeResized_spec item w) as (Hf & Hl & Hn & _ & Hs).
    assert (Hact : activeIndex (revokeResized item w) = activeIndex w)
      by apply Hs.
    apply (resultsLive_ext
             (set_files (<[activeIndex w := Item.with_resized None None item]>
                           (files w)) (revokeResized item w))).
    + rewrite Hact, Hf.
      apply (selectFile_urlState _
               (set_files (<[activeIndex w := Item.with_resized None None item]>
                             (files w)) (revokeResized item w))).
    + apply (resultsLive_rewrite w _ (activeIndex w) item
               (Item.with_resized None None item)); try done; simpl.
      * by rewrite Hl.
      * by intros [? ?].
  - done.
  - unfold resizeCurrent.
    destruct (files w !! activeIndex w); [|done].
    destruct (invalidDimensions _ _); [done|].
    destruct (_ || _); [done|].
    pose proof (resizeImage_resultsLive pica a (activeIndex w)
                  (parseInt (widthInput w)) (parseInt (heightInput w)) w
                  Hown IH) as Hrun.
    destruct (resizeImage pica a _ _ _ w) as [w1 [e|]]; simpl in Hrun; [done|].
    destruct (files w1 !! activeIndex w) as [item|]; [|done].
    destruct (showResults item w1) as [w2|e] eqn:Hshow; [|done].
    apply showResults_urlState in Hshow.
    apply (resultsLive_ext w1); [|done].
    by rewrite <- Hshow.
  - unfold resizeAll.
    destruct (invalidDimensions _ _); [done|].
    pose proof (resizeAll_loop_resultsLive pica attempts
                  (parseInt (widthInput w)) (parseInt (heightInput w))
                  (length (files w)) 0%nat 0%nat w Hown IH) as Hloop.
    destruct (resizeAll_loop _ _ _ _ _ _ _ w) as [[w1 completed] [e|]];
      simpl in Hloop; [done|].
    apply (resultsLive_ext w1); [|done].
    apply (selectFile_urlState (Z.of_nat (activeIndex w1)) w1).
  - apply (resultsLive_ext w); [by eapply downloadCurrent_urlState | done].
  - apply (resultsLive_ext w); [by eapply downloadAll_urlState | done].
  - apply (resultsLive_ext w); [by eapply presetBtn_onclick_frame | done].
  - done.
Qed.

Lemma downloadAll_loop_hrefs items :
  ∀ w w', downloadAll_loop items w = Some w' →
    (downloads w').*1 = (downloads w).*1 ++ (Item.resizedUrl <$> items).
Proof.
  induction items as [|item items IH]; intros w w'; simpl.
  - intros [= <-]. by rewrite app_nil_r.
  - destruct (downloadName item w) as [filename|]; simpl; [|done].
    intros Hloop. rewrite (IH _ _ Hloop). simpl.
    by rewrite fmap_app, <- app_assoc.
Qed.

(** X7.  In every world the page can reach, what [downloadCurrent] and
    [downloadAll] hand to the browser are object URLs that are live when the
    handler runs: a link is never [null] and never a revoked URL. *)
Theorem downloads_use_live_urls pica w w' :
  reachable pica w →
  downloadCurrent w = Some w' ∨ downloadAll w = Some w' →
  ∃ hrefs, (downloads w').*1 = (downloads w).*1 ++ hrefs
    ∧ liveUrls w' = liveUrls w
    ∧ ∀ href, href ∈ hrefs → ∃ u, href = Some u ∧ u ∈ liveUrls w.
Proof.
  intros Hreach Hev.
  pose proof (reachable_resultsLive pica w Hreach) as Hlive.
  destruct Hev as [Hev|Hev].
  - pose proof (downloadCurrent_urlState w w' Hev) as [= _ Hl _].
    unfold downloadCurrent in Hev.
    destruct (files w !! activeIndex w) as [item|] eqn:Hitem.
    2: { injection Hev as <-. exists []. rewrite app_nil_r.
         split_and!; try done. intros href Hin. by apply elem_of_nil in Hin. }
    destruct (Item.resizedBlob item) as [blob|] eqn:Hb.
    2: { injection Hev as <-. exists []. rewrite app_nil_r.
         split_and!; try done. intros href Hin. by apply elem_of_nil in Hin. }
    destruct (downloadName item w) as [filename|]; simpl in Hev; [|done].
    injection Hev as <-. exists [Item.resizedUrl item]. simpl.
    rewrite fmap_app. split_and!; try done.
    intros href Hin. apply list_elem_of_singleton in Hin as ->.
    apply (Hlive (activeIndex w) item Hitem). by rewrite Hb.
  - pose proof (downloadAll_urlState w w' Hev) as [= _ Hl _].
    unfold downloadAll in Hev. case_bool_decide.
    { injection Hev as <-. exists []. rewrite app_nil_r.
      split_and!; try done. intros href Hin. by apply elem_of_nil in Hin. }
    destruct (downloadAll_loop _ w) as [w1|] eqn:Hloop; simpl in Hev; [|done].
    injection Hev as <-. simpl.
    exists (Item.resizedUrl
              <$> filter (λ f, is_Some (Item.resizedBlob f)) (files w)).
    split_and!; try done.
    + by apply downloadAll_loop_hrefs.
    + intros href Hin.
      apply list_elem_of_fmap in Hin as (item & -> & Hitem).
      apply list_elem_of_filter in Hitem as [Hb Hitem].
      apply list_elem_of_lookup in Hitem as [j Hj].
      by apply (Hlive j item).
Qed.

Lemma downloads_use_live_urls_witness :
  ∃ w', downloadCurrent Sample.resizedAt50x64 = Some w'
    ∧ ∃ hrefs, (downloads w').*1
               = (downloads Sample.resizedAt50x64).*1 ++ hrefs
      ∧ liveUrls w' = liveUrls Sample.resizedAt50x64
      ∧ ∀ href, href ∈ hrefs →
          ∃ u, href = Some u ∧ u ∈ liveUrls Sample.resizedAt50x64.
Proof.
  eexists. split; [reflexivity|].
  apply (downloads_use_live_urls true Sample.resizedAt50x64).
  - exact reachable_resizedAt50x64.
  - left. reflexivity.
Defined.

(** ** The originals are never altered *)

Lemma original_insert i item item' (l : list Item.t) :
  l !! i = Some item → original item' = original item →
  original <$> <[i := item']> l = original <$> l.
Proof.
  intros Hi Heq. rewrite list_fmap_insert, Heq.
  apply list_insert_id. by rewrite list_lookup_fmap, Hi.
Qed.

Lemma revokeResized_files item w : files (revokeResized item w) = files w.
Proof. apply revokeResized_spec. Qed.

Lemma resizeImage_originals pica a i tw th w :
  original <$> files (resizeImage pica a i tw th w).1 = original <$> files w.
Proof.
  unfold resizeImage.
  destruct (files w !! i) as [item|] eqn:Hitem; [|done].
  destruct (decode a); [done|].
  destruct (resample a tw th); [done|].
  destruct (canvasToBlob _ _ _ _ _ _) as [[blob|]|e]; [| |done].
  - simpl. rewrite list_insert_insert_eq, revokeResized_files.
    by apply (original_insert i item).
  - simpl. rewrite revokeResized_files. by apply (original_insert i item).
Qed.

Lemma resizeAll_loop_originals pica attempts tw th fuel :
  ∀ i completed w,
    original
      <$> files (resizeAll_loop pica attempts tw th fuel i completed w).1.1
    = original <$> files w.
Proof.
  induction fuel as [|fuel IH]; intros i completed w; simpl; [done|].
  destruct (bool_decide _); [|done].
  pose proof (resizeImage_originals pica (attempts i) i tw th w) as Hrun.
  destruct (resizeImage pica (attempts i) i tw th w) as [w1 [e|]];
    simpl in *; [done|].
  by rewrite IH.
Qed.

(** X8.  Resizing and resetting never alter what was loaded: after
    [resizeCurrent], [resizeAll] or the reset button the batch holds the same
    pictures in the same order, each with its file, data URL, natural size
    and original size; only resized blobs and URLs differ. *)
Theorem originals_are_kept pica a attempts w :
  original <$> files (resizeCurrent pica a w) = original <$> files w
  ∧ original <$> files (resizeAll pica attempts w) = original <$> files w
  ∧ original <$> files (resetBtn_onclick w) = original <$> files w.
Proof.
  split_and!.
  - unfold resizeCurrent.
    destruct (files w !! activeIndex w); [|done].
    destruct (invalidDimensions _ _); [done|].
    destruct (_ || _); [done|].
    pose proof (resizeImage_originals pica a (activeIndex w)
                  (parseInt (widthInput w)) (parseInt (heightInput w)) w)
      as Hrun.
    destruct (resizeImage pica a _ _ _ w) as [w1 [e|]]; simpl in Hrun;
      [done|].
    destruct (files w1 !! activeIndex w) as [item|]; [|done].
    destruct (showResults item w1) as [w2|e] eqn:Hshow; [|done].
    apply showResults_activeIndex in Hshow as [_ Hf]. simpl. by rewrite Hf.
  - unfold resizeAll.
    destruct (invalidDimensions _ _); [done|].
    pose proof (resizeAll_loop_originals pica attempts
                  (parseInt (widthInput w)) (parseInt (heightInput w))
                  (length (files w)) 0%nat 0%nat w) as Hloop.
    destruct (resizeAll_loop _ _ _ _ _ _ _ w) as [[w1 completed] [e|]];
      simpl in Hloop; [done|].
    simpl. by rewrite (proj1 (selectFile_frame _ w1)).
  - unfold resetBtn_onclick.
    destruct (files w !! activeIndex w) as [item|] eqn:Hitem; [|done].
    simpl. rewrite (proj1 (selectFile_frame _ _)). simpl.
    rewrite revokeResized_files.
    destruct (revokeResized_spec item w) as (_ & _ & _ & _ & Hs).
    replace (activeIndex (revokeResized item w)) with (activeIndex w)
      by (symmetry; apply Hs).
    by apply (original_insert (activeIndex w) item).
Qed.

(** ** Reset after a resize *)

Lemma resetBtn_urls w item :
  files w !! activeIndex w = Some item →
  files (resetBtn_onclick w) = <[activeIndex w := original item]> (files w)
  ∧ liveUrls (resetBtn_onclick w) = withoutResized item (liveUrls w).
Proof.
  intros Hitem. unfold resetBtn_onclick. rewrite Hitem.
  destruct (revokeResized_spec item w) as (Hf & Hl & _ & _ & Hs).
  assert (Hact : activeIndex (revokeResized item w) = activeIndex w)
    by apply Hs.
  simpl.
  destruct (selectFile_frame
              (Z.of_nat (activeIndex (revokeResized item w)))
              (set_files
                 (<[activeIndex (revokeResized item w)
                    := Item.with_resized None None item]>
                    (files (revokeResized item w)))
                 (revokeResized item w))) as (-> & _ & -> & _).
  simpl. by rewrite Hact, Hf, Hl.
Qed.

(** What one click on the resize button does to the active item and to the
    live URLs: nothing; or the blob is dropped and the URL revoked; or both
    are replaced. *)
Lemma resizeCurrent_urls pica a w item :
  files w !! activeIndex w = Some item →
  activeIndex (resizeCurrent pica a w) = activeIndex w
  ∧ ((files (resizeCurrent pica a w) = files w
      ∧ liveUrls (resizeCurrent pica a w) = liveUrls w)
     ∨ (files (resizeCurrent pica a w)
        = <[activeIndex w := Item.with_resizedBlob None item]> (files w)
        ∧ liveUrls (resizeCurrent pica a w)
          = withoutResized item (liveUrls w))
     ∨ (∃ blob,
          files (resizeCurrent pica a w)
          = <[activeIndex w
              := Item.with_resized (Some blob) (Some (nextUrl w)) item]>
              (files w)
          ∧ liveUrls (resizeCurrent pica a w)
            = {[nextUrl w]} ∪ withoutResized item (liveUrls w))).
Proof.
  intros Hitem. unfold resizeCurrent. rewrite Hitem.
  destruct (invalidDimensions _ _); [by split; [|left]|].
  destruct (_ || _); [by split; [|left]|].
  pose proof (resizeImage_activeIndex pica a (activeIndex w)
                (parseInt (widthInput w)) (parseInt (heightInput w)) w) as Ha.
  assert (Hrun :
    (files (resizeImage pica a (activeIndex w) (parseInt (widthInput w))
              (parseInt (heightInput w)) w).1 = files w
     ∧ liveUrls (resizeImage pica a (activeIndex w) (parseInt (widthInput w))
                   (parseInt (heightInput w)) w).1 = liveUrls w)
    ∨ (files (resizeImage pica a (activeIndex w) (parseInt (widthInput w))
                (parseInt (heightInput w)) w).1
       = <[activeIndex w := Item.with_resizedBlob None item]> (files w)
       ∧ liveUrls (resizeImage pica a (activeIndex w) (parseInt (widthInput w))
                     (parseInt (heightInput w)) w).1
         = withoutResized item (liveUrls w))
    ∨ (∃ blob,
         files (resizeImage pica a (activeIndex w) (parseInt (widthInput w))
                  (parseInt (heightInput w)) w).1
         = <[activeIndex w
             := Item.with_resized (Some blob) (Some (nextUrl w)) item]>
             (files w)
         ∧ liveUrls (resizeImage pica a (activeIndex w)
                       (parseInt (widthInput w))
                       (parseInt (heightInput w)) w).1
           = {[nextUrl w]} ∪ withoutResized item (liveUrls w))).
  { unfold resizeImage. rewrite Hitem.
    destruct (decode a) eqn:Hd; [by left|].
    destruct (resample a _ _) eqn:Hr; [by left|].
    destruct (canvasToBlob _ _ _ _ _ _) as [[blob|]|e] eqn:Hc; [| |by left].
    - right. right. exists blob.
      destruct (resizeImage_success pica a (activeIndex w)
                  (parseInt (widthInput w)) (parseInt (heightInput w))
                  w item blob Hitem) as (w' & Hrun & Hfiles & Hl & _); [done|].
      unfold resizeImage in Hrun. rewrite Hitem, Hd, Hr, Hc in Hrun.
      by rewrite Hrun.
    - right. left. simpl.
      destruct (revokeResized_spec item w) as (-> & -> & _). done. }
  destruct (resizeImage pica a _ _ _ w) as [w1 [e|]]; simpl in *; [done|].
  destruct (files w1 !! activeIndex w) as [x|]; [|done].
  destruct (showResults x w1) as [w2|e] eqn:Hshow; [|done].
  pose proof (showResults_urlState _ _ _ Hshow) as [= Hf Hl _].
  apply showResults_activeIndex in Hshow as [Ha2 _].
  simpl. by rewrite Ha2, Hf, Hl.
Qed.

Lemma reachable_nextUrl_fresh pica w :
  reachable pica w → nextUrl w ∉ liveUrls w.
Proof.
  intros Hreach Hin.
  destruct (reachable_urlsOwned pica w Hreach) as (Hown & _ & Hfresh).
  destruct (Hown _ Hin) as (j & x & Hj & Hx).
  specialize (Hfresh j x _ Hj Hx). lia.
Qed.

(** X9.  In every world the page can reach, a click on reset after a click on
    resize leaves the batch and the live object URLs as a click on reset
    alone would, whatever the resize did: the result is dropped and its URL
    revoked.  For a picture that had no result the batch and the live URLs
    are as before the resize. *)
Theorem reset_undoes_resize pica a w item :
  reachable pica w →
  files w !! activeIndex w = Some item →
  files (resetBtn_onclick (resizeCurrent pica a w))
  = files (resetBtn_onclick w)
  ∧ liveUrls (resetBtn_onclick (resizeCurrent pica a w))
    = liveUrls (resetBtn_onclick w)
  ∧ (Item.resizedBlob item = None → Item.resizedUrl item = None →
     files (resetBtn_onclick (resizeCurrent pica a w)) = files w
     ∧ liveUrls (resetBtn_onclick (resizeCurrent pica a w)) = liveUrls w).
Proof.
  intros Hreach Hitem.
  pose proof (reachable_nextUrl_fresh pica w Hreach) as Hnext.
  destruct (resetBtn_urls w item Hitem) as (Hf0 & Hl0).
  assert (Hlt : (activeIndex w < length (files w))%nat)
    by (apply lookup_lt_is_Some; eauto).
  assert (Hboth :
    files (resetBtn_onclick (resizeCurrent pica a w))
    = files (resetBtn_onclick w)
    ∧ liveUrls (resetBtn_onclick (resizeCurrent pica a w))
      = liveUrls (resetBtn_onclick w)).
  { rewrite Hf0, Hl0.
    destruct (resizeCurrent_urls pica a w item Hitem)
      as (Ha & [(Hf & Hl)|[(Hf & Hl)|(blob & Hf & Hl)]]).
    - assert (Hi : files (resizeCurrent pica a w)
                   !! activeIndex (resizeCurrent pica a w) = Some item)
        by (by rewrite Ha, Hf).
      destruct (resetBtn_urls _ item Hi) as (-> & ->).
      by rewrite Ha, Hf, Hl.
    - assert (Hi : files (resizeCurrent pica a w)
                   !! activeIndex (resizeCurrent pica a w)
                   = Some (Item.with_resizedBlob None item)).
      { rewrite Ha, Hf. by apply list_lookup_insert_eq. }
      destruct (resetBtn_urls _ _ Hi) as (-> & ->).
      rewrite Ha, Hf, Hl, list_insert_insert_eq. split; [done|].
      unfold withoutResized. simpl.
      destruct (Item.resizedUrl item); [|done].
      apply set_eq. intros x. rewrite !elem_of_difference. tauto.
    - assert (Hi : files (resizeCurrent pica a w)
                   !! activeIndex (resizeCurrent pica a w)
                   = Some (Item.with_resized (Some blob) (Some (nextUrl w))
                             item)).
      { rewrite Ha, Hf. by apply list_lookup_insert_eq. }
      destruct (resetBtn_urls _ _ Hi) as (-> & ->).
      rewrite Ha, Hf, Hl, list_insert_insert_eq. split; [done|].
      unfold withoutResized at 1. simpl.
      pose proof (withoutResized_subseteq item (liveUrls w)) as Hsub.
      apply set_eq. intros x.
      rewrite elem_of_difference, elem_of_union, !elem_of_singleton.
      split; [tauto|]. intros Hx. split; [by right|].
      intros ->. by apply Hnext, Hsub. }
  split_and!; try apply Hboth.
  intros Hb Hu. destruct Hboth as [-> ->]. rewrite Hf0, Hl0.
  split.
  - apply list_insert_id. rewrite Hitem. f_equal.
    destruct item. simpl in *. by subst.
  - unfold withoutResized. by rewrite Hu.
Qed.

Lemma reset_undoes_resize_witness :
  files (resetBtn_onclick (resizeCurrent true Sample.works Sample.typed50x64))
  = files Sample.typed50x64
  ∧ liveUrls (resetBtn_onclick
                (resizeCurrent true Sample.works Sample.typed50x64))
    = liveUrls Sample.typed50x64.
Proof.
  destruct (reset_undoes_resize true Sample.works Sample.typed50x64
              Sample.holiday) as (_ & _ & H).
  - apply (reach_heightInput true (js "64")
             (set_widthInput (js "50") (lockAspect_onclick Sample.one)));
      [|reflexivity].
    apply (reach_widthInput true (js "50") (lockAspect_onclick Sample.one));
      [|reflexivity].
    apply reach_lockAspect, reach_handleFiles, reach_initial.
  - reflexivity.
  - apply H; reflexivity.
Defined.

(** ** Removing and clearing *)

(** X10.  [removeFile] takes the picture out of the batch and revokes its URL.
    The active index is not moved with the pictures: it stays, or falls back
    to the last picture when it is past the end.  So after removing a
    picture that stood before the active one, or the active one itself, the
    picture that followed the active one is active; after removing a later
    one the active picture is the same.  Removing the only picture clears the
    page. *)
Theorem remove_keeps_the_index index w item :
  files w !! index = Some item →
  ∃ w', removeFile index w = Normal w'
    ∧ files w' = delete index (files w)
    ∧ liveUrls w' = withoutResized item (liveUrls w)
    ∧ (length (files w) = 1%nat →
       activeIndex w' = 0%nat ∧ widthInput w' = [] ∧ heightInput w' = [])
    ∧ (length (files w) ≠ 1%nat →
       activeIndex w'
       = Nat.min (activeIndex w) (length (files w) - 2)%nat)
    ∧ ((index ≤ activeIndex w)%nat →
       (S (activeIndex w) < length (files w))%nat →
       files w' !! activeIndex w' = files w !! S (activeIndex w))
    ∧ ((activeIndex w < index)%nat →
       files w' !! activeIndex w' = files w !! activeIndex w).
Proof.
  intros Hitem.
  assert (Hlt : (index < length (files w))%nat)
    by (apply lookup_lt_is_Some; eauto).
  destruct (revokeResized_spec item w) as (Hf & Hl & _ & _ & Hs).
  assert (Hact : activeIndex (revokeResized item w) = activeIndex w)
    by apply Hs.
  set (w2 := set_files (delete index (files (revokeResized item w)))
               (revokeResized item w)).
  assert (Hf2 : files w2 = delete index (files w))
    by (unfold w2; simpl; by rewrite Hf).
  assert (Hlen2 : length (files w2) = (length (files w) - 1)%nat).
  { rewrite Hf2, length_delete; [lia|]. eauto. }
  assert (Hl2 : liveUrls w2 = withoutResized item (liveUrls w))
    by (unfold w2; simpl; by rewrite Hl).
  assert (Ha2 : activeIndex w2 = activeIndex w) by (unfold w2; by simpl).
  unfold removeFile. rewrite Hitem. fold w2.
  case_bool_decide as Hempty.
  - exists (clearAll w2). split; [done|].
    assert (Hnil : files w2 = []) by by apply nil_length_inv.
    unfold clearAll. rewrite Hnil. simpl.
    split_and!; try done; try lia.
    by rewrite <- Hf2.
  - set (w3 := if bool_decide (length (files w2) ≤ activeIndex w2)%nat
               then set_activeIndex (length (files w2) - 1)%nat w2 else w2).
    assert (Hf3 : files w3 = files w2)
      by (unfold w3; by case_bool_decide).
    assert (Hl3 : liveUrls w3 = liveUrls w2)
      by (unfold w3; by case_bool_decide).
    assert (Ha3 : activeIndex w3
                  = Nat.min (activeIndex w) (length (files w) - 2)%nat).
    { unfold w3. case_bool_decide as Hc.
      - change (activeIndex (set_activeIndex ?n ?x)) with n. lia.
      - lia. }
    assert (Hin : (activeIndex w3 < length (files w3))%nat)
      by (rewrite Hf3; lia).
    destruct (lookup_lt_is_Some_2 _ _ Hin) as [x Hx].
    destruct (selectFile_aspectRatio (Z.of_nat (activeIndex w3)) w3 x)
      as (Hsel & _); [lia|by rewrite Nat2Z.id|].
    rewrite Nat2Z.id in Hsel.
    destruct (selectFile_frame (Z.of_nat (activeIndex w3)) w3)
      as (Hfs & _ & Hls & _).
    exists (selectFile (Z.of_nat (activeIndex w3)) w3).
    split; [done|].
    rewrite Hfs, Hls, Hsel, Hf3, Hl3, Hf2, Hl2, Ha3.
    split_and!; try done; try lia.
    + intros Hle Hnext.
      rewrite Nat.min_l by lia.
      by rewrite list_lookup_delete_ge by lia.
    + intros Hgt.
      rewrite Nat.min_l by lia.
      by rewrite list_lookup_delete_lt by lia.
Qed.

Lemma remove_keeps_the_index_witness :
  ∃ w', removeFile 0 (selectFile 1 Sample.three) = Normal w'
    ∧ activeIndex w' = 1%nat
    ∧ files w' !! activeIndex w' = files Sample.three !! 2%nat.
Proof.
  destruct (remove_keeps_the_index 0 (selectFile 1 Sample.three)
              (original
                 {| Item.file := Sample.file "a.png" "image/png" 1000
                                   (Some Sample.picture);
                    Item.originalUrl := Image.dataUrl Sample.picture;
                    Item.naturalWidth := 100; Item.naturalHeight := 127;
                    Item.originalSize := 1000;
                    Item.resizedBlob := None; Item.resizedUrl := None |}))
    as (w' & Hrun & _ & _ & _ & Hact & Hnext & _).
  - reflexivity.
  - exists w'. split; [exact Hrun|]. split.
    + apply Hact. discriminate.
    + apply Hnext; simpl; lia.
Defined.

(** X11.  In every world the page can reach, [clearAll] leaves no live object URL
    behind: the batch is empty, the fields are blank and every URL the page
    created has been revoked. *)
Theorem clear_releases_everything pica w :
  reachable pica w →
  liveUrls (clearAll w) = ∅
  ∧ files (clearAll w) = []
  ∧ activeIndex (clearAll w) = 0%nat
  ∧ widthInput (clearAll w) = [] ∧ heightInput (clearAll w) = []
  ∧ toasts (clearAll w) = toasts w ++ [AllImagesCleared].
Proof.
  intros Hreach.
  destruct (reachable_urlsOwned pica w Hreach) as (Hown & _ & _).
  destruct (revokeAll_spec (files w) w) as (Hf & Hl & Hn).
  unfold clearAll. simpl. rewrite Hl. split_and!; try done.
  - apply set_eq. intros u. rewrite elem_of_difference. split.
    + intros [Hu Hnot]. exfalso. apply Hnot.
      destruct (Hown u Hu) as (j & y & Hj & Hy).
      unfold urlsOf. apply elem_of_list_to_set, list_elem_of_omap.
      exists y. split; [|done]. by apply list_elem_of_lookup_2 in Hj.
    + intros Hu. by apply elem_of_empty in Hu.
  - f_equal. clear. generalize (files w). intros items. revert w.
    induction items as [|item items IH]; intros w; [done|].
    change (foldl ?f w (item :: items))
      with (foldl f (revokeResized item w) items).
    rewrite IH. unfold revokeResized. by destruct (Item.resizedUrl item).
Qed.

Lemma clear_releases_everything_witness :
  liveUrls (clearAll Sample.resizedAt50x64) = ∅
  ∧ files (clearAll Sample.resizedAt50x64) = []
  ∧ activeIndex (clearAll Sample.resizedAt50x64) = 0%nat
  ∧ widthInput (clearAll Sample.resizedAt50x64) = []
  ∧ heightInput (clearAll Sample.resizedAt50x64) = []
  ∧ toasts (clearAll Sample.resizedAt50x64)
    = toasts Sample.resizedAt50x64 ++ [AllImagesCleared].
Proof.
  apply (clear_releases_everything true Sample.resizedAt50x64).
  exact reachable_resizedAt50x64.
Defined.

(** ** The fields after a batch *)

(** X12.  When every picture of the batch is resized, [resizeAll] ends with
    [selectFile(state.activeIndex)], which writes the natural size of the
    active picture over what was typed: the fields no longer hold the size
    the batch was resized to. *)
Theorem batch_rewrites_the_fields pica attempts w (b : nat → Blob.t) item :
  invalidDimensions (parseInt (widthInput w)) (parseInt (heightInput w))
  = false →
  (∀ j, (j < length (files w))%nat →
        succeeds pica (attempts j)
          (parseInt (widthInput w)) (parseInt (heightInput w))
          (outputFormat w) (quality w) (b j)) →
  files w !! activeIndex w = Some item →
  widthInput (resizeAll pica attempts w) = decimal (Item.naturalWidth item)
  ∧ heightInput (resizeAll pica attempts w)
    = decimal (Item.naturalHeight item)
  ∧ parseInt (widthInput (resizeAll pica attempts w))
    = PInt (Item.naturalWidth item)
  ∧ parseInt (heightInput (resizeAll pica attempts w))
    = PInt (Item.naturalHeight item)
  ∧ activeIndex (resizeAll pica attempts w) = activeIndex w.
Proof.
  intros Hvalid Hok Hitem.
  assert (Hlt : (activeIndex w < length (files w))%nat)
    by (apply lookup_lt_is_Some; eauto).
  assert (Hfields :
    widthInput (resizeAll pica attempts w) = decimal (Item.naturalWidth item)
    ∧ heightInput (resizeAll pica attempts w)
      = decimal (Item.naturalHeight item)
    ∧ activeIndex (resizeAll pica attempts w) = activeIndex w).
  { unfold resizeAll. rewrite Hvalid.
    destruct (resizeAll_loop_completes pica attempts
                (parseInt (widthInput w)) (parseInt (heightInput w)) b
                (length (files w)) (length (files w)) 0 0 w)
      as (w1 & Hloop & Hdone & _ & Hs); [lia|lia| |].
    { intros j Hj. apply Hok. lia. }
    rewrite Hloop.
    assert (Ha : activeIndex w1 = activeIndex w) by apply Hs.
    destruct (Hdone (activeIndex w)) as (x & u & Hx & Hx1); [lia|].
    rewrite Hitem in Hx. injection Hx as <-.
    destruct (selectFile_aspectRatio (Z.of_nat (activeIndex w1)) w1
                (Item.with_resized (Some (b (activeIndex w))) (Some u) item))
      as (H1 & _ & H3 & H4); [lia|by rewrite Nat2Z.id, Ha|].
    simpl. rewrite H1, H3, H4, Nat2Z.id. done. }
  destruct Hfields as (Hw & Hh & Ha).
  rewrite Hw, Hh. split_and!; try done; apply parseInt_decimal.
Qed.

Lemma batch_rewrites_the_fields_witness :
  widthInput (resizeAll true (λ _, Sample.works) Sample.threeAt50x64)
  = decimal 100
  ∧ heightInput (resizeAll true (λ _, Sample.works) Sample.threeAt50x64)
    = decimal 127
  ∧ parseInt (widthInput
                (resizeAll true (λ _, Sample.works) Sample.threeAt50x64))
    = PInt 100
  ∧ parseInt (heightInput
                (resizeAll true (λ _, Sample.works) Sample.threeAt50x64))
    = PInt 127
  ∧ activeIndex (resizeAll true (λ _, Sample.works) Sample.threeAt50x64)
    = activeIndex Sample.threeAt50x64.
Proof.
  apply (batch_rewrites_the_fields true (λ _, Sample.works)
           Sample.threeAt50x64 (λ _, Sample.encoded (js "image/jpeg"))
           (original
              {| Item.file := Sample.file "a.png" "image/png" 1000
                                (Some Sample.picture);
                 Item.originalUrl := Image.dataUrl Sample.picture;
                 Item.naturalWidth := 100; Item.naturalHeight := 127;
                 Item.originalSize := 1000;
                 Item.resizedBlob := None; Item.resizedUrl := None |})).
  - reflexivity.
  - intros j Hj. split_and!; reflexivity.
  - reflexivity.
Defined.

(** ** Theme *)

(** X13.  The toggle alternates between dark and light: whatever the attribute
    was, it is dark or light after one click and flips with each further
    click; the stored theme is the attribute, and the meta colour, where the
    element exists, is the colour of that theme. *)
Theorem toggle_alternates t :
  let t1 := themeToggle_onclick t in
  let t2 := themeToggle_onclick t1 in
  (Theme.dataTheme t1 = Some (js "dark") ∨ Theme.dataTheme t1 = Some (js "light"))
  ∧ (Theme.dataTheme t1 = Some (js "light")
     ↔ Theme.dataTheme t = Some (js "dark"))
  ∧ Theme.dataTheme t2 ≠ Theme.dataTheme t1
  ∧ themeToggle_onclick t2 = t1
  ∧ Theme.stored t1 = Theme.dataTheme t1
  ∧ (∀ theme, Theme.dataTheme t1 = Some theme → is_Some (Theme.metaColor t) →
       Theme.metaColor t1 = Some (themeColour theme)).
Proof.
  unfold themeToggle_onclick, setTheme. simpl.
  destruct (Theme.metaColor t) as [c|] eqn:Hc;
    case_bool_decide as Hd; simpl; split_and!;
    try done; try (by left); try (by right);
    try (by intros ? [= <-] _); try (by intros ? _ [? ?]);
    try (split; [done|by intros H; rewrite H in Hd]).
Qed.

(** X14.  The theme chosen in one visit is the theme of the next, whatever the
    system prefers: [initTheme] applies a stored theme that is not the empty
    string, and what the toggle stores is never empty.  Without a stored
    theme, or with the empty string stored, the system preference decides. *)
Theorem theme_survives_reload prefersDark t t' :
  (∀ theme, theme ≠ [] → revisits (setTheme theme t) t' →
     Theme.dataTheme (initTheme prefersDark t') = Some theme
     ∧ Theme.stored (initTheme prefersDark t') = Some theme)
  ∧ (revisits (themeToggle_onclick t) t' →
     Theme.dataTheme (initTheme prefersDark t')
     = Theme.dataTheme (themeToggle_onclick t))
  ∧ (Theme.stored t' = None ∨ Theme.stored t' = Some [] →
     Theme.dataTheme (initTheme prefersDark t')
     = Some (if prefersDark then js "dark" else js "light")).
Proof.
  unfold revisits, initTheme. split_and!.
  - intros theme Hne ->. simpl.
    by rewrite bool_decide_eq_false_2.
  - intros ->. unfold themeToggle_onclick. simpl.
    destruct (bool_decide (Theme.dataTheme t = Some (js "dark")));
      reflexivity.
  - by intros [-> | ->].
Qed.

(** ** Service worker *)

Lemma cachesDelete_all keys :
  ∀ cs : CacheStorage,
    foldl (λ acc key, cachesDelete key acc) cs keys
    = filter (λ entry, entry.1 ∉ keys) cs.
Proof.
  unfold CacheStorage.
  induction keys as [|k keys IH]; intros cs.
  - change (foldl (λ acc key, cachesDelete key acc) cs []) with cs.
    induction cs as [|e cs IHc]; [done|].
    rewrite filter_cons_True by apply not_elem_of_nil. by f_equal.
  - change (foldl ?f cs (k :: keys)) with (foldl f (cachesDelete k cs) keys).
    rewrite IH. unfold cachesDelete, CacheStorage.
    rewrite list_filter_filter.
    apply list_filter_iff. intros e. rewrite not_elem_of_cons. tauto.
Qed.

(** After [activate] the storage holds the caches named [CACHE_NAME], as
    they were, and no other. *)
Lemma activate_current cs :
  onactivate cs = filter (λ entry, entry.1 = CACHE_NAME) cs
  ∧ (∀ name, name ∈ (onactivate cs).*1 → name = CACHE_NAME)
  ∧ (∀ entry, entry ∈ cs → entry.1 = CACHE_NAME → entry ∈ onactivate cs).
Proof.
  assert (Heq : onactivate cs = filter (λ entry, entry.1 = CACHE_NAME) cs).
  { unfold onactivate. rewrite cachesDelete_all. unfold CacheStorage in *.
    assert (Hgen : ∀ l : list (jsstring * gmap jsstring Response.t),
      (∀ e, e ∈ l → e ∈ cs) →
      filter (λ entry, entry.1 ∉ filter (λ key, key ≠ CACHE_NAME) cs.*1) l
      = filter (λ entry, entry.1 = CACHE_NAME) l).
    { induction l as [|e l IHl]; intros Hsub; [done|].
      assert (He : e ∈ cs) by (apply Hsub; left).
      assert (Hl : ∀ x, x ∈ l → x ∈ cs) by (intros x Hx; apply Hsub; by right).
      destruct (decide (e.1 = CACHE_NAME)) as [Hn|Hn].
      - rewrite !filter_cons_True; [by rewrite IHl|done|].
        rewrite list_elem_of_filter. tauto.
      - rewrite !filter_cons_False; [by apply IHl|done|].
        intros Hnot. apply Hnot, list_elem_of_filter. split; [done|].
        apply list_elem_of_fmap. by exists e. }
    by apply Hgen. }
  unfold CacheStorage in *.
  split_and!; [done| |].
  - intros name Hin. rewrite Heq in Hin.
    apply list_elem_of_fmap in Hin as (e & -> & He).
    by apply list_elem_of_filter in He as [? _].
  - intros e He Hn. rewrite Heq. by apply list_elem_of_filter.
Qed.

(** *** What [caches.match] finds after a [cache.put] *)

Lemma cachesMatch_app u l l' :
  cachesMatch u (l ++ l')
  = match cachesMatch u l with
    | Some r => Some r
    | None => cachesMatch u l'
    end.
Proof.
  induction l as [|[name cache] l IH]; simpl; [done|].
  by destruct (cache !! u).
Qed.

Lemma cachesMatch_open u name cs :
  cachesMatch u (cachesOpen name cs) = cachesMatch u cs.
Proof.
  unfold cachesOpen. destruct (cachesHas name cs); [done|].
  rewrite cachesMatch_app. simpl. rewrite lookup_empty.
  by destruct (cachesMatch u cs).
Qed.

Lemma cachesOpen_has name cs : name ∈ (cachesOpen name cs).*1.
Proof.
  unfold cachesOpen, cachesHas. case_bool_decide; [done|].
  rewrite fmap_app. apply elem_of_app. right. simpl. left.
Qed.

Lemma cachesOpen_names name name' cs :
  name' ∈ cs.*1 → name' ∈ (cachesOpen name cs).*1.
Proof.
  intros Hin. unfold cachesOpen. destruct (cachesHas name cs); [done|].
  rewrite fmap_app. apply elem_of_app. by left.
Qed.

Lemma cachePut_other name u r v cs :
  v ≠ u → cachesMatch v (cachePut name u r cs) = cachesMatch v cs.
Proof.
  intros Hne. unfold cachePut.
  rewrite <- (cachesMatch_open v name cs).
  induction (cachesOpen name cs) as [|[n cache] l IH]; [done|].
  rewrite fmap_cons. simpl. case_bool_decide; simpl.
  - rewrite lookup_insert_ne by done. by rewrite IH.
  - by rewrite IH.
Qed.

Lemma cachePut_hit name u r cs :
  cachesMatch u cs = None → cachesMatch u (cachePut name u r cs) = Some r.
Proof.
  intros Hmiss. unfold cachePut.
  rewrite <- (cachesMatch_open u name cs) in Hmiss.
  pose proof (cachesOpen_has name cs) as Hin.
  induction (cachesOpen name cs) as [|[n cache] l IH];
    [by apply elem_of_nil in Hin|].
  rewrite fmap_cons. simpl in *.
  destruct (cache !! u) eqn:Hc; [done|].
  case_bool_decide as Hn; simpl.
  - by rewrite lookup_insert_eq.
  - rewrite Hc. apply IH; [done|].
    apply elem_of_cons in Hin as [Hin|Hin]; [by subst|done].
Qed.

(** X15.  A CDN or font resource fetched once with status 200 is then answered
    from the cache, whatever the network does: the second request for the
    same URL gets the stored response and the storage is left as it is. *)
Theorem fetched_once_then_cached dir network request cs r :
  handled request →
  cachesMatch (Request.url request) cs = None →
  network (Request.url request) = Some r →
  Response.status r = 200 →
  cacheable (Request.url request) = true →
  ∃ cs', onfetch dir network request cs = (Responded r, cs')
    ∧ cachesMatch (Request.url request) cs' = Some r
    ∧ ∀ network' request',
        handled request' → Request.url request' = Request.url request →
        onfetch dir network' request' cs' = (Responded r, cs').
Proof.
  intros [Hget Hskip] Hmiss Hnet Hstatus Hcdn.
  exists (cachePut CACHE_NAME (Request.url request) r cs).
  pose proof (cachePut_hit CACHE_NAME _ r cs Hmiss) as Hhit.
  split_and!; [|done|].
  - unfold onfetch. rewrite Hget, Hskip, Hmiss, Hnet, Hstatus, Hcdn. done.
  - intros network' request' [Hget' Hskip'] Hurl.
    unfold onfetch. rewrite Hget', Hskip', Hurl, Hhit. done.
Qed.

Lemma fetched_once_then_cached_witness :
  ∃ cs', onfetch SampleSW.dir SampleSW.server
           (SampleSW.get "https://cdn.tailwindcss.com/3.4.1" "no-cors") []
         = (Responded (SampleSW.page (js "https://cdn.tailwindcss.com/3.4.1")),
            cs')
    ∧ cachesMatch (js "https://cdn.tailwindcss.com/3.4.1") cs'
      = Some (SampleSW.page (js "https://cdn.tailwindcss.com/3.4.1"))
    ∧ ∀ network' request',
        handled request' →
        Request.url request' = js "https://cdn.tailwindcss.com/3.4.1" →
        onfetch SampleSW.dir network' request' cs'
        = (Responded (SampleSW.page (js "https://cdn.tailwindcss.com/3.4.1")),
           cs').
Proof.
  apply (fetched_once_then_cached SampleSW.dir SampleSW.server
           (SampleSW.get "https://cdn.tailwindcss.com/3.4.1" "no-cors") []
           (SampleSW.page (js "https://cdn.tailwindcss.com/3.4.1"))).
  - split; reflexivity.
  - reflexivity.
  - reflexivity.
  - reflexivity.
  - reflexivity.
Defined.

(** X16.  A [fetch] event never changes what the cache answers for a URL it
    already holds, and it changes the storage at all only for a GET whose
    URL is a CDN or font URL not yet cached and whose response has status
    200; that response is then what the cache holds for the URL.  The
    application's own files are never stored by this listener. *)
Theorem fetch_only_adds dir network request cs :
  let cs' := (onfetch dir network request cs).2 in
  (∀ v r0, cachesMatch v cs = Some r0 → cachesMatch v cs' = Some r0)
  ∧ (cs' ≠ cs →
     handled request
     ∧ cacheable (Request.url request) = true
     ∧ cachesMatch (Request.url request) cs = None
     ∧ ∃ r, network (Request.url request) = Some r
         ∧ Response.status r = 200
         ∧ onfetch dir network request cs = (Responded r, cs')
         ∧ cachesMatch (Request.url request) cs' = Some r).
Proof.
  unfold onfetch, handled.
  destruct (bool_decide (Request.method request = js "GET")) eqn:Hget;
    simpl; [|done].
  apply bool_decide_eq_true_1 in Hget.
  destruct (_ || _) eqn:Hskip; [done|].
  destruct (cachesMatch (Request.url request) cs) as [c|] eqn:Hmiss; [done|].
  destruct (network (Request.url request)) as [r|] eqn:Hnet.
  2: { destruct (bool_decide _); [|done].
       by destruct (cachesMatch (resolveUrl dir (js "./index.html")) cs). }
  destruct (Response.status r =? 200) eqn:Hstatus; simpl; [|done].
  destruct (cacheable (Request.url request)) eqn:Hcdn; simpl; [|done].
  apply Z.eqb_eq in Hstatus.
  pose proof (cachePut_hit CACHE_NAME _ r cs Hmiss) as Hhit.
  split.
  - intros v r0 Hv. rewrite cachePut_other; [done|].
    intros ->. congruence.
  - intros _. split_and!; try done. by exists r.
Qed.

(** *** Installation *)

(** Every cache named [CACHE_NAME] holds [r] for [u], and there is one. *)
Lemma cachePut_current u r cs :
  let cs' := cachePut CACHE_NAME u r cs in
  CACHE_NAME ∈ cs'.*1
  ∧ ∀ entry, entry ∈ cs' → entry.1 = CACHE_NAME → entry.2 !! u = Some r.
Proof.
  unfold cachePut. split.
  - pose proof (cachesOpen_has CACHE_NAME cs) as Hin.
    apply list_elem_of_fmap in Hin as (e & He & Hin).
    apply list_elem_of_fmap. eexists. split; [|apply list_elem_of_fmap_2, Hin].
    by case_bool_decide.
  - intros entry Hin Hn.
    apply list_elem_of_fmap in Hin as (e & -> & Hin).
    case_bool_decide; simpl in *; [by rewrite lookup_insert_eq|done].
Qed.

Lemma cachePut_keeps u r v r' cs :
  v ≠ u →
  CACHE_NAME ∈ cs.*1 →
  (∀ entry, entry ∈ cs → entry.1 = CACHE_NAME → entry.2 !! v = Some r') →
  let cs' := cachePut CACHE_NAME u r cs in
  CACHE_NAME ∈ cs'.*1
  ∧ ∀ entry, entry ∈ cs' → entry.1 = CACHE_NAME → entry.2 !! v = Some r'.
Proof.
  intros Hne Hhas Hall. split; [apply (cachePut_current u r cs)|].
  intros entry Hin Hn. unfold cachePut in Hin.
  apply list_elem_of_fmap in Hin as (e & -> & Hin).
  assert (He : e ∈ cs).
  { unfold cachesOpen, cachesHas in Hin.
    rewrite bool_decide_eq_true_2 in Hin; done. }
  case_bool_decide; simpl in *.
  - rewrite lookup_insert_ne by done. by apply Hall.
  - by apply Hall.
Qed.

Lemma cachePut_all fetched :
  ∀ cs u r,
    NoDup fetched.*1 → (u, r) ∈ fetched →
    let cs' := foldl (λ acc entry, cachePut CACHE_NAME entry.1 entry.2 acc)
                 cs fetched in
    CACHE_NAME ∈ cs'.*1
    ∧ ∀ entry, entry ∈ cs' → entry.1 = CACHE_NAME → entry.2 !! u = Some r.
Proof.
  induction fetched as [|[v r'] fetched IH]; intros cs u r Hnd Hin.
  { by apply elem_of_nil in Hin. }
  rewrite fmap_cons in Hnd. apply NoDup_cons in Hnd as [Hv Hnd].
  apply elem_of_cons in Hin as [[= <- <-]|Hin].
  - simpl. clear IH Hnd.
    pose proof (cachePut_current u r cs) as Hstart. simpl in Hstart.
    revert Hstart. generalize (cachePut CACHE_NAME u r cs). clear cs.
    induction fetched as [|[v r'] fetched IH]; intros cs Hstart; [done|].
    rewrite fmap_cons in Hv. apply not_elem_of_cons in Hv as [Hne Hv].
    simpl. apply (IH Hv).
    destruct Hstart as [Hhas Hall].
    by apply (cachePut_keeps v r' u r cs).
  - simpl. by apply IH.
Qed.

Lemma current_lookup u r cs :
  CACHE_NAME ∈ cs.*1 →
  (∀ entry, entry ∈ cs → entry.1 = CACHE_NAME → entry.2 !! u = Some r) →
  cachesMatch u (onactivate cs) = Some r.
Proof.
  intros Hhas Hall.
  destruct (activate_current cs) as [-> _].
  unfold CacheStorage in *.
  induction cs as [|[n cache] cs IH]; [by apply elem_of_nil in Hhas|].
  destruct (decide (n = CACHE_NAME)) as [Hn|Hn].
  - rewrite filter_cons_True by done. simpl.
    assert (Hc : cache !! u = Some r) by (apply (Hall (n, cache)); [left|done]).
    by rewrite Hc.
  - rewrite filter_cons_False by done. apply IH.
    + rewrite fmap_cons in Hhas.
      apply elem_of_cons in Hhas as [Hhas|Hhas]; [by subst|done].
    + intros e He. apply Hall. by right.
Qed.

Lemma precache_resolved dir :
  resolveUrl dir <$> PRECACHE_URLS
  = (λ s, dir ++ s)
    <$> [[]; js "index.html"; js "style.css"; js "script.js";
         js "manifest.json"].
Proof. reflexivity. Qed.

Lemma installed dir network cs u r :
  (∀ v, v ∈ PRECACHE_URLS →
        ∃ r', network (resolveUrl dir v) = Some r' ∧ ok r' = true) →
  u ∈ PRECACHE_URLS → network (resolveUrl dir u) = Some r →
  cachesMatch (resolveUrl dir u) (onactivate (oninstall dir network cs))
  = Some r.
Proof.
  intros Hall Hu Hr. unfold oninstall.
  destruct (mapM _ (resolveUrl dir <$> PRECACHE_URLS)) as [fetched|] eqn:Hm.
  2: { exfalso. apply eq_None_not_Some in Hm. apply Hm, mapM_is_Some.
       apply Forall_forall. intros x Hx.
       apply list_elem_of_fmap in Hx as (v & -> & Hv).
       destruct (Hall v Hv) as (r' & Hn & Hok).
       unfold compose. rewrite Hn. simpl. rewrite Hok. by eexists. }
  apply mapM_Some in Hm.
  assert (Hnames : fetched.*1 = resolveUrl dir <$> PRECACHE_URLS).
  { clear -Hm. induction Hm as [|x [y r'] l k Hxy _ IH]; [done|].
    rewrite !fmap_cons, IH. f_equal.
    destruct (network x) as [r0|]; simpl in Hxy; [|done].
    destruct (ok r0); [|done]. by injection Hxy as <- <-. }
  assert (Hin : (resolveUrl dir u, r) ∈ fetched).
  { apply list_elem_of_fmap_2 with (f := resolveUrl dir) in Hu.
    set (x := resolveUrl dir u) in *. clearbody x.
    revert Hu. clear -Hm Hr.
    induction Hm as [|x' [y r'] l k Hxy _ IH]; intros Hx.
    - by apply elem_of_nil in Hx.
    - apply elem_of_cons in Hx as [->|Hx]; [|right; by apply IH].
      rewrite Hr in Hxy. simpl in Hxy.
      destruct (ok r); [|done]. injection Hxy as <- <-. left. }
  assert (Hnd : NoDup fetched.*1).
  { rewrite Hnames, precache_resolved.
    apply NoDup_fmap_2; [intros x y; apply app_inv_head|].
    apply NoDup_ListNoDup. repeat constructor; cbn; intuition discriminate. }
  destruct (cachePut_all fetched (cachesOpen CACHE_NAME cs) _ r Hnd Hin)
    as [Hhas Hcur].
  by apply current_lookup.
Qed.

(** X17.  After [activate] the storage holds the caches named [CACHE_NAME], as
    they were, and no other; what [caches.match] finds afterwards is held by
    one of them. *)
Theorem activate_keeps_current_only cs :
  onactivate cs = filter (λ entry, entry.1 = CACHE_NAME) cs
  ∧ (∀ name, name ∈ (onactivate cs).*1 → name = CACHE_NAME)
  ∧ (∀ entry, entry ∈ cs → entry.1 = CACHE_NAME → entry ∈ onactivate cs)
  ∧ (∀ u r, cachesMatch u (onactivate cs) = Some r →
       ∃ cache, (CACHE_NAME, cache) ∈ cs ∧ cache !! u = Some r).
Proof.
  destruct (activate_current cs) as (Heq & Hnames & Hkept).
  split_and!; try done.
  intros u r. rewrite Heq. clear. unfold CacheStorage in *.
  induction cs as [|[n cache] cs IH]; [done|].
  destruct (decide (n = CACHE_NAME)) as [->|Hn].
  - rewrite filter_cons_True by done. simpl.
    destruct (cache !! u) as [r0|] eqn:Hc.
    + intros [= <-]. exists cache. split; [left|done].
    + intros H. destruct (IH H) as (c & Hin & Hl).
      exists c. split; [by right|done].
  - rewrite filter_cons_False by done.
    intros H. destruct (IH H) as (c & Hin & Hl).
    exists c. split; [by right|done].
Qed.

(** X18.  Once the worker is installed with every pre-cache URL answered, and
    activated, the application loads without a network: a request for a
    pre-cached file is answered with the response stored at installation,
    whatever an earlier version left in the storage; a navigation to any
    other URL gets the stored [index.html]; any other request that misses
    the cache gets the 503 response. *)
Theorem installed_app_answers_offline dir network cs :
  (∀ v, v ∈ PRECACHE_URLS →
        ∃ r, network (resolveUrl dir v) = Some r ∧ ok r = true) →
  let cs' := onactivate (oninstall dir network cs) in
  (∀ u r request network',
     u ∈ PRECACHE_URLS → network (resolveUrl dir u) = Some r →
     handled request → Request.url request = resolveUrl dir u →
     onfetch dir network' request cs' = (Responded r, cs'))
  ∧ (∀ r request,
       network (resolveUrl dir (js "./index.html")) = Some r →
       handled request → Request.mode request = js "navigate" →
       cachesMatch (Request.url request) cs' = None →
       onfetch dir noNetwork request cs' = (Responded r, cs'))
  ∧ (∀ request,
       handled request → Request.mode request ≠ js "navigate" →
       cachesMatch (Request.url request) cs' = None →
       onfetch dir noNetwork request cs' = (Responded offline, cs')).
Proof.
  intros Hall cs'. split_and!.
  - intros u r request network' Hu Hr [Hget Hskip] Hurl.
    unfold onfetch. rewrite Hget, Hskip, Hurl. simpl.
    unfold cs'. by rewrite (installed dir network cs u r Hall Hu Hr).
  - intros r request Hr [Hget Hskip] Hmode Hmiss.
    unfold onfetch. rewrite Hget, Hskip, Hmiss, Hmode. simpl.
    unfold cs'.
    rewrite (installed dir network cs (js "./index.html") r Hall); [done| |done].
    unfold PRECACHE_URLS. set_solver.
  - intros request [Hget Hskip] Hmode Hmiss.
    unfold onfetch. rewrite Hget, Hskip, Hmiss. simpl.
    by rewrite bool_decide_eq_false_2.
Qed.

Lemma installed_app_answers_offline_witness :
  let cs' := onactivate (oninstall SampleSW.dir SampleSW.server SampleSW.old) in
  onfetch SampleSW.dir noNetwork
    (SampleSW.get "https://example.org/app/index.html" "navigate") cs'
  = (Responded (SampleSW.page (js "https://example.org/app/index.html")), cs')
  ∧ onfetch SampleSW.dir noNetwork
      (SampleSW.get "https://example.org/app/about" "navigate") cs'
    = (Responded (SampleSW.page (js "https://example.org/app/index.html")), cs')
  ∧ onfetch SampleSW.dir noNetwork
      (SampleSW.get "https://example.org/app/logo.png" "no-cors") cs'
    = (Responded offline, cs').
Proof.
  destruct (installed_app_answers_offline SampleSW.dir SampleSW.server
              SampleSW.old) as (Hfile & Hnav & Hother).
  - intros v _. eexists. split; reflexivity.
  - split_and!.
    + apply (Hfile (js "./index.html")
               (SampleSW.page (js "https://example.org/app/index.html"))).
      * unfold PRECACHE_URLS. right. left.
      * reflexivity.
      * split; reflexivity.
      * reflexivity.
    + apply Hnav.
      * reflexivity.
      * split; reflexivity.
      * reflexivity.
      * vm_compute. reflexivity.
    + apply Hother.
      * split; reflexivity.
      * discriminate.
      * vm_compute. reflexivity.
Defined.

(** Before activation a cache of an earlier version still answers: here the
    old cache's entry for [index.html] is found first. *)
Example stale_until_activated :
  onfetch SampleSW.dir noNetwork
    (SampleSW.get "https://example.org/app/index.html" "navigate")
    (oninstall SampleSW.dir SampleSW.server SampleSW.old)
  = (Responded offline, oninstall SampleSW.dir SampleSW.server SampleSW.old).
Proof. vm_compute. reflexivity. Qed.

(** ** A batch in which every picture resizes *)

Lemma originals_length pica attempts w :
  length (files (resizeAll pica attempts w)) = length (files w).
Proof.
  unfold resizeAll.
  destruct (invalidDimensions _ _); [done|].
  pose proof (resizeAll_loop_activeIndex pica attempts
                (parseInt (widthInput w)) (parseInt (heightInput w))
                (length (files w)) 0%nat 0%nat w) as [_ Hl].
  destruct (resizeAll_loop _ _ _ _ _ _ _ w) as [[w1 completed] [e|]];
    simpl in *; [done|].
  by rewrite (proj1 (selectFile_frame _ w1)).
Qed.

(** X19.  In every world the page can reach, a batch with valid dimensions in
    which every picture resizes gives each picture its blob and an object
    URL of its own that is live, and reports the number of pictures. *)
Theorem batch_resizes_every_picture pica attempts w (b : nat → Blob.t) :
  reachable pica w →
  invalidDimensions (parseInt (widthInput w)) (parseInt (heightInput w))
  = false →
  (∀ j, (j < length (files w))%nat →
        succeeds pica (attempts j)
          (parseInt (widthInput w)) (parseInt (heightInput w))
          (outputFormat w) (quality w) (b j)) →
  let w' := resizeAll pica attempts w in
  (∀ j, (j < length (files w))%nat →
        ∃ item u, files w !! j = Some item
          ∧ files w' !! j
            = Some (Item.with_resized (Some (b j)) (Some u) item)
          ∧ u ∈ liveUrls w')
  ∧ (∀ i j x y u, files w' !! i = Some x → files w' !! j = Some y →
        Item.resizedUrl x = Some u → Item.resizedUrl y = Some u → i = j)
  ∧ length (files w') = length (files w)
  ∧ toasts w' = toasts w ++ [AllResized (length (files w))].
Proof.
  intros Hreach Hvalid Hok w'.
  assert (Hreach' : reachable pica w') by by apply reach_resizeAll.
  pose proof (reachable_urlsOwned pica w' Hreach') as (_ & Hinj & _).
  pose proof (reachable_resultsLive pica w' Hreach') as Hlive.
  destruct (resizeAll_all_succeed pica attempts w b Hvalid Hok)
    as (Hitems & Htoasts).
  pose proof (originals_length pica attempts w) as Hlen.
  split_and!; try done.
  intros j Hj. destruct (Hitems j Hj) as (item & u & Hitem & Hnew).
  exists item, u. split_and!; try done.
  destruct (Hlive j _ Hnew) as (u' & Hu' & Hin); [by eexists|].
  simpl in Hu'. by injection Hu' as <-.
Qed.

Lemma batch_resizes_every_picture_witness :
  let w' := resizeAll true (λ _, Sample.works) Sample.threeAt50x64 in
  (∀ j, (j < length (files Sample.threeAt50x64))%nat →
        ∃ item u, files Sample.threeAt50x64 !! j = Some item
          ∧ files w' !! j
            = Some (Item.with_resized
                      (Some (Sample.encoded (js "image/jpeg"))) (Some u) item)
          ∧ u ∈ liveUrls w')
  ∧ (∀ i j x y u, files w' !! i = Some x → files w' !! j = Some y →
        Item.resizedUrl x = Some u → Item.resizedUrl y = Some u → i = j)
  ∧ length (files w') = length (files Sample.threeAt50x64)
  ∧ toasts w'
    = toasts Sample.threeAt50x64
      ++ [AllResized (length (files Sample.threeAt50x64))].
Proof.
  apply (batch_resizes_every_picture true (λ _, Sample.works)
           Sample.threeAt50x64 (λ _, Sample.encoded (js "image/jpeg"))).
  - apply (reach_heightInput true (js "64") Sample.three); [|reflexivity].
    apply reach_handleFiles, reach_initial.
  - reflexivity.
  - intros j Hj. split_and!; reflexivity.
Defined.

(** ** What a single resize leaves alone *)

(** X20.  [resizeCurrent] never writes the size fields, the lock, the ratio, the
    format, the quality or the selection, whatever happens to the resize:
    unlike [resizeAll], it leaves the typed size in the fields. *)
Theorem single_resize_keeps_settings pica a w :
  widthInput (resizeCurrent pica a w) = widthInput w
  ∧ heightInput (resizeCurrent pica a w) = heightInput w
  ∧ aspectLocked (resizeCurrent pica a w) = aspectLocked w
  ∧ aspectRatio (resizeCurrent pica a w) = aspectRatio w
  ∧ outputFormat (resizeCurrent pica a w) = outputFormat w
  ∧ outputExt (resizeCurrent pica a w) = outputExt w
  ∧ quality (resizeCurrent pica a w) = quality w
  ∧ activeIndex (resizeCurrent pica a w) = activeIndex w
  ∧ length (files (resizeCurrent pica a w)) = length (files w)
  ∧ ∃ t, toasts (resizeCurrent pica a w) = toasts w ++ t
      ∧ (length t ≤ 1)%nat.
Proof.
  unfold resizeCurrent.
  destruct (files w !! activeIndex w) as [item|] eqn:Hitem.
  2: { split_and!; try done. exists [].
       split; [by rewrite app_nil_r | simpl; lia]. }
  destruct (invalidDimensions _ _).
  { split_and!; try done. eexists [_]. split; [done | simpl; lia]. }
  destruct (_ || _).
  { split_and!; try done. eexists [_]. split; [done | simpl; lia]. }
  assert (Hrun : sameSettings w
            (resizeImage pica a (activeIndex w) (parseInt (widthInput w))
               (parseInt (heightInput w)) w).1).
  { unfold resizeImage. rewrite Hitem.
    destruct (decode a) eqn:Hd; [apply sameSettings_refl|].
    destruct (resample a _ _) eqn:Hr; [apply sameSettings_refl|].
    destruct (canvasToBlob _ _ _ _ _ _) as [[blob|]|e] eqn:Hc;
      [| |apply sameSettings_refl].
    - destruct (resizeImage_success pica a (activeIndex w)
                  (parseInt (widthInput w)) (parseInt (heightInput w))
                  w item blob Hitem) as (w' & Hrun & _ & _ & _ & _ & Hs);
        [done|].
      unfold resizeImage in Hrun. rewrite Hitem, Hd, Hr, Hc in Hrun.
      by rewrite Hrun.
    - simpl. destruct (revokeResized_spec item w) as (_ & _ & _ & _ & Hs).
      unfold sameSettings in *. simpl. done. }
  pose proof (resizeImage_length pica a (activeIndex w)
                (parseInt (widthInput w)) (parseInt (heightInput w)) w) as Hl.
  destruct (resizeImage pica a _ _ _ w) as [w1 [e|]]; simpl in *.
  { destruct Hrun as (? & ? & ? & ? & ? & ? & Ht & ? & ? & ?).
    split_and!; try done. eexists [_].
    split; [simpl; by rewrite Ht | simpl; lia]. }
  destruct Hrun as (? & ? & ? & ? & ? & ? & Ht & ? & ? & ?).
  destruct (files w1 !! activeIndex w) as [x|].
  2: { split_and!; try done. eexists [_].
       split; [simpl; by rewrite Ht | simpl; lia]. }
  unfold showResults.
  destruct (Item.resizedBlob x).
  2: { split_and!; try done. eexists [_].
       split; [simpl; by rewrite Ht | simpl; lia]. }
  destruct (_ >? 0); simpl; split_and!; try done;
    eexists [_]; (split; [simpl; by rewrite Ht | simpl; lia]).
Qed.

(** ** The toasts of an upload *)

(** X21.  [handleFiles] shows one toast for each rejected file, in the order
    of the submission, then one for each accepted file that fails to decode,
    and last, when a file was accepted and the batch is not empty, the count
    of the accepted files: the count includes the files that failed to
    decode.  When no file is accepted nothing but the rejection toasts
    changes. *)
Theorem upload_reports_accepted_count fileList w :
  let newFiles := filter (λ f, accepted f = true) fileList in
  let batch := omap loaded newFiles in
  toasts (handleFiles fileList w)
  = toasts w ++ omap rejection fileList ++ omap loadFailure newFiles
    ++ (if bool_decide (newFiles = [] ∨ files w ++ batch = []) then []
        else [ImagesLoaded (length newFiles)])
  ∧ length (omap loadFailure newFiles) = (length newFiles - length batch)%nat
  ∧ (newFiles = [] →
     files (handleFiles fileList w) = files w
     ∧ activeIndex (handleFiles fileList w) = activeIndex w
     ∧ widthInput (handleFiles fileList w) = widthInput w
     ∧ heightInput (handleFiles fileList w) = heightInput w
     ∧ liveUrls (handleFiles fileList w) = liveUrls w).
Proof.
  intros newFiles batch.
  destruct (handleFiles_spec fileList w) as (Hfiles & _).
  destruct (handleFiles_urlState fileList w) as (Hlive & _).
  fold newFiles in Hfiles. fold batch in Hfiles.
  split_and!.
  - unfold handleFiles.
    pose proof (validateFiles_spec fileList w) as (Hv1 & Hv2 & Hv3).
    destruct (validateFiles fileList w) as [nf w1]. simpl in *. subst nf.
    fold newFiles.
    case_bool_decide as Hn.
    { apply nil_length_inv in Hn. rewrite Hn.
      rewrite bool_decide_eq_true_2 by by left.
      by rewrite Hv3, !app_nil_r. }
    pose proof (loadFiles_spec newFiles w1) as (Hl1 & Hl2).
    fold batch in Hl1. rewrite Hv2 in Hl1. rewrite Hv3 in Hl2.
    case_bool_decide as He.
    { rewrite Hl1 in He. apply nil_length_inv in He.
      rewrite bool_decide_eq_true_2 by by right.
      by rewrite Hl2, app_nil_r, <- app_assoc. }
    rewrite bool_decide_eq_false_2.
    + cbn [toasts showToast set_toasts].
      rewrite (proj1 (proj2 (selectFile_frame _ _))), Hl2.
      by rewrite <- !app_assoc.
    + intros [H|H]; [by rewrite H in Hn|].
      by rewrite Hl1, H in He.
  - unfold batch. generalize newFiles. clear.
    intros l. induction l as [|f l IH]; [done|].
    unfold loadFailure, loaded in *. csimpl.
    destruct (loadImage f); csimpl; [done|].
    rewrite IH.
    assert (length (omap (λ f0, match loadImage f0 with
                                | Normal item => Some item
                                | Throw _ => None
                                end) l) ≤ length l)%nat; [|lia].
    clear. induction l as [|g l IH]; csimpl; [lia|].
    destruct (loadImage g); csimpl; lia.
  - intros Hnil. rewrite Hfiles, Hlive. unfold batch. rewrite Hnil.
    split_and!; try done; [by rewrite app_nil_r|..];
      unfold handleFiles;
      pose proof (validateFiles_spec fileList w) as (Hv1 & _);
      pose proof (validateFiles_settings fileList w) as (Ha & Hb & Hc);
      destruct (validateFiles fileList w) as [nf w1]; simpl in *; subst nf;
      fold newFiles; rewrite Hnil; by rewrite bool_decide_eq_true_2.
Qed.

(** One picture is on the page; a file that does not decode and one that does
    are added: one picture arrives and the toast counts two. *)
Example upload_counts_failed_files :
  let w := handleFiles [Sample2.broken; Sample2.second] Sample.one in
  length (files w) = 2%nat
  ∧ toasts w = toasts Sample.one
               ++ [FailedToLoad (js "broken.png"); ImagesLoaded 2].
Proof. split; reflexivity. Qed.

(** ** From a preset to the download *)

Lemma showResults_sameSettings item w w' :
  showResults item w = Normal w' →
  sameSettings w w' ∧ urlEvents w' = urlEvents w.
Proof.
  unfold showResults. destruct (Item.resizedBlob item); [|done].
  destruct (_ >? 0); intros [= <-]; split; try done;
    unfold sameSettings; by split_and!.
Qed.

(** A click on resize with both targets between 1 and 10000 and every stage
    working. *)
Lemma resizeCurrent_success pica a w item tw th blob :
  files w !! activeIndex w = Some item →
  parseInt (widthInput w) = PInt tw → parseInt (heightInput w) = PInt th →
  1 <= tw <= 10000 → 1 <= th <= 10000 →
  succeeds pica a (PInt tw) (PInt th) (outputFormat w) (quality w) blob →
  files (resizeCurrent pica a w)
  = <[activeIndex w
      := Item.with_resized (Some blob) (Some (nextUrl w)) item]> (files w)
  ∧ liveUrls (resizeCurrent pica a w)
    = {[nextUrl w]} ∪ withoutResized item (liveUrls w)
  ∧ toasts (resizeCurrent pica a w) = toasts w ++ [ResizedSuccessfully]
  ∧ activeIndex (resizeCurrent pica a w) = activeIndex w
  ∧ widthInput (resizeCurrent pica a w) = widthInput w
  ∧ heightInput (resizeCurrent pica a w) = heightInput w
  ∧ outputExt (resizeCurrent pica a w) = outputExt w
  ∧ downloads (resizeCurrent pica a w) = downloads w.
Proof.
  intros Hitem Hw Hh Htw Hth Hok.
  assert (Hlt : (activeIndex w < length (files w))%nat)
    by (apply lookup_lt_is_Some; eauto).
  unfold resizeCurrent. rewrite Hitem, Hw, Hh.
  assert (invalidDimensions (PInt tw) (PInt th) = false) as ->.
  { apply invalidDimensions_spec. exists tw, th. split_and!; try done; lia. }
  assert (above (PInt tw) 10000 || above (PInt th) 10000 = false) as ->.
  { simpl. rewrite !Z.gtb_ltb. apply orb_false_iff.
    split; apply Z.ltb_ge; lia. }
  destruct (resizeImage_success pica a (activeIndex w) (PInt tw) (PInt th)
              w item blob Hitem Hok)
    as (w1 & -> & Hfiles & Hlive & _ & _ & Hs).
  assert (Hnew : files w1 !! activeIndex w
                 = Some (Item.with_resized (Some blob) (Some (nextUrl w))
                           item)).
  { rewrite Hfiles. by apply list_lookup_insert_eq. }
  rewrite Hnew.
  destruct (showResults _ w1) as [w2|e] eqn:Hshow.
  2: { unfold showResults in Hshow. simpl in Hshow.
       by destruct (_ >? 0). }
  pose proof (showResults_urlState _ _ _ Hshow) as [= Hf2 Hl2 _].
  apply showResults_sameSettings in Hshow as [Hs2 _].
  pose proof (sameSettings_trans _ _ _ Hs Hs2)
    as (Ha & _ & He & _ & Hwi & Hhi & Ht & Hd & _).
  cbn [files liveUrls toasts activeIndex widthInput heightInput outputExt
       downloads showToast set_toasts].
  rewrite Hf2, Hl2, Hfiles, Hlive, Ht. by split_and!.
Qed.

(** X22.  From a preset to the download.  With a picture active, a preset
    other than Custom carrying sizes [n] and [m] between 1 and 10000 is
    clicked, then resize, then download.  When every stage of the resize
    works, the active picture holds the new blob and a new object URL, the
    browser is handed that URL under the name [{base}_{n}x{m}.{ext}], [base]
    being the file name without its final extension, and the toasts shown
    are, in this order, the preset's, the success of the resize and the start
    of the download: the sizes in the name are those of the preset. *)
Theorem preset_resize_download pica a name dataW dataH n m w item blob :
  name ≠ js "Custom" →
  parseInt dataW = PInt n → parseInt dataH = PInt m →
  1 <= n <= 10000 → 1 <= m <= 10000 →
  files w !! activeIndex w = Some item →
  succeeds pica a (PInt n) (PInt m) (outputFormat w) (quality w) blob →
  ∃ w1 w3,
    presetBtn_onclick name dataW dataH w = Some w1
    ∧ toasts w1 = toasts w ++ [PresetApplied name (PInt n) (PInt m)]
    ∧ files (resizeCurrent pica a w1) !! activeIndex w
      = Some (Item.with_resized (Some blob) (Some (nextUrl w)) item)
    ∧ nextUrl w ∈ liveUrls (resizeCurrent pica a w1)
    ∧ toasts (resizeCurrent pica a w1)
      = toasts w ++ [PresetApplied name (PInt n) (PInt m); ResizedSuccessfully]
    ∧ downloadCurrent (resizeCurrent pica a w1) = Some w3
    ∧ downloads w3
      = downloads w
        ++ [(Some (nextUrl w),
             removeExtension (File.name (Item.file item))
             ++ js "_" ++ decimal n ++ js "x" ++ decimal m ++ js "."
             ++ outputExt w)]
    ∧ toasts w3
      = toasts w ++ [PresetApplied name (PInt n) (PInt m);
                     ResizedSuccessfully; DownloadStarted].
Proof.
  intros Hname Hw Hh Hn Hm Hitem Hok.
  assert (Hlt : (activeIndex w < length (files w))%nat)
    by (apply lookup_lt_is_Some; eauto).
  set (w1 := showToast (PresetApplied name (PInt n) (PInt m))
               (withFields (decimal n) (decimal m) w)).
  assert (Hpreset : presetBtn_onclick name dataW dataH w = Some w1).
  { unfold presetBtn_onclick.
    rewrite bool_decide_eq_false_2 by done.
    rewrite Hw, Hh. simpl.
    destruct (Z.abs n <=? 2 ^ 53) eqn:En; [|apply Z.leb_gt in En; lia].
    destruct (Z.abs m <=? 2 ^ 53) eqn:Em; [|apply Z.leb_gt in Em; lia].
    simpl. unfold w1. by destruct w. }
  assert (Hsame : files w1 = files w ∧ activeIndex w1 = activeIndex w
                  ∧ outputFormat w1 = outputFormat w ∧ quality w1 = quality w
                  ∧ nextUrl w1 = nextUrl w ∧ liveUrls w1 = liveUrls w
                  ∧ toasts w1
                    = toasts w ++ [PresetApplied name (PInt n) (PInt m)]
                  ∧ outputExt w1 = outputExt w
                  ∧ downloads w1 = downloads w
                  ∧ widthInput w1 = decimal n ∧ heightInput w1 = decimal m)
    by (unfold w1; by destruct w).
  destruct Hsame as (Hf & Ha & Hfo & Hq & Hnx & Hl & Ht & He & Hd & Hwi & Hhi).
  destruct (resizeCurrent_success pica a w1 item n m blob)
    as (Hf2 & Hl2 & Ht2 & Ha2 & Hw2 & Hh2 & He2 & Hd2).
  { by rewrite Hf, Ha. }
  { rewrite Hwi. apply parseInt_decimal. }
  { rewrite Hhi. apply parseInt_decimal. }
  { done. }
  { done. }
  { by rewrite Hfo, Hq. }
  rewrite Hf, Ha, Hnx in Hf2. rewrite Hnx, Hl in Hl2.
  assert (Hnew : files (resizeCurrent pica a w1) !! activeIndex w
                 = Some (Item.with_resized (Some blob) (Some (nextUrl w))
                           item)).
  { rewrite Hf2. by apply list_lookup_insert_eq. }
  assert (Hname2 : downloadName
                     (Item.with_resized (Some blob) (Some (nextUrl w)) item)
                     (resizeCurrent pica a w1)
                   = Some (nameFor (resizeCurrent pica a w1) n m
                             (Item.with_resized (Some blob)
                                (Some (nextUrl w)) item))).
  { apply downloadName_spec; try lia.
    - rewrite Hw2, Hwi. apply parseInt_decimal.
    - rewrite Hh2, Hhi. apply parseInt_decimal. }
  eexists w1, _. split; [exact Hpreset|].
  split_and!.
  - done.
  - done.
  - rewrite Hl2. apply elem_of_union_l, elem_of_singleton. done.
  - by rewrite Ht2, Ht, <- app_assoc.
  - unfold downloadCurrent. rewrite Ha2, Ha, Hnew. simpl.
    rewrite Hname2. simpl. reflexivity.
  - cbn [downloads showToast set_toasts triggerDownload set_downloads].
    rewrite Hd2, Hd. unfold nameFor. simpl. by rewrite He2, He.
  - cbn [toasts showToast set_toasts triggerDownload set_downloads].
    rewrite Ht2, Ht. by rewrite <- !app_assoc.
Qed.

Lemma preset_resize_download_witness :
  ∃ w1 w3,
    presetBtn_onclick (js "Thumb") (js "50") (js "64") Sample.one = Some w1
    ∧ toasts w1
      = toasts Sample.one ++ [PresetApplied (js "Thumb") (PInt 50) (PInt 64)]
    ∧ files (resizeCurrent true Sample.works w1) !! activeIndex Sample.one
      = Some (Item.with_resized (Some (Sample.encoded (js "image/jpeg")))
                (Some (nextUrl Sample.one)) Sample.holiday)
    ∧ nextUrl Sample.one ∈ liveUrls (resizeCurrent true Sample.works w1)
    ∧ toasts (resizeCurrent true Sample.works w1)
      = toasts Sample.one
        ++ [PresetApplied (js "Thumb") (PInt 50) (PInt 64);
            ResizedSuccessfully]
    ∧ downloadCurrent (resizeCurrent true Sample.works w1) = Some w3
    ∧ downloads w3
      = downloads Sample.one
        ++ [(Some (nextUrl Sample.one),
             removeExtension (File.name (Item.file Sample.holiday))
             ++ js "_" ++ decimal 50 ++ js "x" ++ decimal 64 ++ js "."
             ++ outputExt Sample.one)]
    ∧ toasts w3
      = toasts Sample.one
        ++ [PresetApplied (js "Thumb") (PInt 50) (PInt 64);
            ResizedSuccessfully; DownloadStarted].
Proof.
  apply (preset_resize_download true Sample.works (js "Thumb") (js "50")
           (js "64") 50 64 Sample.one Sample.holiday
           (Sample.encoded (js "image/jpeg"))).
  - discriminate.
  - reflexivity.
  - reflexivity.
  - lia.
  - lia.
  - reflexivity.
  - split_and!; reflexivity.
Defined.

(** ** Fractions in the size fields *)

(** C10.  A fractional part typed into either dimension field is cut off by
    [parseInt], never rejected: whatever follows a decimal point,
    [resizeCurrent] and [resizeAll] do exactly what they do on the text
    before the point (the two fields themselves apart); in particular
    ["100.9"] is read as [100].  So when the texts before the points are
    integers [n] and [m] of at least 1, the validation lets the fields with
    the fractions pass, and the resize goes ahead at [n] by [m]: where the
    stages work at that size, [resizeCurrent] (for sizes up to 10000) installs
    the blob on the active picture and reports success, the fields keeping
    the text as typed, and [resizeAll] installs a blob on every picture and
    reports their number. *)
Theorem fraction_is_truncated pica a attempts w fw fh :
  let w' := withFields (widthInput w ++ Ch.dot :: fw)
                       (heightInput w ++ Ch.dot :: fh) w in
  parseInt (js "100.9") = PInt 100
  ∧ parseInt (widthInput w') = parseInt (widthInput w)
  ∧ parseInt (heightInput w') = parseInt (heightInput w)
  ∧ forgetFields (resizeCurrent pica a w') = forgetFields (resizeCurrent pica a w)
  ∧ forgetFields (resizeAll pica attempts w')
    = forgetFields (resizeAll pica attempts w)
  ∧ (∀ n m,
       parseInt (widthInput w) = PInt n → parseInt (heightInput w) = PInt m →
       1 <= n → 1 <= m →
       invalidDimensions (parseInt (widthInput w')) (parseInt (heightInput w'))
       = false
       ∧ (∀ item blob,
            n <= 10000 → m <= 10000 →
            files w !! activeIndex w = Some item →
            succeeds pica a (PInt n) (PInt m) (outputFormat w) (quality w)
              blob →
            files (resizeCurrent pica a w')
            = <[activeIndex w
                := Item.with_resized (Some blob) (Some (nextUrl w)) item]>
                (files w)
            ∧ toasts (resizeCurrent pica a w')
              = toasts w ++ [ResizedSuccessfully]
            ∧ widthInput (resizeCurrent pica a w')
              = widthInput w ++ Ch.dot :: fw
            ∧ heightInput (resizeCurrent pica a w')
              = heightInput w ++ Ch.dot :: fh)
       ∧ (∀ b : nat → Blob.t,
            (∀ j, (j < length (files w))%nat →
                  succeeds pica (attempts j) (PInt n) (PInt m)
                    (outputFormat w) (quality w) (b j)) →
            (∀ j, (j < length (files w))%nat →
                  ∃ item u, files w !! j = Some item
                    ∧ files (resizeAll pica attempts w') !! j
                      = Some (Item.with_resized (Some (b j)) (Some u) item))
            ∧ toasts (resizeAll pica attempts w')
              = toasts w ++ [AllResized (length (files w))])).
Proof.
  intros w'.
  assert (Hw : parseInt (widthInput w') = parseInt (widthInput w))
    by apply parseInt_dot.
  assert (Hh : parseInt (heightInput w') = parseInt (heightInput w))
    by apply parseInt_dot.
  split_and!; try done.
  - unfold w'. rewrite resizeCurrent_fields by apply parseInt_dot.
    reflexivity.
  - unfold w'. apply resizeAll_fields; apply parseInt_dot.
  - intros n m Hn Hm Hn1 Hm1. rewrite Hw, Hh, Hn, Hm.
    assert (Hvalid : invalidDimensions (PInt n) (PInt m) = false).
    { apply invalidDimensions_spec. by exists n, m. }
    split_and!; [done| |].
    + intros item blob Hn2 Hm2 Hitem Hok.
      destruct (resizeCurrent_success pica a w' item n m blob)
        as (Hf & _ & Ht & _ & Hwi & Hhi & _); try done.
      * by rewrite Hw.
      * by rewrite Hh.
    + intros b Hok.
      destruct (resizeAll_all_succeed pica attempts w' b) as (Hitems & Ht).
      * by rewrite Hw, Hh, Hn, Hm.
      * intros j Hj. rewrite Hw, Hh, Hn, Hm. by apply Hok.
      * done.
Qed.

Lemma fraction_is_truncated_witness :
  let w' := withFields (js "50.9") (js "64.25") Sample.typed50x64 in
  invalidDimensions (parseInt (widthInput w')) (parseInt (heightInput w'))
  = false
  ∧ files (resizeCurrent true Sample.works w')
    = <[0%nat := Item.with_resized (Some (Sample.encoded (js "image/jpeg")))
                   (Some 0%nat) Sample.holiday]> (files Sample.typed50x64)
  ∧ toasts (resizeCurrent true Sample.works w')
    = toasts Sample.typed50x64 ++ [ResizedSuccessfully]
  ∧ widthInput (resizeCurrent true Sample.works w') = js "50.9"
  ∧ heightInput (resizeCurrent true Sample.works w') = js "64.25"
  ∧ toasts (resizeAll true (λ _, Sample.works) w')
    = toasts Sample.typed50x64 ++ [AllResized 1].
Proof.
  destruct (fraction_is_truncated true Sample.works (λ _, Sample.works)
              Sample.typed50x64 (js "9") (js "25"))
    as (_ & _ & _ & _ & _ & H).
  destruct (H 50 64) as (Hvalid & Hcur & Hall);
    [reflexivity | reflexivity | lia | lia |].
  destruct (Hcur Sample.holiday (Sample.encoded (js "image/jpeg")))
    as (Hf & Ht & Hwi & Hhi);
    [lia | lia | reflexivity | split_and!; reflexivity |].
  destruct (Hall (λ _, Sample.encoded (js "image/jpeg"))) as (_ & Hta).
  { intros j Hj. split_and!; reflexivity. }
  split_and!.
  - exact Hvalid.
  - exact Hf.
  - exact Ht.
  - exact Hwi.
  - exact Hhi.
  - exact Hta.
Defined.
